(** * go-igc: a shallow embedding of the IGC parser (parser.go, igc.go)

    The parser reads a flight-recorder log line by line.  Every line is
    dispatched on its first byte to a record grammar given by a regular
    expression; a single mutable [parser] value carries the current
    flight date, the timestamp watermark and the installed addition
    tables from line to line.

    Conventions of the embedding:
    - Go's [int] is a 64-bit two's complement integer: a [Z] with the
      wrap-around written out ([wrap64]);
    - [[]byte] is [list ascii], Go's [string] is [string];
    - [time.Time] in UTC is the number of nanoseconds since
      0001-01-01T00:00:00Z (the zero [time.Time]), a [Z];
    - [map[string]T] is [gmap string T];
    - a pointer that may be nil is an [option];
    - a function that can panic or loop for ever returns an [outcome]. *)

From Stdlib Require Import ZArith List Ascii String Lia Bool Sorted.
From stdpp Require Import gmap strings list fin_maps.

Local Open Scope Z_scope.

(** ** Machine integers *)

Module Int64.

Definition modulus : Z := 2 ^ 64.
Definition half : Z := 2 ^ 63.

(** The value of a mathematical integer once stored in a Go [int]. *)
Definition wrap64 (z : Z) : Z := (z + half) mod modulus - half.

Definition add (x y : Z) : Z := wrap64 (x + y).
Definition sub (x y : Z) : Z := wrap64 (x - y).
Definition mul (x y : Z) : Z := wrap64 (x * y).

Definition in_range (z : Z) : Prop := - half <= z < half.

End Int64.

(** ** Bytes *)

Definition byteZ (b : ascii) : Z := Z.of_N (N_of_ascii b).

Definition bytes (s : string) : list ascii := list_ascii_of_string s.
Definition gostring (l : list ascii) : string := string_of_list_ascii l.

Definition len {A} (l : list A) : Z := Z.of_nat (length l).

(** ** Regular expressions

    The subset of Go's [regexp] syntax that parser.go uses, with a
    backtracking matcher that prefers the leftmost match and, among the
    matches starting there, the first one in the order Go's
    leftmost-first semantics explores them.  All classes of the grammars
    other than [.] are ASCII, so matching bytes and matching runes
    coincide. *)

Module Rx.

Inductive regex : Type :=
| Eps
| Class (p : ascii -> bool)
| Seq (r1 r2 : regex)
| Alt (r1 r2 : regex)
| Star (greedy : bool) (r : regex)
| Group (i : nat) (r : regex)
| BeginText
| EndText.

(** The text of each capture group, by group number; a group that did
    not take part in the match holds the empty text, as the nil slice of
    [FindSubmatch] does under [len], [string] and [atoi]. *)
Definition caps := list (list ascii).

Fixpoint set_cap (i : nat) (w : list ascii) (c : caps) : caps :=
  match i, c with
  | O, [] => [w]
  | O, _ :: c' => w :: c'
  | S i', [] => [] :: set_cap i' w []
  | S i', x :: c' => x :: set_cap i' w c'
  end.

Definition get_cap (c : caps) (i : nat) : list ascii := nth i c [].

(** The loop of [r*] and [r*?]: at most [fuel] more rounds of [step],
    each of which has to consume something; the greedy star tries one
    more round before it goes on with [k], the lazy one after. *)
Fixpoint star_loop (greedy : bool)
    (step : nat -> list ascii -> caps ->
            (nat -> list ascii -> caps -> option caps) -> option caps)
    (k : nat -> list ascii -> caps -> option caps)
    (fuel : nat) (pos : nat) (s : list ascii) (c : caps) : option caps :=
  match fuel with
  | O => k pos s c
  | S fuel' =>
      let more :=
        step pos s c
          (fun pos' s' c' =>
             if (pos <? pos')%nat then star_loop greedy step k fuel' pos' s' c'
             else None) in
      if greedy then
        match more with
        | Some x => Some x
        | None => k pos s c
        end
      else
        match k pos s c with
        | Some x => Some x
        | None => more
        end
  end.

Fixpoint rmatch (r : regex) (pos : nat) (s : list ascii) (c : caps)
    (k : nat -> list ascii -> caps -> option caps) {struct r} : option caps :=
  match r with
  | Eps => k pos s c
  | Class p =>
      match s with
      | a :: s' => if p a then k (S pos) s' c else None
      | [] => None
      end
  | Seq r1 r2 =>
      rmatch r1 pos s c (fun pos' s' c' => rmatch r2 pos' s' c' k)
  | Alt r1 r2 =>
      match rmatch r1 pos s c k with
      | Some x => Some x
      | None => rmatch r2 pos s c k
      end
  | Star greedy r1 => star_loop greedy (rmatch r1) k (length s) pos s c
  | Group i r1 =>
      rmatch r1 pos s c
        (fun pos' s' c' => k pos' s' (set_cap i (take (pos' - pos) s) c'))
  | BeginText => if (pos =? 0)%nat then k pos s c else None
  | EndText =>
      match s with
      | [] => k pos s c
      | _ :: _ => None
      end
  end.

(** [FindSubmatch]: the leftmost match; group 0 is the whole match. *)
Fixpoint find_from (r : regex) (pos : nat) (s : list ascii) : option caps :=
  match rmatch (Group 0 r) pos s [] (fun _ _ c => Some c) with
  | Some c => Some c
  | None =>
      match s with
      | [] => None
      | _ :: s' => find_from r (S pos) s'
      end
  end.

Definition find (r : regex) (s : list ascii) : option caps := find_from r 0 s.

(** *** Syntax used by the grammars *)

Definition chr (a : ascii) : regex := Class (fun b => bool_decide (b = a)).

Definition range (lo hi : ascii) (b : ascii) : bool :=
  (byteZ lo <=? byteZ b) && (byteZ b <=? byteZ hi).

Definition one_of (s : string) (b : ascii) : bool :=
  bool_decide (b ∈ bytes s).

Definition either (p q : ascii -> bool) (b : ascii) : bool := p b || q b.

(** [\d] *)
Definition digit : regex := Class (range "0" "9").
(** [[A-Z]] *)
Definition upper : regex := Class (range "A" "Z").
(** [[0-9A-Z]] *)
Definition alnum : regex := Class (either (range "0" "9") (range "A" "Z")).
(** [[0-9\-]] *)
Definition digit_or_minus : regex := Class (either (range "0" "9") (one_of "-")).
(** [.], which does not match a line feed *)
Definition dot : regex := Class (fun b => negb (bool_decide (b = "010"%char))).

Fixpoint lit_bytes (l : list ascii) : regex :=
  match l with
  | [] => Eps
  | [a] => chr a
  | a :: l' => Seq (chr a) (lit_bytes l')
  end.

Definition lit (s : string) : regex := lit_bytes (bytes s).

(** [r{n}] *)
Fixpoint rep (n : nat) (r : regex) : regex :=
  match n with
  | O => Eps
  | S O => r
  | S n' => Seq r (rep n' r)
  end.

(** [r?] *)
Definition opt (r : regex) : regex := Alt r Eps.

Fixpoint seqs (l : list regex) : regex :=
  match l with
  | [] => Eps
  | [r] => r
  | r :: l' => Seq r (seqs l')
  end.

End Rx.

(** ** The grammars of parser.go *)

(** Each grammar is preceded by its source text; there a blank is put
    between a star and a closing parenthesis. *)

Module Grammar.
Import Rx.

Definition hex (n : N) : ascii := ascii_of_N n.

(** The characters that [invalidCharsRx] does not report:
    [\x20\x22-\x23\x25-\x29\x2b-\x5b\x5d\x5f-\x7d]. *)
Definition allowed_char (b : ascii) : bool :=
  bool_decide (b = hex 0x20)
  || range (hex 0x22) (hex 0x23) b
  || range (hex 0x25) (hex 0x29) b
  || range (hex 0x2b) (hex 0x5b) b
  || bool_decide (b = hex 0x5d)
  || range (hex 0x5f) (hex 0x7d) b.

Definition invalidCharsRx : regex :=
  Group 1 (Class (fun b => negb (allowed_char b))).

(** [\AA([A-Z]{3})(.* )\z] *)
Definition aRecordRx : regex :=
  seqs [BeginText; lit "A"; Group 1 (rep 3 upper); Group 2 (Star true dot);
        EndText].

(** [\AB(\d{2})(\d{2})(\d{2})(\d{2})(\d{5})([NS])(\d{3})(\d{5})([EW])([AV])([0-9\-]\d{4})([0-9\-]\d{4})(.* )\z] *)
Definition bRecordRx : regex :=
  seqs [BeginText; lit "B";
        Group 1 (rep 2 digit); Group 2 (rep 2 digit); Group 3 (rep 2 digit);
        Group 4 (rep 2 digit); Group 5 (rep 5 digit);
        Group 6 (Class (one_of "NS"));
        Group 7 (rep 3 digit); Group 8 (rep 5 digit);
        Group 9 (Class (one_of "EW"));
        Group 10 (Class (one_of "AV"));
        Group 11 (Seq digit_or_minus (rep 4 digit));
        Group 12 (Seq digit_or_minus (rep 4 digit));
        Group 13 (Star true dot);
        EndText].

(** [\AC(\d{2})(\d{2})(\d{2})(\d{2})(\d{2})(\d{2})(\d{2})(\d{2})(\d{2})(\d{4})([0-9\-]\d)(.* )\z] *)
Definition cRecordDeclarationRx : regex :=
  seqs [BeginText; lit "C";
        Group 1 (rep 2 digit); Group 2 (rep 2 digit); Group 3 (rep 2 digit);
        Group 4 (rep 2 digit); Group 5 (rep 2 digit); Group 6 (rep 2 digit);
        Group 7 (rep 2 digit); Group 8 (rep 2 digit); Group 9 (rep 2 digit);
        Group 10 (rep 4 digit);
        Group 11 (Seq digit_or_minus digit);
        Group 12 (Star true dot);
        EndText].

(** [\AC(\d{2})(\d{5})([NS])(\d{3})(\d{5})([EW])(.* )\z] *)
Definition cRecordWaypointRx : regex :=
  seqs [BeginText; lit "C";
        Group 1 (rep 2 digit); Group 2 (rep 5 digit);
        Group 3 (Class (one_of "NS"));
        Group 4 (rep 3 digit); Group 5 (rep 5 digit);
        Group 6 (Class (one_of "EW"));
        Group 7 (Star true dot);
        EndText].

(** [\AD([12])(\d{4})\z] *)
Definition dRecordRx : regex :=
  seqs [BeginText; lit "D"; Group 1 (Class (one_of "12"));
        Group 2 (rep 4 digit); EndText].

(** [\AE(\d{2})(\d{2})(\d{2})([A-Z]{3})(.* )\z] *)
Definition eRecordRx : regex :=
  seqs [BeginText; lit "E";
        Group 1 (rep 2 digit); Group 2 (rep 2 digit); Group 3 (rep 2 digit);
        Group 4 (rep 3 upper); Group 5 (Star true dot); EndText].

(** [\AE(\d{2})(\d{2})(\d{2})(.* )\z] *)
Definition eRecordWithoutTLCRx : regex :=
  seqs [BeginText; lit "E";
        Group 1 (rep 2 digit); Group 2 (rep 2 digit); Group 3 (rep 2 digit);
        Group 4 (Star true dot); EndText].

(** [\AF(\d{2})(\d{2})(\d{2})((?:\d{2})* )\z] *)
Definition fRecordRx : regex :=
  seqs [BeginText; lit "F";
        Group 1 (rep 2 digit); Group 2 (rep 2 digit); Group 3 (rep 2 digit);
        Group 4 (Star true (rep 2 digit)); EndText].

(** [\AH([FOP])([0-9A-Z]{3})(.*?)(?::(.* ))?\z] *)
Definition hRecordRx : regex :=
  seqs [BeginText; lit "H"; Group 1 (Class (one_of "FOP"));
        Group 2 (rep 3 alnum); Group 3 (Star false dot);
        opt (Seq (chr ":") (Group 4 (Star true dot)));
        EndText].

(** [\AH([A-Z])([0-9A-Z]{3})(.*?)(?::(.* ))?\z] *)
Definition hRecordWithInvalidSourceRx : regex :=
  seqs [BeginText; lit "H"; Group 1 upper;
        Group 2 (rep 3 alnum); Group 3 (Star false dot);
        opt (Seq (chr ":") (Group 4 (Star true dot)));
        EndText].

(** [\AHFDTE(\d{2})(\d{2})(\d{2})\z] *)
Definition hfdteRecordRx : regex :=
  seqs [BeginText; lit "HFDTE";
        Group 1 (rep 2 digit); Group 2 (rep 2 digit); Group 3 (rep 2 digit);
        EndText].

(** [(\d{2})(\d{2})(\d{2})(?:,(\d{2}))?\z] *)
Definition hfdteRecordValueRx : regex :=
  seqs [Group 1 (rep 2 digit); Group 2 (rep 2 digit); Group 3 (rep 2 digit);
        opt (Seq (chr ",") (Group 4 (rep 2 digit)));
        EndText].

(** [\AHFFXA(\d+)\z] *)
Definition hffxaRecordRx : regex :=
  seqs [BeginText; lit "HFFXA"; Group 1 (Seq digit (Star true digit));
        EndText].

(** [\AG(.* )\z] *)
Definition gRecordRx : regex :=
  seqs [BeginText; lit "G"; Group 1 (Star true dot); EndText].

(** [\A[IJM](\d{2})((?:\d{4}[A-Z]{3})* )\z] *)
Definition ijmRecordRx : regex :=
  seqs [BeginText; Class (one_of "IJM"); Group 1 (rep 2 digit);
        Group 2 (Star true (Seq (rep 4 digit) (rep 3 upper)));
        EndText].

(** [\A[KN](\d{2})(\d{2})(\d{2})(.* )\z] *)
Definition knRecordRx : regex :=
  seqs [BeginText; Class (one_of "KN");
        Group 1 (rep 2 digit); Group 2 (rep 2 digit); Group 3 (rep 2 digit);
        Group 4 (Star true dot); EndText].

(** [\AL([A-Z]{3})(.* )\z] *)
Definition lRecordRx : regex :=
  seqs [BeginText; lit "L"; Group 1 (rep 3 upper); Group 2 (Star true dot);
        EndText].

(** [\AL(.* )\z] *)
Definition lRecordWithoutTLCRx : regex :=
  seqs [BeginText; lit "L"; Group 1 (Star true dot); EndText].

End Grammar.

(** ** Outcomes

    A Go call returns, panics (an index or a slice out of range), or
    never returns. *)

Inductive outcome (A : Type) : Type :=
| Ret (a : A)
| Panic
| Diverge.

Arguments Ret {A} a.
Arguments Panic {A}.
Arguments Diverge {A}.

Definition obind {A B} (m : outcome A) (f : A -> outcome B) : outcome B :=
  match m with
  | Ret a => f a
  | Panic => Panic
  | Diverge => Diverge
  end.

Notation "'let*' x := m 'in' f" := (obind m (fun x => f))
  (at level 10, x pattern, m at level 200, f at level 200).

Definition returns {A} (m : outcome A) : Prop := exists a, m = Ret a.

(** [l[0]] on a byte slice: panics on the empty slice. *)
Definition index0 (l : list ascii) : outcome ascii :=
  match l with
  | a :: _ => Ret a
  | [] => Panic
  end.

(** [l[lo:hi]], for a slice whose capacity is its length. *)
Definition slice (l : list ascii) (lo hi : Z) : outcome (list ascii) :=
  if (0 <=? lo) && (lo <=? hi) && (hi <=? len l)
  then Ret (take (Z.to_nat (hi - lo)) (drop (Z.to_nat lo) l))
  else Panic.

(** ** time.Time and time.Duration (package time, in UTC) *)

Module Time.

Definition Nanosecond : Z := 1.
Definition Second : Z := 1000000000.
Definition Minute : Z := 60 * Second.
Definition Hour : Z := 60 * Minute.
Definition Day : Z := 24 * Hour.

(** The zero [time.Time], 0001-01-01T00:00:00Z. *)
Definition zero : Z := 0.
Definition IsZero (t : Z) : bool := t =? zero.
Definition Add (t d : Z) : Z := t + d.
Definition Before (t u : Z) : bool := t <? u.
(** [t.AddDate(0, 0, n)] in UTC. *)
Definition AddDays (t n : Z) : Z := t + n * Day.
(** [t.Nanosecond()], the offset within the second, in [0, 999999999]. *)
Definition NanosecondOf (t : Z) : Z := t mod Second.

Definition isLeap (year : Z) : bool :=
  (year mod 4 =? 0) && (negb (year mod 100 =? 0) || (year mod 400 =? 0)).

Definition daysBefore (m : Z) : Z :=
  nth (Z.to_nat m) [0; 31; 59; 90; 120; 151; 181; 212; 243; 273; 304; 334; 365] 0.

(** Days from 0001-01-01 to the first of January of [year]. *)
Definition daysSinceYear1 (year : Z) : Z :=
  let y := year - 1 in 365 * y + y / 4 - y / 100 + y / 400.

(** [time.Date(year, month, day, hour, min, sec, nsec, time.UTC)]: month
    overflows into the year, every other field into the next larger
    one. *)
Definition Date (year month day hour min sec nsec : Z) : Z :=
  let m := month - 1 in
  let year' := year + m / 12 in
  let m' := m mod 12 in
  let d := daysSinceYear1 year' + daysBefore m'
           + (if isLeap year' && (2 <=? m') then 1 else 0)
           + (day - 1) in
  (d * 86400 + hour * 3600 + min * 60 + sec) * Second + nsec.

End Time.

(** ** Errors (parser.go) *)

(** An addition to a B, K, or N record (igc.go). *)
Record RecordAddition : Type := mkRecordAddition {
  TLC : string;
  StartColumn : Z;
  FinishColumn : Z
}.

#[global] Instance RecordAddition_eq_dec : EqDecision RecordAddition.
Proof. solve_decision. Defined.

#[warnings="-register-all"] Inductive error : Type :=
| errNoDate
| atoiSyntaxError (num : string)
| invalidAdditionError (addition : RecordAddition) (message : string)
| invalidRecordError (b : ascii)
| missingAdditionError (addition : RecordAddition)
| unknownRecordTypeError (b : ascii)
| errorString (s : string)
| joinError (errs : list error).

(** [errors.Join]: nil when there is nothing to join. *)
Definition errors_Join (errs : list error) : option error :=
  match errs with
  | [] => None
  | _ :: _ => Some (joinError errs)
  end.

(** [unicode.IsPrint] on the Latin-1 range, where a byte converted to a
    rune lands: the graphic characters other than the no-break space and
    the soft hyphen. *)
Definition unicode_IsPrint (b : ascii) : bool :=
  let r := byteZ b in
  ((0x20 <=? r) && (r <=? 0x7e))
  || ((0xa1 <=? r) && (r <=? 0xff) && negb (r =? 0xad)).

(** [string(b)] for a byte [b]: the UTF-8 encoding of the rune [b]. *)
Definition string_of_byte_rune (b : ascii) : string :=
  let r := byteZ b in
  if r <? 0x80 then String b EmptyString
  else String (ascii_of_N (Z.to_N (Z.lor 0xc0 (Z.shiftr r 6))))
         (String (ascii_of_N (Z.to_N (Z.lor 0x80 (Z.land r 0x3f)))) EmptyString).

Definition hexdigit (upper : bool) (d : Z) : ascii :=
  if d <? 10 then ascii_of_N (Z.to_N (48 + d))
  else ascii_of_N (Z.to_N ((if upper then 55 else 87) + d)).

(** [%02X] and [%02x] of a byte. *)
Definition hex2 (upper : bool) (b : ascii) : string :=
  String (hexdigit upper (byteZ b / 16))
    (String (hexdigit upper (byteZ b mod 16)) EmptyString).

Definition dquote : ascii := "034"%char.

Definition invalidRecordError_Error (b : ascii) : string :=
  "invalid " +:+ string_of_byte_rune b +:+ " record".

Definition missingAdditionError_Error (a : RecordAddition) : string :=
  "missing " +:+ TLC a +:+ " addition".

Definition invalidAdditionError_Error (a : RecordAddition) (message : string)
  : string :=
  TLC a +:+ ": " +:+ message.

Definition unknownRecordTypeError_Error (b : ascii) : string :=
  if unicode_IsPrint b then string_of_byte_rune b +:+ ": unknown record type"
  else String dquote ("\x" +:+ hex2 true b +:+ String dquote ": unknown record type").

(** ** Records (igc.go)

    Every record type lives in a module of its name, so that the fields
    keep the names they have in Go.  [Valid] is the method of the pointer
    type, a nil pointer being [None]. *)

(** [float64(deg) + float64(min)/div], negated for the southern and the
    western hemisphere.  The floating-point division is not evaluated:
    a coordinate is kept as its integer operands. *)
Record Coord : Type := mkCoord {
  coordDeg : Z;
  coordMin : Z;
  coordMinDiv : Z;
  coordNegated : bool
}.

Definition ptrValid {A} (r : option A) : bool :=
  match r with Some _ => true | None => false end.

Module ARecord.
Record t : Type := mk {
  ManufacturerID : string;
  UniqueFlightRecorderID : string;
  AdditionalData : string
}.
Definition Valid (r : option t) : bool := ptrValid r.
End ARecord.

Module BRecord.
Record t : Type := mk {
  Time : Z;
  Lat : Coord;
  Lon : Coord;
  Validity : ascii;
  AltWGS84 : Z;
  AltBarometric : Z;
  Additions : option (gmap string Z)
}.
Definition Valid (r : option t) : bool := ptrValid r.
End BRecord.

Module CRecordDeclaration.
Record t : Type := mk {
  DeclarationTime : Z;
  FlightYear : Z;
  FlightMonth : Z;
  FlightDay : Z;
  TaskNumber : Z;
  NumberOfTurnpoints : Z;
  Text : string
}.
Definition Valid (r : option t) : bool := ptrValid r.
End CRecordDeclaration.

Module CRecordWaypoint.
Record t : Type := mk {
  Lat : Coord;
  Lon : Coord;
  Text : string
}.
Definition Valid (r : option t) : bool := ptrValid r.
End CRecordWaypoint.

Module DRecord.
Record t : Type := mk {
  GPSQualifier : ascii;
  DGPSStationID : Z
}.
Definition Valid (r : option t) : bool := ptrValid r.
End DRecord.

Module ERecord.
Record t : Type := mk {
  Time : Z;
  TLC : string;
  Text : string
}.
Definition Valid (r : option t) : bool := ptrValid r.
End ERecord.

Module ERecordWithoutTLC.
Record t : Type := mk {
  Time : Z;
  Text : string
}.
Definition Valid (r : option t) : bool := false.
End ERecordWithoutTLC.

Module FRecord.
Record t : Type := mk {
  Time : Z;
  SatelliteIDs : list Z
}.
Definition Valid (r : option t) : bool := ptrValid r.
End FRecord.

Module GRecord.
Record t : Type := mk {
  Text : string
}.
Definition Valid (r : option t) : bool := ptrValid r.
End GRecord.

Module HRecord.
Record t : Type := mk {
  Source : ascii;
  TLC : string;
  LongName : string;
  Value : string
}.
Definition Valid (r : option t) : bool := ptrValid r.
End HRecord.

Module HRecordWithInvalidSource.
Record t : Type := mk {
  Source : string;
  TLC : string;
  LongName : string;
  Value : string
}.
Definition Valid (r : option t) : bool := false.
End HRecordWithInvalidSource.

Module HFDTERecord.
Record t : Type := mk {
  HRecord : HRecord.t;
  Date : Z;
  FlightNumber : Z
}.
(** The method promoted from the embedded [HRecord], whose address is
    taken inside a non-nil [HFDTERecord]. *)
Definition Valid (r : option t) : outcome bool :=
  match r with
  | Some r => Ret (HRecord.Valid (Some (HRecord r)))
  | None => Panic
  end.
End HFDTERecord.

Module IRecord.
Record t : Type := mk { Additions : list RecordAddition }.
Definition Valid (r : option t) : bool := ptrValid r.
End IRecord.

Module JRecord.
Record t : Type := mk { Additions : list RecordAddition }.
Definition Valid (r : option t) : bool := ptrValid r.
End JRecord.

Module KRecord.
Record t : Type := mk {
  Time : Z;
  Additions : option (gmap string Z)
}.
Definition Valid (r : option t) : bool := ptrValid r.
End KRecord.

Module LRecord.
Record t : Type := mk {
  Input : string;
  Text : string
}.
Definition Valid (r : option t) : bool := ptrValid r.
End LRecord.

Module LRecordWithoutTLC.
Record t : Type := mk { Text : string }.
Definition Valid (r : option t) : bool := false.
End LRecordWithoutTLC.

Module MRecord.
Record t : Type := mk { Additions : list RecordAddition }.
Definition Valid (r : option t) : bool := ptrValid r.
End MRecord.

Module NRecord.
Record t : Type := mk {
  Time : Z;
  Additions : option (gmap string Z)
}.
Definition Valid (r : option t) : bool := ptrValid r.
End NRecord.

(** A [Record] is an interface value: nil, or a pointer of one of the
    record types, itself possibly nil. *)
Inductive Record : Type :=
| nilRecord
| ptrARecord (r : option ARecord.t)
| ptrBRecord (r : option BRecord.t)
| ptrCRecordDeclaration (r : option CRecordDeclaration.t)
| ptrCRecordWaypoint (r : option CRecordWaypoint.t)
| ptrDRecord (r : option DRecord.t)
| ptrERecord (r : option ERecord.t)
| ptrERecordWithoutTLC (r : option ERecordWithoutTLC.t)
| ptrFRecord (r : option FRecord.t)
| ptrGRecord (r : option GRecord.t)
| ptrHRecord (r : option HRecord.t)
| ptrHRecordWithInvalidSource (r : option HRecordWithInvalidSource.t)
| ptrHFDTERecord (r : option HFDTERecord.t)
| ptrIRecord (r : option IRecord.t)
| ptrJRecord (r : option JRecord.t)
| ptrKRecord (r : option KRecord.t)
| ptrLRecord (r : option LRecord.t)
| ptrLRecordWithoutTLC (r : option LRecordWithoutTLC.t)
| ptrMRecord (r : option MRecord.t)
| ptrNRecord (r : option NRecord.t).

(** [record.Valid()]; calling it on the nil interface panics. *)
Definition Valid (record : Record) : outcome bool :=
  match record with
  | nilRecord => Panic
  | ptrARecord r => Ret (ARecord.Valid r)
  | ptrBRecord r => Ret (BRecord.Valid r)
  | ptrCRecordDeclaration r => Ret (CRecordDeclaration.Valid r)
  | ptrCRecordWaypoint r => Ret (CRecordWaypoint.Valid r)
  | ptrDRecord r => Ret (DRecord.Valid r)
  | ptrERecord r => Ret (ERecord.Valid r)
  | ptrERecordWithoutTLC r => Ret (ERecordWithoutTLC.Valid r)
  | ptrFRecord r => Ret (FRecord.Valid r)
  | ptrGRecord r => Ret (GRecord.Valid r)
  | ptrHRecord r => Ret (HRecord.Valid r)
  | ptrHRecordWithInvalidSource r => Ret (HRecordWithInvalidSource.Valid r)
  | ptrHFDTERecord r => HFDTERecord.Valid r
  | ptrIRecord r => Ret (IRecord.Valid r)
  | ptrJRecord r => Ret (JRecord.Valid r)
  | ptrKRecord r => Ret (KRecord.Valid r)
  | ptrLRecord r => Ret (LRecord.Valid r)
  | ptrLRecordWithoutTLC r => Ret (LRecordWithoutTLC.Valid r)
  | ptrMRecord r => Ret (MRecord.Valid r)
  | ptrNRecord r => Ret (NRecord.Valid r)
  end.

(** Whether the interface value holds a non-nil pointer. *)
Definition holdsRecord (record : Record) : bool :=
  match record with
  | nilRecord => false
  | ptrARecord r => ptrValid r
  | ptrBRecord r => ptrValid r
  | ptrCRecordDeclaration r => ptrValid r
  | ptrCRecordWaypoint r => ptrValid r
  | ptrDRecord r => ptrValid r
  | ptrERecord r => ptrValid r
  | ptrERecordWithoutTLC r => ptrValid r
  | ptrFRecord r => ptrValid r
  | ptrGRecord r => ptrValid r
  | ptrHRecord r => ptrValid r
  | ptrHRecordWithInvalidSource r => ptrValid r
  | ptrHFDTERecord r => ptrValid r
  | ptrIRecord r => ptrValid r
  | ptrJRecord r => ptrValid r
  | ptrKRecord r => ptrValid r
  | ptrLRecord r => ptrValid r
  | ptrLRecordWithoutTLC r => ptrValid r
  | ptrMRecord r => ptrValid r
  | ptrNRecord r => ptrValid r
  end.

(** An error at a line. *)
Record Error : Type := mkError {
  Line : Z;
  Err : error
}.

(** A parsed IGC file. *)
Record IGC : Type := mkIGC {
  Records : list Record;
  BRecords : list BRecord.t;
  HRecordsByTLC : gmap string HRecord.t;
  KRecords : list KRecord.t;
  Errs : list Error
}.

(** ** The manufacturer registry (manufacturers.go) *)

Record Manufacturer : Type := mkManufacturer {
  Name : string;
  ManufacturerTLC : string;
  SCC : option ascii
}.

Definition ApprovedManufacturers : list Manufacturer :=
  [ mkManufacturer "Aircotec" "ACT" (Some "I"%char);
    mkManufacturer "Avionix" "AVX" None;
    mkManufacturer "Cambridge Aero Instruments" "CAM" (Some "C"%char);
    mkManufacturer "ClearNav Instruments" "CNI" None;
    mkManufacturer "Data Swan/DSX" "DSX" (Some "D"%char);
    mkManufacturer "EW Avionics" "EWA" (Some "E"%char);
    mkManufacturer "Filser" "FIL" (Some "F"%char);
    mkManufacturer "Flarm (Flight Alarm)" "FLA" (Some "G"%char);
    mkManufacturer "Flytech" "FLY" None;
    mkManufacturer "Garrecht" "GCS" (Some "A"%char);
    mkManufacturer "IMI Gliding Equipment" "IMI" (Some "M"%char);
    mkManufacturer "Logstream" "LGS" None;
    mkManufacturer "LX Navigation" "LXN" (Some "L"%char);
    mkManufacturer "LXNAV d.o.o." "LXV" (Some "V"%char);
    mkManufacturer "Naviter" "NAV" None;
    mkManufacturer "New Technologies s.r.l." "NTE" (Some "N"%char);
    mkManufacturer "Nielsen Kellerman" "NKL" (Some "K"%char);
    mkManufacturer "Peschges" "PES" (Some "P"%char);
    mkManufacturer "PressFinish Electronics" "PFE" None;
    mkManufacturer "Print Technik" "PRT" (Some "R"%char);
    mkManufacturer "RC Electronics" "RCE" None;
    mkManufacturer "Scheffel" "SCH" (Some "H"%char);
    mkManufacturer "Streamline Data Instruments" "SDI" (Some "S"%char);
    mkManufacturer "Triadis Engineering GmbH" "TRI" (Some "T"%char);
    mkManufacturer "Zander" "ZAN" (Some "Z"%char) ].

Definition ApprovedManufacturersByTLC : gmap string Manufacturer :=
  foldl (fun m manufacturer => <[ManufacturerTLC manufacturer := manufacturer]> m)
    ∅ ApprovedManufacturers.

(** ** Helpers of parser.go *)

Fixpoint atoi_digits (digits : list ascii) (result : Z) : option Z :=
  match digits with
  | [] => Some result
  | b :: digits' =>
      if (byteZ b <? byteZ "0") || (byteZ "9" <? byteZ b) then None
      else atoi_digits digits'
             (Int64.sub (Int64.add (Int64.mul 10 result) (byteZ b)) (byteZ "0"))
  end.

Definition atoi (data : list ascii) : Z * option error :=
  let '(sign, digits) :=
    match data with
    | b :: data' => if bool_decide (b = "-"%char) then (-1, data') else (1, data)
    | [] => (1, data)
    end in
  match digits with
  | [] => (0, Some (atoiSyntaxError (gostring data)))
  | _ :: _ =>
      match atoi_digits digits 0 with
      | None => (0, Some (atoiSyntaxError (gostring data)))
      | Some result => (Int64.mul result sign, None)
      end
  end.

(** [n, _ := atoi(data)] *)
Definition atoi_ (data : list ascii) : Z := fst (atoi data).

(** The loop of [intPow]; it runs until [y] is zero, [fuel] bounding the
    number of tests of its condition. *)
Fixpoint intPow_loop (fuel : nat) (x y result : Z) : option Z :=
  match fuel with
  | O => None
  | S fuel' =>
      if y =? 0 then Some result
      else
        let result' := if Z.land y 1 =? 1 then Int64.mul result x else result in
        intPow_loop fuel' (Int64.mul x x) (Z.shiftr y 1) result'
  end.

(** [intPow] returns x raised to the power of y.  A non-negative [int]
    is zero after at most 63 shifts, so 64 tests settle whether the
    loop ends; a negative one stays negative for ever. *)
Definition intPow (x y : Z) : outcome Z :=
  match intPow_loop 64 x y 1 with
  | Some result => Ret result
  | None => Diverge
  end.

(** [makeYear] converts a two-digit year to a four-digit year. *)
Definition makeYear (twoDigitYear : Z) : Z :=
  if 93 <=? twoDigitYear then 1900 + twoDigitYear else 2000 + twoDigitYear.

(** [bytes.Cut] with a separator of one byte. *)
Fixpoint bytes_Cut (s : list ascii) (sep : ascii)
  : list ascii * list ascii * bool :=
  match s with
  | [] => ([], [], false)
  | b :: s' =>
      if bool_decide (b = sep) then ([], s', true)
      else
        let '(before, after, found) := bytes_Cut s' sep in
        if found then (b :: before, after, true) else (s, [], false)
  end.

(** ** The parser state *)

Record parser : Type := mkParser {
  allowInvalidChars : bool;
  date : Z;
  prevTime : Z;
  cRecords : list Record;
  bRecordAdditions : list RecordAddition;
  bRecordsAdditionsByTLC : gmap string RecordAddition;
  ladBRecordAddition : option RecordAddition;
  latMinMul : Z;
  latMinDiv : Z;
  lodBRecordAddition : option RecordAddition;
  lonMinMul : Z;
  lonMinDiv : Z;
  tdsBRecordAddition : option RecordAddition;
  fracSecondMul : Z;
  kRecordAdditions : list RecordAddition;
  nRecordAdditions : list RecordAddition
}.

Definition ParseOption : Type := parser -> parser.

Definition set_allowInvalidChars (v : bool) (p : parser) : parser :=
  mkParser v (date p) (prevTime p) (cRecords p) (bRecordAdditions p)
    (bRecordsAdditionsByTLC p) (ladBRecordAddition p) (latMinMul p) (latMinDiv p)
    (lodBRecordAddition p) (lonMinMul p) (lonMinDiv p) (tdsBRecordAddition p)
    (fracSecondMul p) (kRecordAdditions p) (nRecordAdditions p).

Definition set_date (v : Z) (p : parser) : parser :=
  mkParser (allowInvalidChars p) v (prevTime p) (cRecords p) (bRecordAdditions p)
    (bRecordsAdditionsByTLC p) (ladBRecordAddition p) (latMinMul p) (latMinDiv p)
    (lodBRecordAddition p) (lonMinMul p) (lonMinDiv p) (tdsBRecordAddition p)
    (fracSecondMul p) (kRecordAdditions p) (nRecordAdditions p).

Definition set_prevTime (v : Z) (p : parser) : parser :=
  mkParser (allowInvalidChars p) (date p) v (cRecords p) (bRecordAdditions p)
    (bRecordsAdditionsByTLC p) (ladBRecordAddition p) (latMinMul p) (latMinDiv p)
    (lodBRecordAddition p) (lonMinMul p) (lonMinDiv p) (tdsBRecordAddition p)
    (fracSecondMul p) (kRecordAdditions p) (nRecordAdditions p).

Definition set_bRecordAdditions (v : list RecordAddition)
    (m : gmap string RecordAddition) (p : parser) : parser :=
  mkParser (allowInvalidChars p) (date p) (prevTime p) (cRecords p) v
    m (ladBRecordAddition p) (latMinMul p) (latMinDiv p)
    (lodBRecordAddition p) (lonMinMul p) (lonMinDiv p) (tdsBRecordAddition p)
    (fracSecondMul p) (kRecordAdditions p) (nRecordAdditions p).

Definition set_lad (a : RecordAddition) (mul div : Z) (p : parser) : parser :=
  mkParser (allowInvalidChars p) (date p) (prevTime p) (cRecords p)
    (bRecordAdditions p) (bRecordsAdditionsByTLC p) (Some a) mul div
    (lodBRecordAddition p) (lonMinMul p) (lonMinDiv p) (tdsBRecordAddition p)
    (fracSecondMul p) (kRecordAdditions p) (nRecordAdditions p).

Definition set_lod (a : RecordAddition) (mul div : Z) (p : parser) : parser :=
  mkParser (allowInvalidChars p) (date p) (prevTime p) (cRecords p)
    (bRecordAdditions p) (bRecordsAdditionsByTLC p) (ladBRecordAddition p)
    (latMinMul p) (latMinDiv p) (Some a) mul div (tdsBRecordAddition p)
    (fracSecondMul p) (kRecordAdditions p) (nRecordAdditions p).

Definition set_tds (a : RecordAddition) (mul : Z) (p : parser) : parser :=
  mkParser (allowInvalidChars p) (date p) (prevTime p) (cRecords p)
    (bRecordAdditions p) (bRecordsAdditionsByTLC p) (ladBRecordAddition p)
    (latMinMul p) (latMinDiv p) (lodBRecordAddition p) (lonMinMul p) (lonMinDiv p)
    (Some a) mul (kRecordAdditions p) (nRecordAdditions p).

Definition set_kRecordAdditions (v : list RecordAddition) (p : parser) : parser :=
  mkParser (allowInvalidChars p) (date p) (prevTime p) (cRecords p)
    (bRecordAdditions p) (bRecordsAdditionsByTLC p) (ladBRecordAddition p)
    (latMinMul p) (latMinDiv p) (lodBRecordAddition p) (lonMinMul p) (lonMinDiv p)
    (tdsBRecordAddition p) (fracSecondMul p) v (nRecordAdditions p).

Definition set_nRecordAdditions (v : list RecordAddition) (p : parser) : parser :=
  mkParser (allowInvalidChars p) (date p) (prevTime p) (cRecords p)
    (bRecordAdditions p) (bRecordsAdditionsByTLC p) (ladBRecordAddition p)
    (latMinMul p) (latMinDiv p) (lodBRecordAddition p) (lonMinMul p) (lonMinDiv p)
    (tdsBRecordAddition p) (fracSecondMul p) (kRecordAdditions p) v.

Definition WithAllowInvalidChars (allowInvalidChars : bool) : ParseOption :=
  set_allowInvalidChars allowInvalidChars.

Definition newParser (options : list ParseOption) : parser :=
  let p := {|
    allowInvalidChars := false;
    date := Time.zero;
    prevTime := Time.zero;
    cRecords := [];
    bRecordAdditions := [];
    bRecordsAdditionsByTLC := ∅;
    ladBRecordAddition := None;
    latMinMul := 1;
    latMinDiv := 60000;
    lodBRecordAddition := None;
    lonMinMul := 1;
    lonMinDiv := 60000;
    tdsBRecordAddition := None;
    fracSecondMul := 1000000000;
    kRecordAdditions := [];
    nRecordAdditions := []
  |} in
  foldl (fun p o => o p) p options.

(** ** Timestamps and additions (parser.go) *)

(** The loop of [parseTime]: [fuel] bounds the number of candidates it
    tries.  It yields the accepted timestamp and the date it stopped
    at. *)
Fixpoint parseTime_loop (fuel : nat) (date durationSinceMidnight prevTime : Z)
  : option (Z * Z) :=
  match fuel with
  | O => None
  | S fuel' =>
      let t := Time.Add date durationSinceMidnight in
      if negb (Time.Before t prevTime) then Some (t, date)
      else parseTime_loop fuel' (Time.AddDays date 1) durationSinceMidnight prevTime
  end.

(** A number of candidates that is always enough: one more than the
    whole days between the first candidate and the watermark, and one. *)
Definition parseTime_fuel (date durationSinceMidnight prevTime : Z) : nat :=
  S (S (Z.to_nat ((prevTime - (date + durationSinceMidnight)) / Time.Day))).

(** [time.Duration(hour)*time.Hour + time.Duration(minute)*time.Minute +
    time.Duration(second)*time.Second + time.Duration(nanosecond)*time.Nanosecond] *)
Definition timeOfDay (hour minute second nanosecond : Z) : Z :=
  Int64.add (Int64.add (Int64.add (Int64.mul hour Time.Hour)
                                  (Int64.mul minute Time.Minute))
                       (Int64.mul second Time.Second))
            (Int64.mul nanosecond Time.Nanosecond).

Definition parseTime (p : parser) (hourData minuteData secondData : list ascii)
    (nanosecond : Z) (errs : list error) : outcome (Z * list error * parser) :=
  if Time.IsZero (date p) then Ret (Time.zero, errs ++ [errNoDate], p)
  else
    let hour := atoi_ hourData in
    let minute := atoi_ minuteData in
    let second := atoi_ secondData in
    let durationSinceMidnight := timeOfDay hour minute second nanosecond in
    match parseTime_loop
            (parseTime_fuel (date p) durationSinceMidnight (prevTime p))
            (date p) durationSinceMidnight (prevTime p) with
    | Some (t, date') => Ret (t, errs, set_prevTime t (set_date date' p))
    | None => Diverge
    end.

Definition bytesValue (a : RecordAddition) (line : list ascii) (errs : list error)
  : outcome (list ascii * list error * bool) :=
  if len line <? FinishColumn a then
    Ret ([], errs ++ [missingAdditionError a], false)
  else
    let* data := slice line (Int64.sub (StartColumn a) 1) (FinishColumn a) in
    Ret (data, errs, true).

Definition intValue (a : RecordAddition) (line : list ascii) (errs : list error)
  : outcome (Z * list error * bool) :=
  let* (data, errs, ok) := bytesValue a line errs in
  if negb ok then Ret (0, errs, false)
  else
    match atoi data with
    | (_, Some err) => Ret (0, errs ++ [err], false)
    | (result, None) => Ret (result, errs, true)
    end.

(** The loop [for _, addition := range additions] that parseBRecord,
    parseKRecord and parseNRecord each run over their addition table,
    filling the record's [Additions] map. *)
Fixpoint decodeAdditions (additions : list RecordAddition) (line : list ascii)
    (values : gmap string Z) (errs : list error)
  : outcome (gmap string Z * list error) :=
  match additions with
  | [] => Ret (values, errs)
  | addition :: additions' =>
      let* (value, errs, ok) := intValue addition line errs in
      decodeAdditions additions' line
        (if ok then <[TLC addition := value]> values else values) errs
  end.

(** [if len(additions) > 0 { ... }] around that loop. *)
Definition decodeAdditionTable (additions : list RecordAddition)
    (line : list ascii) (errs : list error)
  : outcome (option (gmap string Z) * list error) :=
  if 0 <? len additions then
    let* (values, errs) := decodeAdditions additions line ∅ errs in
    Ret (Some values, errs)
  else Ret (None, errs).

(** ** Record grammars (parser.go) *)

Import Rx Grammar.

Definition parseARecord (p : parser) (line : list ascii)
  : outcome (option ARecord.t * option error) :=
  match find aRecordRx line with
  | None => Ret (None, Some (invalidRecordError "A"))
  | Some m =>
      let ManufacturerID := gostring (get_cap m 1) in
      match ApprovedManufacturersByTLC !! ManufacturerID with
      | Some _ =>
          let '(uniqueFlightRecorderID, additionalData, _) :=
            bytes_Cut (get_cap m 2) "-" in
          Ret (Some (ARecord.mk ManufacturerID (gostring uniqueFlightRecorderID)
                       (gostring additionalData)), None)
      | None =>
          Ret (Some (ARecord.mk ManufacturerID (gostring (get_cap m 2)) ""), None)
      end
  end.

(** An addition decoded for its own sake before the table is walked:
    [TDS], [LAD] or [LOD].  [apply] combines the decoded value with the
    base value. *)
Definition specialAddition (a : option RecordAddition) (line : list ascii)
    (errs : list error) (base : Z) (apply : Z -> Z)
  : outcome (Z * list error) :=
  match a with
  | None => Ret (base, errs)
  | Some a =>
      let* (value, errs, ok) := intValue a line errs in
      Ret (if ok then apply value else base, errs)
  end.

Definition parseBRecord (p : parser) (line : list ascii)
  : outcome (option BRecord.t * option error * parser) :=
  let errs := [] in
  match find bRecordRx line with
  | None => Ret (None, Some (invalidRecordError "B"), p)
  | Some m =>
      let* (nanosecond, errs) :=
        specialAddition (tdsBRecordAddition p) line errs 0
          (fun fractionalSecond => Int64.mul (fracSecondMul p) fractionalSecond) in
      let* (time, errs, p) :=
        parseTime p (get_cap m 1) (get_cap m 2) (get_cap m 3) nanosecond errs in
      let latDeg := atoi_ (get_cap m 4) in
      let latMin := atoi_ (get_cap m 5) in
      let* (latMin, errs) :=
        specialAddition (ladBRecordAddition p) line errs latMin
          (fun lad => Int64.add (Int64.mul (latMinMul p) latMin) lad) in
      let* ns := index0 (get_cap m 6) in
      let Lat := mkCoord latDeg latMin (latMinDiv p) (bool_decide (ns = "S"%char)) in
      let lonDeg := atoi_ (get_cap m 7) in
      let lonMin := atoi_ (get_cap m 8) in
      let* (lonMin, errs) :=
        specialAddition (lodBRecordAddition p) line errs lonMin
          (fun lod => Int64.add (Int64.mul (lonMinMul p) lonMin) lod) in
      let* ew := index0 (get_cap m 9) in
      let Lon := mkCoord lonDeg lonMin (lonMinDiv p) (bool_decide (ew = "W"%char)) in
      let* validity := index0 (get_cap m 10) in
      let altBarometric := atoi_ (get_cap m 11) in
      let altWGS84 := atoi_ (get_cap m 12) in
      let* (additions, errs) :=
        decodeAdditionTable (bRecordAdditions p) line errs in
      Ret (Some (BRecord.mk time Lat Lon validity altWGS84 altBarometric additions),
           errors_Join errs, p)
  end.

Definition parseCRecordDeclaration (p : parser) (line : list ascii)
  : option CRecordDeclaration.t * option error :=
  match find cRecordDeclarationRx line with
  | None => (None, Some (invalidRecordError "C"))
  | Some m =>
      let declarationDay := atoi_ (get_cap m 1) in
      let declarationMonth := atoi_ (get_cap m 2) in
      let declarationTwoDigitYear := atoi_ (get_cap m 3) in
      let declarationHour := atoi_ (get_cap m 4) in
      let declarationMinute := atoi_ (get_cap m 5) in
      let declarationSecond := atoi_ (get_cap m 6) in
      let DeclarationTime :=
        Time.Date (makeYear declarationTwoDigitYear) declarationMonth declarationDay
          declarationHour declarationMinute declarationSecond 0 in
      (Some {| CRecordDeclaration.DeclarationTime := DeclarationTime;
               CRecordDeclaration.FlightDay := atoi_ (get_cap m 7);
               CRecordDeclaration.FlightMonth := atoi_ (get_cap m 8);
               CRecordDeclaration.FlightYear := atoi_ (get_cap m 9);
               CRecordDeclaration.TaskNumber := atoi_ (get_cap m 10);
               CRecordDeclaration.NumberOfTurnpoints := atoi_ (get_cap m 11);
               CRecordDeclaration.Text := gostring (get_cap m 12) |}, None)
  end.

(** The waypoint shape of [parseCRecord], its second half. *)
Definition parseCRecordWaypoint (line : list ascii)
  : outcome (Record * option error) :=
  match find cRecordWaypointRx line with
  | None => Ret (nilRecord, Some (invalidRecordError "C"))
  | Some m =>
      let latDeg := atoi_ (get_cap m 1) in
      let latMin := atoi_ (get_cap m 2) in
      let* ns := index0 (get_cap m 3) in
      let Lat := mkCoord latDeg latMin 60000 (bool_decide (ns = "S"%char)) in
      let lonDeg := atoi_ (get_cap m 4) in
      let lonMin := atoi_ (get_cap m 5) in
      let* ew := index0 (get_cap m 6) in
      let Lon := mkCoord lonDeg lonMin 60000 (bool_decide (ew = "W"%char)) in
      Ret (ptrCRecordWaypoint
             (Some (CRecordWaypoint.mk Lat Lon (gostring (get_cap m 7)))), None)
  end.

Definition parseCRecord (p : parser) (line : list ascii)
  : outcome (Record * option error) :=
  let declaration :=
    if len (cRecords p) =? 0 then
      match parseCRecordDeclaration p line with
      | (cRecordDeclaration, None) => Some cRecordDeclaration
      | (_, Some _) => None
      end
    else None in
  match declaration with
  | Some cRecordDeclaration => Ret (ptrCRecordDeclaration cRecordDeclaration, None)
  | None => parseCRecordWaypoint line
  end.

Definition parseDRecord (p : parser) (line : list ascii)
  : outcome (option DRecord.t * option error) :=
  match find dRecordRx line with
  | None => Ret (None, Some (invalidRecordError "D"))
  | Some m =>
      let* GPSQualifier := index0 (get_cap m 1) in
      Ret (Some (DRecord.mk GPSQualifier (atoi_ (get_cap m 2))), None)
  end.

Definition parseERecord (p : parser) (line : list ascii)
  : outcome (Record * option error * parser) :=
  let errs := [] in
  match find eRecordRx line with
  | None =>
      match find eRecordWithoutTLCRx line with
      | Some m =>
          let* (time, errs, p) :=
            parseTime p (get_cap m 1) (get_cap m 2) (get_cap m 3) 0 errs in
          Ret (ptrERecordWithoutTLC
                 (Some (ERecordWithoutTLC.mk time (gostring (get_cap m 4)))),
               errors_Join errs, p)
      | None => Ret (nilRecord, Some (invalidRecordError "E"), p)
      end
  | Some m =>
      let* (time, errs, p) :=
        parseTime p (get_cap m 1) (get_cap m 2) (get_cap m 3) 0 errs in
      Ret (ptrERecord
             (Some (ERecord.mk time (gostring (get_cap m 4)) (gostring (get_cap m 5)))),
           errors_Join errs, p)
  end.

(** The loop [for i := range n] of [parseFRecord]. *)
Fixpoint satelliteIDs_loop (count : nat) (i : Z) (m4 : list ascii)
    (satelliteIDs : list Z) : outcome (list Z) :=
  match count with
  | O => Ret satelliteIDs
  | S count' =>
      let* data := slice m4 (2 * i) (2 * i + 2) in
      satelliteIDs_loop count' (i + 1) m4 (satelliteIDs ++ [atoi_ data])
  end.

Definition parseFRecord (p : parser) (line : list ascii)
  : outcome (option FRecord.t * option error * parser) :=
  match find fRecordRx line with
  | None => Ret (None, Some (invalidRecordError "F"), p)
  | Some m =>
      let errs := [] in
      let* (time, errs, p) :=
        parseTime p (get_cap m 1) (get_cap m 2) (get_cap m 3) 0 errs in
      let n := len (get_cap m 4) / 2 in
      let* satelliteIDs := satelliteIDs_loop (Z.to_nat n) 0 (get_cap m 4) [] in
      Ret (Some (FRecord.mk time satelliteIDs), errors_Join errs, p)
  end.

Definition parseGRecord (p : parser) (line : list ascii)
  : outcome (option GRecord.t * option error) :=
  match find gRecordRx line with
  | None => Ret (None, Some (invalidRecordError "G"))
  | Some m => Ret (Some (GRecord.mk (gostring (get_cap m 1))), None)
  end.

(** The date of an HFDTE record, from its three two-digit fields. *)
Definition hfdteDate (dayData monthData yearData : list ascii) : Z :=
  let day := atoi_ dayData in
  let month := atoi_ monthData in
  let twoDigitYear := atoi_ yearData in
  let year := makeYear twoDigitYear in
  Time.Date year month day 0 0 0 0.

Definition parseHRecord (p : parser) (line : list ascii)
  : outcome (Record * option error) :=
  match find hfdteRecordRx line with
  | Some m =>
      let hRecord :=
        HRecord.mk "F" "DTE" ""
          (gostring (get_cap m 1 ++ get_cap m 2 ++ get_cap m 3)) in
      Ret (ptrHFDTERecord
             (Some (HFDTERecord.mk hRecord
                      (hfdteDate (get_cap m 1) (get_cap m 2) (get_cap m 3)) 0)),
           None)
  | None =>
  match find hffxaRecordRx line with
  | Some m =>
      Ret (ptrHRecord (Some (HRecord.mk "F" "FXA" "" (gostring (get_cap m 1)))), None)
  | None =>
  match find hRecordRx line with
  | None =>
      match find hRecordWithInvalidSourceRx line with
      | Some m =>
          let* source := index0 (get_cap m 1) in
          Ret (ptrHRecordWithInvalidSource
                 (Some (HRecordWithInvalidSource.mk (string_of_byte_rune source)
                          (gostring (get_cap m 2)) (gostring (get_cap m 3))
                          (gostring (get_cap m 4)))), None)
      | None => Ret (nilRecord, Some (invalidRecordError "H"))
      end
  | Some m =>
      let* source := index0 (get_cap m 1) in
      let hRecord :=
        HRecord.mk source (gostring (get_cap m 2)) (gostring (get_cap m 3))
          (gostring (get_cap m 4)) in
      if bool_decide (HRecord.TLC hRecord = "DTE") then
        match find hfdteRecordValueRx (get_cap m 4) with
        | None => Ret (ptrHRecord (Some hRecord), Some (invalidRecordError "H"))
        | Some m =>
            let FlightNumber :=
              if negb (len (get_cap m 4) =? 0) then atoi_ (get_cap m 4) else 0 in
            Ret (ptrHFDTERecord
                   (Some (HFDTERecord.mk hRecord
                            (hfdteDate (get_cap m 1) (get_cap m 2) (get_cap m 3))
                            FlightNumber)), None)
        end
      else Ret (ptrHRecord (Some hRecord), None)
  end end end.

(** The loop [for i := range n] of [parseRecordAdditions]: [count]
    triples are left, the next one being the [i]-th. *)
Fixpoint parseRecordAdditions_loop (count : nat) (i : Z) (m2 : list ascii)
    (startColumn : Z) (additions : list RecordAddition) (errs : list error)
  : outcome (list RecordAddition * list error) :=
  match count with
  | O => Ret (additions, errs)
  | S count' =>
      let* startData := slice m2 (7 * i) (7 * i + 2) in
      let* finishData := slice m2 (7 * i + 2) (7 * i + 4) in
      let* tlcData := slice m2 (7 * i + 4) (7 * i + 7) in
      let addition :=
        {| StartColumn := atoi_ startData;
           FinishColumn := atoi_ finishData;
           TLC := gostring tlcData |} in
      let message : string :=
        if negb (StartColumn addition =? startColumn) then "invalid start column"
        else if FinishColumn addition <? StartColumn addition
             then "invalid finish column"
             else "" in
      if bool_decide (message = "") then
        parseRecordAdditions_loop count' (i + 1) m2
          (Int64.add (FinishColumn addition) 1) (additions ++ [addition]) errs
      else
        parseRecordAdditions_loop count' (i + 1) m2 startColumn additions
          (errs ++ [invalidAdditionError addition message])
  end.

Definition parseRecordAdditions (p : parser) (line : list ascii) (startColumn : Z)
  : outcome (list RecordAddition * option error) :=
  match find ijmRecordRx line with
  | None =>
      let* b := index0 line in
      Ret ([], Some (invalidRecordError b))
  | Some m =>
      let n := atoi_ (get_cap m 1) in
      if negb (len (get_cap m 2) =? Int64.mul 7 n) then
        let* b := index0 line in
        Ret ([], Some (invalidRecordError b))
      else
        let* (additions, errs) :=
          parseRecordAdditions_loop (Z.to_nat n) 0 (get_cap m 2) startColumn [] [] in
        Ret (additions, errors_Join errs)
  end.

Definition parseIRecord (p : parser) (line : list ascii)
  : outcome (option IRecord.t * option error) :=
  let* (additions, err) := parseRecordAdditions p line 36 in
  match err with
  | Some err => Ret (None, Some err)
  | None => Ret (Some (IRecord.mk additions), None)
  end.

Definition parseJRecord (p : parser) (line : list ascii)
  : outcome (option JRecord.t * option error) :=
  let* (additions, err) := parseRecordAdditions p line 8 in
  match err with
  | Some err => Ret (None, Some err)
  | None => Ret (Some (JRecord.mk additions), None)
  end.

Definition parseKRecord (p : parser) (line : list ascii)
  : outcome (option KRecord.t * option error * parser) :=
  match find knRecordRx line with
  | None => Ret (None, Some (invalidRecordError "K"), p)
  | Some m =>
      let errs := [] in
      let* (time, errs, p) :=
        parseTime p (get_cap m 1) (get_cap m 2) (get_cap m 3) 0 errs in
      let* (additions, errs) :=
        decodeAdditionTable (kRecordAdditions p) line errs in
      Ret (Some (KRecord.mk time additions), errors_Join errs, p)
  end.

Definition parseLRecord (p : parser) (line : list ascii)
  : outcome (Record * option error) :=
  match find lRecordRx line with
  | None =>
      match find lRecordWithoutTLCRx line with
      | Some m =>
          Ret (ptrLRecordWithoutTLC
                 (Some (LRecordWithoutTLC.mk (gostring (get_cap m 1)))), None)
      | None => Ret (nilRecord, Some (invalidRecordError "L"))
      end
  | Some m =>
      Ret (ptrLRecord
             (Some (LRecord.mk (gostring (get_cap m 1)) (gostring (get_cap m 2)))),
           None)
  end.

Definition parseMRecord (p : parser) (line : list ascii)
  : outcome (option MRecord.t * option error) :=
  let* (additions, err) := parseRecordAdditions p line 8 in
  match err with
  | Some err => Ret (None, Some err)
  | None => Ret (Some (MRecord.mk additions), None)
  end.

Definition parseNRecord (p : parser) (line : list ascii)
  : outcome (option NRecord.t * option error * parser) :=
  match find knRecordRx line with
  | None => Ret (None, Some (invalidRecordError "N"), p)
  | Some m =>
      let errs := [] in
      let* (time, errs, p) :=
        parseTime p (get_cap m 1) (get_cap m 2) (get_cap m 3) 0 errs in
      let* (additions, errs) :=
        decodeAdditionTable (nRecordAdditions p) line errs in
      Ret (Some (NRecord.mk time additions), errors_Join errs, p)
  end.

(** ** The dispatcher (parseLines) *)

(** [switch line[0]], every grammar's result converted to [Record]. *)
Definition dispatch (p : parser) (line : list ascii)
  : outcome (Record * option error * parser) :=
  let* b := index0 line in
  if Ascii.eqb b "A" then
    let* (record, err) := parseARecord p line in Ret (ptrARecord record, err, p)
  else if Ascii.eqb b "B" then
    let* (record, err, p) := parseBRecord p line in Ret (ptrBRecord record, err, p)
  else if Ascii.eqb b "C" then
    let* (record, err) := parseCRecord p line in Ret (record, err, p)
  else if Ascii.eqb b "D" then
    let* (record, err) := parseDRecord p line in Ret (ptrDRecord record, err, p)
  else if Ascii.eqb b "E" then
    parseERecord p line
  else if Ascii.eqb b "F" then
    let* (record, err, p) := parseFRecord p line in Ret (ptrFRecord record, err, p)
  else if Ascii.eqb b "G" then
    let* (record, err) := parseGRecord p line in Ret (ptrGRecord record, err, p)
  else if Ascii.eqb b "H" then
    let* (record, err) := parseHRecord p line in Ret (record, err, p)
  else if Ascii.eqb b "I" then
    let* (record, err) := parseIRecord p line in Ret (ptrIRecord record, err, p)
  else if Ascii.eqb b "J" then
    let* (record, err) := parseJRecord p line in Ret (ptrJRecord record, err, p)
  else if Ascii.eqb b "K" then
    let* (record, err, p) := parseKRecord p line in Ret (ptrKRecord record, err, p)
  else if Ascii.eqb b "L" then
    let* (record, err) := parseLRecord p line in Ret (record, err, p)
  else if Ascii.eqb b "M" then
    let* (record, err) := parseMRecord p line in Ret (ptrMRecord record, err, p)
  else if Ascii.eqb b "N" then
    let* (record, err, p) := parseNRecord p line in Ret (ptrNRecord record, err, p)
  else
    Ret (nilRecord, Some (unknownRecordTypeError b), p).

(** The check [if !p.allowInvalidChars { ... }]: the error for the first
    byte of the line that [invalidCharsRx] matches, joined to [err]. *)
Definition checkInvalidChars (p : parser) (lineStr : string) (err : option error)
  : outcome (option error) :=
  if negb (allowInvalidChars p) then
    match find invalidCharsRx (bytes lineStr) with
    | None => Ret err
    | Some m =>
        let* invalidChar := index0 (get_cap m 1) in
        let invalidCharErr :=
          if (0x20 <=? byteZ invalidChar) && (byteZ invalidChar <=? 0x7f) then
            errorString ("'" +:+ String invalidChar "': invalid character")
          else
            errorString ("'\x" +:+ hex2 false invalidChar +:+ "': invalid character") in
        match err with
        | None => Ret (Some invalidCharErr)
        | Some err => Ret (Some (joinError [err; invalidCharErr]))
        end
    end
  else Ret err.

(** What the loop of [parseLines] carries from line to line. *)
Record loopState : Type := mkLoopState {
  st_parser : parser;
  st_records : list Record;
  st_bRecords : list BRecord.t;
  st_hRecordsByTLC : gmap string HRecord.t;
  st_kRecords : list KRecord.t;
  st_errs : list Error
}.

(** The width [a.FinishColumn - a.StartColumn + 1] of an addition. *)
Definition additionWidth (a : RecordAddition) : Z :=
  Int64.add (Int64.sub (FinishColumn a) (StartColumn a)) 1.

(** [case *IRecord] of the type switch. *)
Definition installIRecord (record : IRecord.t) (p : parser) : outcome parser :=
  let p :=
    set_bRecordAdditions
      (bRecordAdditions p ++ IRecord.Additions record)
      (foldl (fun m bRecordAddition => <[TLC bRecordAddition := bRecordAddition]> m)
         (bRecordsAdditionsByTLC p) (IRecord.Additions record)) p in
  let* p :=
    match bRecordsAdditionsByTLC p !! "LAD" with
    | Some ladBRecordAddition =>
        let n := additionWidth ladBRecordAddition in
        let* mul := intPow 10 n in
        let* div := intPow 10 n in
        Ret (set_lad ladBRecordAddition mul (Int64.mul 60000 div) p)
    | None => Ret p
    end in
  let* p :=
    match bRecordsAdditionsByTLC p !! "LOD" with
    | Some lodBRecordAddition =>
        let n := additionWidth lodBRecordAddition in
        let* mul := intPow 10 n in
        let* div := intPow 10 n in
        Ret (set_lod lodBRecordAddition mul (Int64.mul 60000 div) p)
    | None => Ret p
    end in
  match bRecordsAdditionsByTLC p !! "TDS" with
  | Some tdsBRecordAddition =>
      let n := additionWidth tdsBRecordAddition in
      let* mul := intPow 10 (Int64.sub 9 n) in
      Ret (set_tds tdsBRecordAddition mul p)
  | None => Ret p
  end.

(** The type switch [switch record := record.(type)] that ends the loop
    body. *)
Definition updateState (record : Record) (st : loopState) : outcome loopState :=
  let p := st_parser st in
  match record with
  | ptrBRecord (Some record) =>
      Ret (mkLoopState p (st_records st) (st_bRecords st ++ [record])
             (st_hRecordsByTLC st) (st_kRecords st) (st_errs st))
  | ptrHRecord (Some record) =>
      Ret (mkLoopState p (st_records st) (st_bRecords st)
             (<[HRecord.TLC record := record]> (st_hRecordsByTLC st))
             (st_kRecords st) (st_errs st))
  | ptrHFDTERecord (Some record) =>
      let hRecord := HFDTERecord.HRecord record in
      Ret (mkLoopState (set_date (HFDTERecord.Date record) p) (st_records st)
             (st_bRecords st)
             (<[HRecord.TLC hRecord := hRecord]> (st_hRecordsByTLC st))
             (st_kRecords st) (st_errs st))
  | ptrIRecord (Some record) =>
      let* p := installIRecord record p in
      Ret (mkLoopState p (st_records st) (st_bRecords st) (st_hRecordsByTLC st)
             (st_kRecords st) (st_errs st))
  | ptrJRecord (Some record) =>
      Ret (mkLoopState (set_kRecordAdditions (JRecord.Additions record) p)
             (st_records st) (st_bRecords st) (st_hRecordsByTLC st)
             (st_kRecords st) (st_errs st))
  | ptrKRecord (Some record) =>
      Ret (mkLoopState p (st_records st) (st_bRecords st) (st_hRecordsByTLC st)
             (st_kRecords st ++ [record]) (st_errs st))
  | ptrMRecord (Some record) =>
      Ret (mkLoopState (set_nRecordAdditions (MRecord.Additions record) p)
             (st_records st) (st_bRecords st) (st_hRecordsByTLC st)
             (st_kRecords st) (st_errs st))
  | _ => Ret st
  end.

(** One turn of [for i, lineStr := range lines]. *)
Definition parseLine (i : Z) (lineStr : string) (st : loopState)
  : outcome loopState :=
  if len (bytes lineStr) =? 0 then Ret st
  else
    let line := bytes lineStr in
    let* (record, err, p) := dispatch (st_parser st) line in
    let* err := checkInvalidChars p lineStr err in
    let records := st_records st ++ [record] in
    let errs :=
      match err with
      | Some err => st_errs st ++ [mkError (i + 1) err]
      | None => st_errs st
      end in
    updateState record
      (mkLoopState p records (st_bRecords st) (st_hRecordsByTLC st)
         (st_kRecords st) errs).

Fixpoint parseLines_loop (i : Z) (lines : list string) (st : loopState)
  : outcome loopState :=
  match lines with
  | [] => Ret st
  | lineStr :: lines' =>
      let* st := parseLine i lineStr st in
      parseLines_loop (i + 1) lines' st
  end.

Definition initialState (p : parser) : loopState :=
  mkLoopState p [] [] ∅ [] [].

Definition documentOf (st : loopState) : IGC :=
  {| Records := st_records st;
     Errs := st_errs st;
     HRecordsByTLC := st_hRecordsByTLC st;
     BRecords := st_bRecords st;
     KRecords := st_kRecords st |}.

(** [p.parseLines(lines)]; the error it returns besides is always nil. *)
Definition parseLines (p : parser) (lines : list string) : outcome IGC :=
  let* st := parseLines_loop 0 lines (initialState p) in
  Ret (documentOf st).

(** [ParseLines] parses an IGC from lines. *)
Definition ParseLines (lines : list string) (options : list ParseOption)
  : outcome IGC :=
  parseLines (newParser options) lines.

(** ** Notions used by the statements *)

(** The options a caller can build: [WithAllowInvalidChars] is the only
    constructor of a [ParseOption] outside the package. *)
Definition optionsOf (flags : list bool) : list ParseOption :=
  map WithAllowInvalidChars flags.

(** The loop state after the lines [lines] of a parse started with the
    options [flags]. *)
Definition reached (flags : list bool) (lines : list string) (st : loopState)
  : Prop :=
  parseLines_loop 0 lines (initialState (newParser (optionsOf flags))) = Ret st.

(** The timestamp a record carries, for the time-bearing record types. *)
Definition recordTime (record : Record) : option Z :=
  match record with
  | ptrBRecord (Some r) => Some (BRecord.Time r)
  | ptrERecord (Some r) => Some (ERecord.Time r)
  | ptrERecordWithoutTLC (Some r) => Some (ERecordWithoutTLC.Time r)
  | ptrFRecord (Some r) => Some (FRecord.Time r)
  | ptrKRecord (Some r) => Some (KRecord.Time r)
  | ptrNRecord (Some r) => Some (NRecord.Time r)
  | _ => None
  end.

Definition timestamps (records : list Record) : list Z :=
  omap recordTime records.

Definition isEmptyLine (lineStr : string) : bool := len (bytes lineStr) =? 0.

(** The candidate timestamp after [k] whole days have been added to the
    date. *)
Definition candidate (date durationSinceMidnight : Z) (k : nat) : Z :=
  Time.Add (Time.AddDays date (Z.of_nat k)) durationSinceMidnight.

(** The additions [l] occupy adjacent column ranges from column [c] on:
    each starts where the cursor stands and does not finish before it
    starts, and the cursor moves one past its finish column. *)
Fixpoint contiguousFrom (c : Z) (l : list RecordAddition) : Prop :=
  match l with
  | [] => True
  | a :: l' =>
      StartColumn a = c /\ StartColumn a <= FinishColumn a /\
      contiguousFrom (FinishColumn a + 1) l'
  end.

(** The bytes of the columns [StartColumn a] to [FinishColumn a] of a
    line, columns being counted from 1. *)
Definition columnsOf (a : RecordAddition) (line : list ascii) : list ascii :=
  take (Z.to_nat (FinishColumn a - StartColumn a + 1))
    (drop (Z.to_nat (StartColumn a - 1)) line).

(** An addition whose column range is a proper one of a line of at most
    99 columns. *)
Definition wellFormedAddition (a : RecordAddition) : Prop :=
  1 <= StartColumn a /\ StartColumn a <= FinishColumn a /\ FinishColumn a < 100.

(** Every addition the parser state holds, whichever field it is in. *)
Definition installedAdditions (p : parser) : list RecordAddition :=
  bRecordAdditions p ++ kRecordAdditions p ++ nRecordAdditions p
  ++ map snd (map_to_list (bRecordsAdditionsByTLC p))
  ++ option_list (ladBRecordAddition p)
  ++ option_list (lodBRecordAddition p)
  ++ option_list (tdsBRecordAddition p).

(** What it means for a regular expression to match: [Matches r pos w
    rest c c'] says that [r], standing [pos] bytes into the text, matches
    the bytes [w] with [rest] left after them, and turns the captures
    [c] into [c']. *)
Module RxSpec.
Import Rx.

Inductive Matches
  : regex -> nat -> list ascii -> list ascii -> caps -> caps -> Prop :=
| M_Eps pos rest c : Matches Eps pos [] rest c c
| M_Class p a pos rest c :
    p a = true -> Matches (Class p) pos [a] rest c c
| M_Seq r1 r2 pos w1 w2 rest c c1 c2 :
    Matches r1 pos w1 (w2 ++ rest) c c1 ->
    Matches r2 (pos + length w1) w2 rest c1 c2 ->
    Matches (Seq r1 r2) pos (w1 ++ w2) rest c c2
| M_AltL r1 r2 pos w rest c c' :
    Matches r1 pos w rest c c' -> Matches (Alt r1 r2) pos w rest c c'
| M_AltR r1 r2 pos w rest c c' :
    Matches r2 pos w rest c c' -> Matches (Alt r1 r2) pos w rest c c'
| M_StarNil g r pos rest c : Matches (Star g r) pos [] rest c c
| M_StarCons g r pos w1 w2 rest c c1 c2 :
    Matches r pos w1 (w2 ++ rest) c c1 ->
    Matches (Star g r) (pos + length w1) w2 rest c1 c2 ->
    Matches (Star g r) pos (w1 ++ w2) rest c c2
| M_Group i r pos w rest c c' :
    Matches r pos w rest c c' ->
    Matches (Group i r) pos w rest c (set_cap i w c')
| M_Begin rest c : Matches BeginText 0 [] rest c c
| M_End pos c : Matches EndText pos [] [] c c.

(** Whether no capture group occurs in a regular expression. *)
Fixpoint groupfree (r : regex) : bool :=
  match r with
  | Eps | Class _ | BeginText | EndText => true
  | Seq r1 r2 | Alt r1 r2 => groupfree r1 && groupfree r2
  | Star _ r1 => groupfree r1
  | Group _ _ => false
  end.

End RxSpec.

(** The three two-digit fields a grammar captures for a time of day or
    a date. *)
Definition timeFields (m : Rx.caps) : Prop :=
  len (Rx.get_cap m 1) = 2 /\ len (Rx.get_cap m 2) = 2 /\
  len (Rx.get_cap m 3) = 2.

(** What one call of [parseTime] does to the parser when it yields the
    timestamp [t]: without a date nothing; with one, [t] is the first
    candidate not earlier than the watermark, the date has moved on to
    the day of that candidate and the watermark has become [t]. *)
Definition timeStep (p p' : parser) (t : Z) : Prop :=
  (date p = Time.zero /\ t = Time.zero /\ p' = p) \/
  (date p <> Time.zero /\ prevTime p <= t /\
   exists (d : Z) (k : nat),
     t = candidate (date p) d k /\
     (forall j : nat, (j < k)%nat -> candidate (date p) d j < prevTime p) /\
     p' = set_prevTime t (set_date (Time.AddDays (date p) (Z.of_nat k)) p)).

(** The cases of the switch of [dispatch], one for each leading byte. *)
Inductive Dispatched (p : parser) (line : list ascii)
  : Record -> option error -> parser -> Prop :=
| D_A r err : index0 line = Ret "A"%char ->
    parseARecord p line = Ret (r, err) -> Dispatched p line (ptrARecord r) err p
| D_B r err p' : index0 line = Ret "B"%char ->
    parseBRecord p line = Ret (r, err, p') ->
    Dispatched p line (ptrBRecord r) err p'
| D_C record err : index0 line = Ret "C"%char ->
    parseCRecord p line = Ret (record, err) -> Dispatched p line record err p
| D_D r err : index0 line = Ret "D"%char ->
    parseDRecord p line = Ret (r, err) -> Dispatched p line (ptrDRecord r) err p
| D_E record err p' : index0 line = Ret "E"%char ->
    parseERecord p line = Ret (record, err, p') ->
    Dispatched p line record err p'
| D_F r err p' : index0 line = Ret "F"%char ->
    parseFRecord p line = Ret (r, err, p') ->
    Dispatched p line (ptrFRecord r) err p'
| D_G r err : index0 line = Ret "G"%char ->
    parseGRecord p line = Ret (r, err) -> Dispatched p line (ptrGRecord r) err p
| D_H record err : index0 line = Ret "H"%char ->
    parseHRecord p line = Ret (record, err) -> Dispatched p line record err p
| D_I r err : index0 line = Ret "I"%char ->
    parseIRecord p line = Ret (r, err) -> Dispatched p line (ptrIRecord r) err p
| D_J r err : index0 line = Ret "J"%char ->
    parseJRecord p line = Ret (r, err) -> Dispatched p line (ptrJRecord r) err p
| D_K r err p' : index0 line = Ret "K"%char ->
    parseKRecord p line = Ret (r, err, p') ->
    Dispatched p line (ptrKRecord r) err p'
| D_L record err : index0 line = Ret "L"%char ->
    parseLRecord p line = Ret (record, err) -> Dispatched p line record err p
| D_M r err : index0 line = Ret "M"%char ->
    parseMRecord p line = Ret (r, err) -> Dispatched p line (ptrMRecord r) err p
| D_N r err p' : index0 line = Ret "N"%char ->
    parseNRecord p line = Ret (r, err, p') ->
    Dispatched p line (ptrNRecord r) err p'
| D_unknown b : index0 line = Ret b ->
    b ∉ bytes "ABCDEFGHIJKLMN" ->
    Dispatched p line nilRecord (Some (unknownRecordTypeError b)) p.

(** What holds of the time fields of the parser and of the timestamps
    handed out so far, in every state the loop reaches. *)
Definition timeInv (st : loopState) : Prop :=
  let p := st_parser st in
  let ts := timestamps (st_records st) in
  0 <= date p /\ 0 <= prevTime p /\ (date p = Time.zero -> prevTime p = Time.zero) /\
  date p mod Time.Second = 0 /\
  Forall (fun t => t <= prevTime p) ts /\ StronglySorted Z.le ts.

(** The lines of the test [utc_midnight_rollover_with_new_hfdte_record]. *)
Definition rolloverLines : list string :=
  ["HFDTEDATE:050624,01"; "I023636LAD3737LOD";
   "B2359593716084N11815009WA044060467236";
   "HFDTEDATE:060624,01";
   "B0000013716074N11815007WA044080467530"]%string.

Definition rolloverState : loopState :=
  Eval vm_compute in
    match parseLines_loop 0 rolloverLines (initialState (newParser [])) with
    | Ret st => st
    | _ => initialState (newParser [])
    end.

(** The lines the dispatcher does not skip. *)
Definition nonEmptyLines (lines : list string) : list string :=
  List.filter (fun l => negb (isEmptyLine l)) lines.

(** The error [e] is tagged with the number of a line of [lines] that is
    not empty, lines being numbered from 1. *)
Definition tagsNonEmptyLine (lines : list string) (e : Error) : Prop :=
  1 <= Line e /\
  exists l, lines !! Z.to_nat (Line e - 1) = Some l /\ isEmptyLine l = false.

(** Three lines, the second of them empty. *)
Definition emptyLineLines : list string := ["X"; ""; "GABC"]%string.

Definition emptyLineState : loopState :=
  Eval vm_compute in
    match parseLines_loop 0 emptyLineLines (initialState (newParser [])) with
    | Ret st => st
    | _ => initialState (newParser [])
    end.

(** The document of the single line ["X"]. *)
Definition unknownXDocument : IGC :=
  {| Records := [nilRecord];
     BRecords := [];
     HRecordsByTLC := ∅;
     KRecords := [];
     Errs := [mkError 1 (unknownRecordTypeError "X")] |}.

(** A line that starts with the byte 0, after one line. *)
Definition nulLine : string := String "000" "abc".

(** The map by code that [case *IRecord] builds from a list of
    additions: a later addition replaces an earlier one of its code. *)
Definition byTLC (m : gmap string RecordAddition) (l : list RecordAddition)
  : gmap string RecordAddition :=
  foldl (fun m a => <[TLC a := a]> m) m l.

(** The number of columns of an addition. *)
Definition widthOf (a : RecordAddition) : Z :=
  FinishColumn a - StartColumn a + 1.

(** What holds of the addition tables in every state the loop reaches. *)
Definition tablesInv (p : parser) : Prop :=
  Forall wellFormedAddition (bRecordAdditions p) /\
  Forall wellFormedAddition (kRecordAdditions p) /\
  Forall wellFormedAddition (nRecordAdditions p) /\
  bRecordsAdditionsByTLC p = byTLC ∅ (bRecordAdditions p) /\
  ladBRecordAddition p = bRecordsAdditionsByTLC p !! "LAD"%string /\
  lodBRecordAddition p = bRecordsAdditionsByTLC p !! "LOD"%string /\
  tdsBRecordAddition p = bRecordsAdditionsByTLC p !! "TDS"%string /\
  cRecords p = [] /\
  match tdsBRecordAddition p with
  | Some a => 1 <= widthOf a <= 9 /\ fracSecondMul p = 10 ^ (9 - widthOf a)
  | None => fracSecondMul p = 10 ^ 9
  end.

(** The lines of the test [b_record_with_additions], without the fix. *)
Definition additionLines : list string :=
  ["HFDTEDATE:040624,01"; "I023638FXA3940SIU"]%string.

Definition additionState : loopState :=
  Eval vm_compute in
    match parseLines_loop 0 additionLines (initialState (newParser [])) with
    | Ret st => st
    | _ => initialState (newParser [])
    end.

(** What decoding the addition [a] from a line comes to: its integer
    value, or the error that is reported. *)
Definition decodeOf (a : RecordAddition) (line : list ascii) : Z + error :=
  if len line <? FinishColumn a then inr (missingAdditionError a)
  else
    match atoi (columnsOf a line) with
    | (_, Some err) => inr err
    | (value, None) => inl value
    end.

(** The nanoseconds [parseBRecord] hands to [parseTime]. *)
Definition fixNanosecond (p : parser) (line : list ascii) : Z :=
  match tdsBRecordAddition p with
  | None => 0
  | Some a =>
      match decodeOf a line with
      | inl fractionalSecond => fracSecondMul p * fractionalSecond
      | inr _ => 0
      end
  end.

(** The lines of the test [b_record_tds_lad_lod], without the fix. *)
Definition tdsLines : list string :=
  ["HFDTEDATE:040624,01"; "I033636TDS3737LAD3838LOD"]%string.

Definition tdsState : loopState :=
  Eval vm_compute in
    match parseLines_loop 0 tdsLines (initialState (newParser [])) with
    | Ret st => st
    | _ => initialState (newParser [])
    end.

(** The same declaration and a fix, without any date header. *)
Definition tdsNoDateLines : list string :=
  ["I013636TDS"; "B1501444708879N00832146EA00929009414"]%string.

(** The document of the single line ["E"], of the test
    [e_record_invalid]. *)
Definition invalidEDocument : IGC :=
  {| Records := [nilRecord];
     BRecords := [];
     HRecordsByTLC := ∅;
     KRecords := [];
     Errs := [mkError 1 (invalidRecordError "E")] |}.

(** Two I records, the second declaring SIU alone over columns 36 to 37,
    and a fix. *)
Definition twoIRecordLines : list string :=
  ["HFDTEDATE:040624,01"; "I013638FXA"; "I013637SIU";
   "B1501444708879N00832146EA0092900941006"]%string.

(** The additions of the fix of [twoIRecordLines]. *)
Definition twoIRecordAdditions : gmap string Z :=
  <["SIU"%string := 0]> (<["FXA"%string := 6]> ∅).

(** A waypoint line followed by a line of the task-declaration shape. *)
Definition laterDeclarationLines : list string :=
  ["C4415173N00604205ET-296-Trainon"; "C110524093545000000000502"]%string.

(** The mapping and the errors that walking an addition table over a
    line comes to. *)
Definition valuesOf (additions : list RecordAddition) (line : list ascii)
    (values : gmap string Z) : gmap string Z :=
  foldl (fun values a =>
           match decodeOf a line with
           | inl value => <[TLC a := value]> values
           | inr _ => values
           end) values additions.

Fixpoint errorsOf (additions : list RecordAddition) (line : list ascii)
  : list error :=
  match additions with
  | [] => []
  | a :: additions' =>
      match decodeOf a line with
      | inl _ => errorsOf additions' line
      | inr err => err :: errorsOf additions' line
      end
  end.

(** A TDS addition at column 36 and a fix of 35 columns. *)
Definition shortTDSLines : list string :=
  ["HFDTEDATE:040624,01"; "I013636TDS";
   "B1501444708879N00832146EA0092900941"]%string.

(** Whether a line, when it is an I record, declares no TDS addition
    wider than 9 columns. *)
Definition tdsFits (lineStr : string) : bool :=
  match bytes lineStr with
  | "I"%char :: _ =>
      match parseIRecord (newParser []) (bytes lineStr) with
      | Ret (Some record, _) =>
          forallb (fun a => negb (String.eqb (TLC a) "TDS") || (widthOf a <=? 9))
            (IRecord.Additions record)
      | _ => true
      end
  | _ => true
  end.

(** An I record that declares a TDS addition of ten columns. *)
Definition wideTDSLines : list string := ["I013645TDS"]%string.

(** *** Notions for [atoi] *)

(** Whether a byte is a decimal digit. *)
Definition isDigit (b : ascii) : bool :=
  (byteZ "0" <=? byteZ b) && (byteZ b <=? byteZ "9").

(** The number that a string of decimal digits denotes. *)
Definition decimal (digits : list ascii) : Z :=
  foldl (fun r b => 10 * r + (byteZ b - byteZ "0")) 0 digits.

(** A numeral split into its sign and what follows a leading minus. *)
Definition signAndDigits (data : list ascii) : Z * list ascii :=
  match data with
  | b :: data' => if bool_decide (b = "-"%char) then (-1, data') else (1, data)
  | [] => (1, data)
  end.

(** Whether a numeral is an optional minus and at least one digit. *)
Definition isNumeral (data : list ascii) : bool :=
  let '(_, digits) := signAndDigits data in
  negb (bool_decide (digits = [])) && forallb isDigit digits.

(** ** The line splitter (parser.go) *)

(** [l[i]] on a byte slice: panics out of range. *)
Definition index (l : list ascii) (i : Z) : outcome ascii :=
  if (0 <=? i) && (i <? len l) then
    match l !! Z.to_nat i with
    | Some b => Ret b
    | None => Panic
    end
  else Panic.

Definition CR : ascii := "013"%char.
Definition LF : ascii := "010"%char.

(** The loop [for i := len(data) - 1; i >= 0; i--] of [trimCRs], [n]
    being [i + 1]; the nil slice is [None]. *)
Fixpoint trimCRs_loop (n : nat) (data : list ascii)
  : outcome (option (list ascii)) :=
  match n with
  | O => Ret None
  | S n' =>
      let i := Z.of_nat n' in
      let* b := index data i in
      if negb (bool_decide (b = CR)) then
        let* w := slice data 0 (Int64.add i 1) in
        Ret (Some w)
      else trimCRs_loop n' data
  end.

(** [trimCRs] drops terminal \rs from data. *)
Definition trimCRs (data : list ascii) : outcome (option (list ascii)) :=
  trimCRs_loop (length data) data.

(** [bytes.IndexByte]: the index of the first [c] in [s], or -1. *)
Fixpoint bytes_IndexByte (s : list ascii) (c : ascii) : Z :=
  match s with
  | [] => -1
  | b :: s' =>
      if bool_decide (b = c) then 0
      else
        let i := bytes_IndexByte s' c in
        if i <? 0 then -1 else i + 1
  end.

(** [scanLines] is a bufio.SplitFunc that splits lines according the
    regexp \r*\n: it returns how far to advance, the token or nil, and
    an error, which is always nil. *)
Definition scanLines (data : list ascii) (atEOF : bool)
  : outcome (Z * option (list ascii) * option error) :=
  if atEOF && (len data =? 0) then Ret (0, None, None)
  else
    let i := bytes_IndexByte data LF in
    if 0 <=? i then
      let* line := slice data 0 i in
      let* token := trimCRs line in
      Ret (Int64.add i 1, token, None)
    else if atEOF then
      let* token := trimCRs data in
      Ret (len data, token, None)
    else Ret (0, None, None).

(** *** Notions for the lists of the document *)

(** The fix a slot holds. *)
Definition fixOf (record : Record) : option BRecord.t :=
  match record with
  | ptrBRecord (Some r) => Some r
  | _ => None
  end.

(** The K record a slot holds. *)
Definition periodicOf (record : Record) : option KRecord.t :=
  match record with
  | ptrKRecord (Some r) => Some r
  | _ => None
  end.

(** The header a slot holds: an H record, or the one embedded in an
    HFDTE record. *)
Definition headerOf (record : Record) : option HRecord.t :=
  match record with
  | ptrHRecord (Some r) => Some r
  | ptrHFDTERecord (Some r) => Some (HFDTERecord.HRecord r)
  | _ => None
  end.

(** The map that holds, for each code, the last header of a list. *)
Definition lastByTLC (headers : list HRecord.t) : gmap string HRecord.t :=
  foldl (fun m r => <[HRecord.TLC r := r]> m) ∅ headers.

(** A flight with two headers of the same code. *)
Definition twoPilotLines : list string :=
  ["HFPLTPILOT:Alice"; "B1501444708879N00832146EA0092900941";
   "HFPLTPILOT:Bob"]%string.

Definition twoPilotState : loopState :=
  Eval vm_compute in
    match parseLines_loop 0 twoPilotLines (initialState (newParser [])) with
    | Ret st => st
    | _ => initialState (newParser [])
    end.

(** *** Notions for the check of the characters *)

(** The error [parseLines] builds for the invalid character it found. *)
Definition invalidCharError (invalidChar : ascii) : error :=
  if (0x20 <=? byteZ invalidChar) && (byteZ invalidChar <=? 0x7f) then
    errorString ("'" +:+ String invalidChar "': invalid character")
  else
    errorString ("'\x" +:+ hex2 false invalidChar +:+ "': invalid character").

(** [err] with the error [e] joined to it. *)
Definition joinedTo (err : option error) (e : error) : error :=
  match err with
  | None => e
  | Some err => joinError [err; e]
  end.

(** The first byte of a line that is not allowed, if there is one. *)
Definition firstInvalidChar (line : list ascii) : option ascii :=
  List.find (fun b => negb (Grammar.allowed_char b)) line.

(** ** The type of a record (igc.go) *)

(** [record.Type()].  Each pointer type answers with its letter, also
    when the pointer is nil; the method of [*HFDTERecord] is the one
    promoted from the embedded [HRecord], so a nil pointer panics, and so
    does the nil interface. *)
Definition RecordType (record : Record) : outcome ascii :=
  match record with
  | nilRecord => Panic
  | ptrARecord _ => Ret "A"%char
  | ptrBRecord _ => Ret "B"%char
  | ptrCRecordDeclaration _ => Ret "C"%char
  | ptrCRecordWaypoint _ => Ret "C"%char
  | ptrDRecord _ => Ret "D"%char
  | ptrERecord _ => Ret "E"%char
  | ptrERecordWithoutTLC _ => Ret "E"%char
  | ptrFRecord _ => Ret "F"%char
  | ptrGRecord _ => Ret "G"%char
  | ptrHRecord _ => Ret "H"%char
  | ptrHRecordWithInvalidSource _ => Ret "H"%char
  | ptrHFDTERecord (Some _) => Ret "H"%char
  | ptrHFDTERecord None => Panic
  | ptrIRecord _ => Ret "I"%char
  | ptrJRecord _ => Ret "J"%char
  | ptrKRecord _ => Ret "K"%char
  | ptrLRecord _ => Ret "L"%char
  | ptrLRecordWithoutTLC _ => Ret "L"%char
  | ptrMRecord _ => Ret "M"%char
  | ptrNRecord _ => Ret "N"%char
  end.

(** ** summarize-igc (cmd/summarize-igc/main.go) *)






(** ** The manufacturer registry, continued (manufacturers.go) *)

(** [NonApprovedManufacturers] is an unofficial list of non-approved
    manufacturers. *)
Definition NonApprovedManufacturers : list Manufacturer :=
  [ mkManufacturer "Ascent" "XAH" (Some "X"%char);
    mkManufacturer "Burnair" "XBM" (Some "X"%char);
    mkManufacturer "Naviter" "XCM" (Some "X"%char);
    mkManufacturer "XCSoar" "XCS" (Some "X"%char);
    mkManufacturer "XC Track" "XCT" (Some "X"%char);
    mkManufacturer "GpsDump" "XGD" (Some "X"%char);
    mkManufacturer "Flyskyhy" "XFH" (Some "X"%char);
    mkManufacturer "FlyMe" "XFL" (Some "X"%char);
    mkManufacturer "Flymaster" "XFM" (Some "X"%char);
    mkManufacturer "LK8000" "XLK" (Some "X"%char);
    mkManufacturer "Naviter" "XNA" (Some "X"%char);
    mkManufacturer "Stodeus" "XSD" (Some "X"%char);
    mkManufacturer "Syride" "XSE" (Some "X"%char);
    mkManufacturer "Syride" "XSR" (Some "X"%char);
    mkManufacturer "Skytraxx" "XSX" (Some "X"%char);
    mkManufacturer "XC Tracer" "XTR" (Some "X"%char);
    mkManufacturer "LiveTrack24" "XTT" (Some "X"%char);
    mkManufacturer "VairBration" "XVB" (Some "X"%char) ].

(** The first loop of [init]: every approved manufacturer is entered in
    both maps; a code that the map of the approved ones already holds
    panics. *)
Fixpoint init_approved (l : list Manufacturer)
    (approved all : gmap string Manufacturer)
  : outcome (gmap string Manufacturer * gmap string Manufacturer) :=
  match l with
  | [] => Ret (approved, all)
  | manufacturer :: l' =>
      match approved !! ManufacturerTLC manufacturer with
      | Some _ => Panic
      | None =>
          init_approved l'
            (<[ManufacturerTLC manufacturer := manufacturer]> approved)
            (<[ManufacturerTLC manufacturer := manufacturer]> all)
      end
  end.

(** The second loop of [init]: every other manufacturer is entered in
    the map of all; a code that it already holds panics. *)
Fixpoint init_nonApproved (l : list Manufacturer)
    (all : gmap string Manufacturer) : outcome (gmap string Manufacturer) :=
  match l with
  | [] => Ret all
  | manufacturer :: l' =>
      match all !! ManufacturerTLC manufacturer with
      | Some _ => Panic
      | None =>
          init_nonApproved l' (<[ManufacturerTLC manufacturer := manufacturer]> all)
      end
  end.

Definition init
  : outcome (gmap string Manufacturer * gmap string Manufacturer) :=
  let* (approved, all) := init_approved ApprovedManufacturers ∅ ∅ in
  let* all := init_nonApproved NonApprovedManufacturers all in
  Ret (approved, all).

(** [ManufacturersByTLC] is a map of three-letter codes to approved or
    non-approved manufacturers, as [init] leaves it. *)
Definition ManufacturersByTLC : gmap string Manufacturer :=
  match init with
  | Ret (_, all) => all
  | _ => ∅
  end.

#[global] Instance Manufacturer_eq_dec : EqDecision Manufacturer.
Proof. solve_decision. Defined.

(** [Approved] returns whether m is approved. *)
Definition Approved (m : Manufacturer) : bool :=
  negb (String.prefix "X" (ManufacturerTLC m)).

(** *** Notions for the scale of the coordinates *)

(** The factors by which the minutes of a coordinate are scaled for a
    high-resolution addition of [n] columns: the multiplier 10^n and the
    divisor 60000 * 10^n, as 64-bit integers; 1 and 60000 without one. *)
Definition scaleOf (a : option RecordAddition) (mul div : Z) : Prop :=
  match a with
  | Some a =>
      mul = Int64.wrap64 (10 ^ widthOf a) /\
      div = Int64.wrap64 (60000 * 10 ^ widthOf a)
  | None => mul = 1 /\ div = 60000
  end.

Definition coordInv (p : parser) : Prop :=
  scaleOf (ladBRecordAddition p) (latMinMul p) (latMinDiv p) /\
  scaleOf (lodBRecordAddition p) (lonMinMul p) (lonMinDiv p).

(** The bytes of the columns [lo] to [hi] of a line, columns being
    counted from 1. *)
Definition columns (lo hi : nat) (line : list ascii) : list ascii :=
  take (hi + 1 - lo) (drop (lo - 1) line).

(** The hour, minute and second a grammar captures are the two digits
    of columns 2 to 3, 4 to 5 and 6 to 7 of the line. *)
Definition timeColumns (m : Rx.caps) (line : list ascii) : Prop :=
  Rx.get_cap m 1 = columns 2 3 line /\ Rx.get_cap m 2 = columns 4 5 line /\
  Rx.get_cap m 3 = columns 6 7 line /\
  forallb isDigit (columns 2 3 line) = true /\ len (columns 2 3 line) = 2 /\
  forallb isDigit (columns 4 5 line) = true /\ len (columns 4 5 line) = 2 /\
  forallb isDigit (columns 6 7 line) = true /\ len (columns 6 7 line) = 2.

(** The time of day a time-bearing line states, in nanoseconds since
    midnight: the hour, minute and second of columns 2 to 7 and, for a
    fix, the nanoseconds of its TDS columns. *)
Definition lineTimeOfDay (p : parser) (line : list ascii) : Z :=
  (decimal (columns 2 3 line) * 3600 + decimal (columns 4 5 line) * 60
   + decimal (columns 6 7 line)) * 1000000000
  + match line with
    | "B"%char :: _ => fixNanosecond p line
    | _ => 0
    end.

(** What one call of [parseTime] with the duration since midnight [d]
    does to the parser when it yields the timestamp [t]: without a date
    nothing; with one, [t] is the first of the candidates date + d,
    date + 1 day + d, ... that is not earlier than the watermark, the
    date has moved on to the day of that candidate and the watermark has
    become [t]. *)
Definition timeStepAt (p p' : parser) (d t : Z) : Prop :=
  (date p = Time.zero /\ t = Time.zero /\ p' = p) \/
  (date p <> Time.zero /\ prevTime p <= t /\
   exists k : nat,
     t = candidate (date p) d k /\
     (forall j : nat, (j < k)%nat -> candidate (date p) d j < prevTime p) /\
     p' = set_prevTime t (set_date (Time.AddDays (date p) (Z.of_nat k)) p)).

(** The fix of the test [b_record_tds_lad_lod], and what [parseBRecord]
    makes of it after the lines [tdsLines]. *)
Definition tdsFixLine : list ascii :=
  bytes "B1501444708879N00832146EA0092900941456".

Definition tdsFix : outcome (option BRecord.t * option error * parser) :=
  Eval vm_compute in parseBRecord (st_parser tdsState) tdsFixLine.

(** ** validate-igc (cmd/validate-igc/main.go, civlovs/civlovs.go) *)

Module civlovs.

(** [type Status int], its constants numbered by [iota]. *)
Definition Status : Type := Z.
Definition StatusUnknown : Status := 0.
Definition StatusValid : Status := 1.
Definition StatusInvalid : Status := 2.

End civlovs.

(** One turn of the loop of [main] over the file names: the [switch]
    on the status that [validate] returned for the file.  What is
    printed is left out. *)
Definition main_step (worstStatus status : civlovs.Status) : civlovs.Status :=
  if status =? civlovs.StatusValid then worstStatus
  else if status =? civlovs.StatusInvalid then
    if worstStatus <? 1 then 1 else worstStatus
  else if status =? civlovs.StatusUnknown then
    if worstStatus <? 2 then 2 else worstStatus
  else worstStatus.

(** [main], given the status of each file named on the command line:
    the argument of [os.Exit]. *)
Definition main (statuses : list civlovs.Status) : Z :=
  foldl main_step civlovs.StatusValid statuses.

(** * Properties *)

(** ** Machine integers *)

Lemma wrap64_small (z : Z) : Int64.in_range z -> Int64.wrap64 z = z.
Proof.
  unfold Int64.in_range, Int64.wrap64, Int64.half, Int64.modulus.
  intros H. rewrite Z.mod_small; lia.
Qed.

Lemma wrap64_range (z : Z) : Int64.in_range (Int64.wrap64 z).
Proof.
  unfold Int64.in_range, Int64.wrap64, Int64.half, Int64.modulus.
  pose proof (Z.mod_pos_bound (z + 2 ^ 63) (2 ^ 64) ltac:(lia)). lia.
Qed.

Lemma wrap64_idem_add (a b : Z) :
  Int64.wrap64 (Int64.wrap64 a + b) = Int64.wrap64 (a + b).
Proof.
  unfold Int64.wrap64. f_equal.
  replace ((a + Int64.half) mod Int64.modulus - Int64.half + b + Int64.half)
    with ((a + Int64.half) mod Int64.modulus + b) by lia.
  replace (a + b + Int64.half) with ((a + Int64.half) + b) by lia.
  now rewrite Zplus_mod_idemp_l.
Qed.

(** Removes the wrap-arounds that provably do nothing, innermost first. *)
Ltac small64_step :=
  match goal with
  | |- context [Int64.wrap64 ?z] =>
      lazymatch z with
      | context [Int64.wrap64 _] => fail
      | _ => rewrite (wrap64_small z)
               by (unfold Int64.in_range, Int64.half; lia)
      end
  end.

Ltac small64 :=
  unfold Int64.add, Int64.sub, Int64.mul; repeat small64_step.

(** ** The midnight-rollover loop *)

Lemma parseTime_loop_spec (fuel : nat) (date d prevTime : Z) (t date' : Z) :
  parseTime_loop fuel date d prevTime = Some (t, date') ->
  exists k : nat,
    (k < fuel)%nat /\
    date' = Time.AddDays date (Z.of_nat k) /\
    t = candidate date d k /\
    prevTime <= t /\
    forall j : nat, (j < k)%nat -> candidate date d j < prevTime.
Proof.
  revert date. induction fuel as [|fuel IH]; intros date; simpl; [discriminate|].
  unfold Time.Before, Time.Add.
  destruct (Z.ltb_spec (date + d) prevTime) as [Hlt|Hge]; simpl.
  - intros H. destruct (IH _ H) as (k & Hk & Hd & Ht & Hle & Hmin).
    exists (S k). unfold candidate, Time.AddDays, Time.Add in *.
    repeat split; try lia.
    intros j Hj. destruct j as [|j]; [lia|].
    specialize (Hmin j ltac:(lia)). lia.
  - intros [= <- <-]. exists 0%nat.
    unfold candidate, Time.AddDays, Time.Add. repeat split; try lia.
Qed.

Lemma parseTime_loop_enough (fuel : nat) (date d prevTime : Z) :
  prevTime - (date + d) <= Z.of_nat fuel * Time.Day ->
  exists t date', parseTime_loop (S fuel) date d prevTime = Some (t, date').
Proof.
  revert date. induction fuel as [|fuel IH]; intros date Hle;
    cbn [parseTime_loop]; unfold Time.Before, Time.Add;
    destruct (Z.ltb_spec (date + d) prevTime) as [Hb|Hb]; cbn [negb]; eauto.
  - exfalso. lia.
  - apply IH. unfold Time.AddDays.
    unfold Time.Day, Time.Hour, Time.Minute, Time.Second in *. lia.
Qed.

Lemma parseTime_fuel_enough (date d prevTime : Z) :
  exists fuel, parseTime_fuel date d prevTime = S fuel /\
    prevTime - (date + d) <= Z.of_nat fuel * Time.Day.
Proof.
  unfold parseTime_fuel. eexists; split; [reflexivity|].
  assert (HD : 0 < Time.Day)
    by (unfold Time.Day, Time.Hour, Time.Minute, Time.Second; lia).
  set (x := prevTime - (date + d)).
  destruct (Z.le_gt_cases 0 x) as [Hx|Hx].
  - pose proof (Z.div_pos x Time.Day Hx HD).
    pose proof (Z.mod_pos_bound x Time.Day HD).
    pose proof (Z.div_mod x Time.Day ltac:(lia)).
    rewrite Nat2Z.inj_succ, Z2Nat.id by lia. nia.
  - rewrite Nat2Z.inj_succ.
    assert (0 <= Z.of_nat (Z.to_nat (x / Time.Day))) by lia. nia.
Qed.

Lemma parseTime_loop_fuel_mono (fuel fuel' : nat) (date d prevTime : Z) r :
  parseTime_loop fuel date d prevTime = Some r ->
  (fuel <= fuel')%nat ->
  parseTime_loop fuel' date d prevTime = Some r.
Proof.
  revert fuel' date. induction fuel as [|fuel IH]; intros fuel' date; simpl;
    [discriminate|].
  intros H Hle. destruct fuel' as [|fuel']; [lia|]. simpl.
  destruct (negb (Time.Before (Time.Add date d) prevTime)); [exact H|].
  apply IH; [exact H | lia].
Qed.

Lemma candidate_shift (date d : Z) (j : nat) :
  candidate (Time.AddDays date 1) d j = candidate date d (S j).
Proof. unfold candidate, Time.AddDays, Time.Add. lia. Qed.

Lemma parseTime_loop_first (k fuel : nat) (date d prevTime : Z) :
  (forall j : nat, (j < k)%nat -> candidate date d j < prevTime) ->
  prevTime <= candidate date d k ->
  (k < fuel)%nat ->
  parseTime_loop fuel date d prevTime
  = Some (candidate date d k, Time.AddDays date (Z.of_nat k)).
Proof.
  revert fuel date. induction k as [|k IH]; intros fuel date Hmin Hle Hfuel;
    (destruct fuel as [|fuel]; [lia|]); cbn [parseTime_loop].
  - unfold candidate, Time.AddDays, Time.Add, Time.Before in *.
    destruct (Z.ltb_spec (date + d) prevTime); [lia|]. cbn [negb].
    do 2 f_equal; lia.
  - pose proof (Hmin 0%nat ltac:(lia)) as H0.
    unfold candidate, Time.AddDays, Time.Add in H0.
    unfold Time.Before, Time.Add at 1.
    destruct (Z.ltb_spec (date + d) prevTime); [|lia]. cbn [negb].
    rewrite (IH fuel (Time.AddDays date 1)).
    + rewrite candidate_shift. do 2 f_equal. unfold Time.AddDays. lia.
    + intros j Hj. rewrite candidate_shift. apply Hmin. lia.
    + rewrite candidate_shift. exact Hle.
    + lia.
Qed.

Lemma parseTime_loop_total (date d prevTime : Z) :
  exists t date',
    parseTime_loop (parseTime_fuel date d prevTime) date d prevTime
    = Some (t, date').
Proof.
  destruct (parseTime_fuel_enough date d prevTime) as (fuel & -> & Hle).
  now apply parseTime_loop_enough.
Qed.

Lemma parseTime_returns (p : parser) (h m s : list ascii) (ns : Z)
    (errs : list error) :
  returns (parseTime p h m s ns errs).
Proof.
  unfold parseTime, returns. destruct (Time.IsZero (date p)); [eauto|].
  match goal with
  | |- context [parseTime_loop ?f ?a ?b ?c] =>
      destruct (parseTime_loop_total a b c) as (t & date' & ->)
  end.
  eauto.
Qed.

(** C9. The midnight-rollover loop of [parseTime] terminates whatever the
    current date, the duration since midnight (non-negative or not) and
    the watermark are: there is a number [k] of day advances after which
    the candidate is not earlier than the watermark while every earlier
    candidate is, the loop returns that candidate as soon as it is
    allowed more than [k] tests, and [parseTime] itself always returns. *)
Theorem rollover_loop_terminates :
  (forall date d prevTime : Z,
     exists k : nat,
       prevTime <= candidate date d k /\
       (forall j : nat, (j < k)%nat -> candidate date d j < prevTime) /\
       (forall fuel : nat, (k < fuel)%nat ->
          parseTime_loop fuel date d prevTime
          = Some (candidate date d k, Time.AddDays date (Z.of_nat k))) /\
       (k < parseTime_fuel date d prevTime)%nat) /\
  (forall (p : parser) (h m s : list ascii) (ns : Z) (errs : list error),
     returns (parseTime p h m s ns errs)).
Proof.
  split; [|apply parseTime_returns].
  intros date d prevTime.
  destruct (parseTime_loop_total date d prevTime) as (t & date' & Hrun).
  destruct (parseTime_loop_spec _ _ _ _ _ _ Hrun)
    as (k & Hk & -> & -> & Hle & Hmin).
  exists k. repeat split; try assumption.
  intros fuel Hfuel. now apply parseTime_loop_first.
Qed.

(** ** Slices and [atoi] *)

Lemma len_nonneg {A} (l : list A) : 0 <= len l.
Proof. unfold len. lia. Qed.

Lemma slice_Ret (l : list ascii) (lo hi : Z) (w : list ascii) :
  slice l lo hi = Ret w ->
  0 <= lo /\ lo <= hi /\ hi <= len l /\
  w = take (Z.to_nat (hi - lo)) (drop (Z.to_nat lo) l) /\
  len w = hi - lo.
Proof.
  unfold slice.
  destruct (Z.leb_spec 0 lo); [|discriminate].
  destruct (Z.leb_spec lo hi); [|discriminate].
  destruct (Z.leb_spec hi (len l)); [|discriminate].
  cbn [andb]. intros [= <-]. repeat split; try assumption.
  unfold len in *. rewrite length_take, length_drop. lia.
Qed.

Lemma slice_in_bounds (l : list ascii) (lo hi : Z) :
  0 <= lo -> lo <= hi -> hi <= len l ->
  slice l lo hi = Ret (take (Z.to_nat (hi - lo)) (drop (Z.to_nat lo) l)).
Proof.
  intros H1 H2 H3. unfold slice.
  destruct (Z.leb_spec 0 lo); [|lia].
  destruct (Z.leb_spec lo hi); [|lia].
  destruct (Z.leb_spec hi (len l)); [|lia].
  reflexivity.
Qed.

Lemma atoi_digits_bound (digits : list ascii) (r v : Z) :
  0 <= r ->
  (r + 1) * 10 ^ len digits <= 2 ^ 63 ->
  atoi_digits digits r = Some v ->
  r * 10 ^ len digits <= v < (r + 1) * 10 ^ len digits.
Proof.
  revert r. induction digits as [|b digits IH]; intros r Hr Hfit; cbn [atoi_digits].
  - intros [= <-]. unfold len; simpl. lia.
  - assert (Hlen : len (b :: digits) = len digits + 1)
      by (unfold len; cbn [length]; lia).
    rewrite Hlen in *. rewrite Z.pow_add_r in * by (pose proof (len_nonneg digits); lia).
    assert (Hp : 0 < 10 ^ len digits)
      by (apply Z.pow_pos_nonneg; [lia | apply len_nonneg]).
    change (byteZ "0") with 48. change (byteZ "9") with 57.
    destruct (Z.ltb_spec (byteZ b) 48); [discriminate|].
    destruct (Z.ltb_spec 57 (byteZ b)); [discriminate|]. cbn [orb].
    assert (Hr' : Int64.sub (Int64.add (Int64.mul 10 r) (byteZ b)) 48
                  = 10 * r + (byteZ b - 48)).
    { change (10 ^ 1) with 10 in Hfit.
      assert ((r + 1) * 10 <= (r + 1) * (10 ^ len digits * 10)) by nia.
      unfold Int64.sub, Int64.add, Int64.mul.
      replace (Int64.wrap64 (Int64.wrap64 (10 * r) + byteZ b) - 48)
        with (Int64.wrap64 (Int64.wrap64 (10 * r) + byteZ b) + (- 48)) by lia.
      rewrite !wrap64_idem_add. small64. lia. }
    rewrite Hr'. intros Hv. change (10 ^ 1) with 10 in *.
    apply IH in Hv; [nia | lia | nia].
Qed.

Lemma atoi_abs_bound (data : list ascii) :
  len data <= 18 ->
  - 10 ^ len data < atoi_ data < 10 ^ len data.
Proof.
  intros Hlen. unfold atoi_, atoi.
  assert (Hp : 0 < 10 ^ len data)
    by (apply Z.pow_pos_nonneg; [lia | apply len_nonneg]).
  assert (Hfit : forall l : list ascii, len l <= 18 -> 10 ^ len l <= 2 ^ 63).
  { intros l Hl. transitivity (10 ^ 18); [|lia].
    apply Z.pow_le_mono_r; [lia | exact Hl]. }
  assert (Hcase : forall (sign : Z) (digits : list ascii),
            (sign = 1 \/ sign = -1) -> len digits <= len data ->
            - 10 ^ len data
            < fst match digits with
                  | [] => (0, Some (atoiSyntaxError (gostring data)))
                  | _ :: _ =>
                      match atoi_digits digits 0 with
                      | Some result => (Int64.mul result sign, None)
                      | None => (0, Some (atoiSyntaxError (gostring data)))
                      end
                  end
            < 10 ^ len data).
  { intros sign digits Hs Hd.
    assert (10 ^ len digits <= 10 ^ len data)
      by (apply Z.pow_le_mono_r; [lia | exact Hd]).
    destruct digits as [|b digits]; [cbn; lia|].
    destruct (atoi_digits (b :: digits) 0) as [v|] eqn:Hv; [|cbn; lia].
    apply atoi_digits_bound in Hv; [|lia|rewrite Z.add_0_l, Z.mul_1_l; apply Hfit; lia].
    pose proof (Hfit (b :: digits) ltac:(lia)).
    cbn [fst]. destruct Hs as [-> | ->]; small64; lia. }
  destruct data as [|b data'].
  - apply (Hcase 1 []); [auto | lia].
  - case_bool_decide.
    + apply (Hcase (-1) data'); [auto | unfold len; cbn [length]; lia].
    + apply (Hcase 1 (b :: data')); [auto | lia].
Qed.

Lemma atoi_two_bytes (data : list ascii) :
  len data = 2 -> -100 < atoi_ data < 100.
Proof.
  intros H. pose proof (atoi_abs_bound data ltac:(lia)) as Hb.
  rewrite H in Hb. lia.
Qed.

(** ** Addition declarations *)

Lemma contiguousFrom_bounds (c : Z) (l : list RecordAddition) (a : RecordAddition) :
  contiguousFrom c l -> a ∈ l ->
  c <= StartColumn a /\ StartColumn a <= FinishColumn a.
Proof.
  revert c. induction l as [|b l IH]; intros c Hc Hin.
  - inversion Hin.
  - destruct Hc as (Hs & Hf & Hrest). apply elem_of_cons in Hin as [-> | Hin].
    + lia.
    + specialize (IH _ Hrest Hin). lia.
Qed.

Lemma parseRecordAdditions_loop_spec (count : nat) (i : Z) (m2 : list ascii)
    (cursor : Z) (acc : list RecordAddition) (errs : list error)
    (additions : list RecordAddition) (errs' : list error) :
  parseRecordAdditions_loop count i m2 cursor acc errs = Ret (additions, errs') ->
  exists new,
    additions = acc ++ new /\ contiguousFrom cursor new /\
    Forall (fun a => FinishColumn a < 100) new.
Proof.
  revert i cursor acc errs.
  induction count as [|count IH]; intros i cursor acc errs;
    cbn [parseRecordAdditions_loop].
  - intros [= <- <-]. exists []. rewrite app_nil_r. cbn. auto.
  - destruct (slice m2 (7 * i) (7 * i + 2)) as [sd| |] eqn:Hs; try discriminate.
    destruct (slice m2 (7 * i + 2) (7 * i + 4)) as [fd| |] eqn:Hf; try discriminate.
    destruct (slice m2 (7 * i + 4) (7 * i + 7)) as [td| |] eqn:Ht; try discriminate.
    cbn [obind StartColumn FinishColumn].
    apply slice_Ret in Hs as (_ & _ & _ & _ & Hls).
    apply slice_Ret in Hf as (_ & _ & _ & _ & Hlf).
    pose proof (atoi_two_bytes sd ltac:(lia)) as Hbs.
    pose proof (atoi_two_bytes fd ltac:(lia)) as Hbf.
    destruct (Z.eqb_spec (atoi_ sd) cursor) as [Heq|Hne]; cbn [negb].
    + destruct (Z.ltb_spec (atoi_ fd) (atoi_ sd)) as [Hlt|Hge].
      * rewrite bool_decide_eq_false_2 by discriminate. apply IH.
      * rewrite bool_decide_eq_true_2 by reflexivity.
        intros H. apply IH in H as (new & -> & Hc & Hb).
        eexists (_ :: new). rewrite <- app_assoc. split; [reflexivity|].
        split; [|constructor; [cbn; lia | exact Hb]].
        cbn [contiguousFrom StartColumn FinishColumn]. repeat split; try lia.
        revert Hc. small64. auto.
    + rewrite bool_decide_eq_false_2 by discriminate. apply IH.
Qed.

Lemma parseRecordAdditions_spec (p : parser) (line : list ascii) (startColumn : Z)
    (additions : list RecordAddition) (err : option error) :
  parseRecordAdditions p line startColumn = Ret (additions, err) ->
  contiguousFrom startColumn additions /\
  Forall (fun a => FinishColumn a < 100) additions.
Proof.
  unfold parseRecordAdditions.
  destruct (Rx.find ijmRecordRx line) as [m|].
  - destruct (negb _).
    + destruct (index0 line); try discriminate. intros [= <- <-]. cbn. auto.
    + destruct (parseRecordAdditions_loop _ _ _ _ _ _) as [[adds errs]| |] eqn:Hl;
        try discriminate.
      cbn [obind]. intros [= <- <-].
      apply parseRecordAdditions_loop_spec in Hl as (new & -> & Hc & Hb). auto.
  - destruct (index0 line); try discriminate. intros [= <- <-]. cbn. auto.
Qed.

Lemma bytesValue_in_bounds (a : RecordAddition) (line : list ascii)
    (errs : list error) :
  1 <= StartColumn a -> StartColumn a <= FinishColumn a ->
  FinishColumn a < Int64.half ->
  FinishColumn a <= len line ->
  bytesValue a line errs = Ret (columnsOf a line, errs, true).
Proof.
  intros H1 H2 Hr3 H3. unfold bytesValue, columnsOf. unfold Int64.half in Hr3.
  destruct (Z.ltb_spec (len line) (FinishColumn a)); [lia|].
  pose proof (len_nonneg line). unfold len in *.
  assert (Hr : Int64.sub (StartColumn a) 1 = StartColumn a - 1)
    by (small64; reflexivity).
  rewrite Hr, slice_in_bounds by (unfold len; lia). cbn [obind].
  do 4 f_equal. lia.
Qed.

Lemma parseRecordAdditions_wf (p : parser) (line : list ascii) (startColumn : Z)
    (additions : list RecordAddition) (err : option error) :
  1 <= startColumn ->
  parseRecordAdditions p line startColumn = Ret (additions, err) ->
  Forall wellFormedAddition additions.
Proof.
  intros Hs H. apply parseRecordAdditions_spec in H as (Hc & Hb).
  apply Forall_forall. intros a Ha.
  destruct (contiguousFrom_bounds _ _ _ Hc Ha) as (H1 & H2).
  rewrite Forall_forall in Hb. specialize (Hb a Ha). cbn in Hb.
  unfold wellFormedAddition. lia.
Qed.

Lemma bytesValue_wf (a : RecordAddition) (line : list ascii) (errs : list error) :
  wellFormedAddition a ->
  bytesValue a line errs
  = if len line <? FinishColumn a
    then Ret ([], errs ++ [missingAdditionError a], false)
    else Ret (columnsOf a line, errs, true).
Proof.
  intros (H1 & H2 & H3).
  destruct (Z.ltb_spec (len line) (FinishColumn a)) as [Hlt|Hge].
  - unfold bytesValue. destruct (Z.ltb_spec (len line) (FinishColumn a)); [reflexivity|lia].
  - apply bytesValue_in_bounds; unfold Int64.half; lia.
Qed.

(** ** The matcher finds matches only *)

Section MatcherSound.
Import Rx RxSpec.

Lemma rmatch_sound (r : regex) :
  forall pos s c k x,
    rmatch r pos s c k = Some x ->
    exists w rest c',
      s = w ++ rest /\ Matches r pos w rest c c' /\
      k (pos + length w)%nat rest c' = Some x.
Proof.
  induction r as [|p|r1 IH1 r2 IH2|r1 IH1 r2 IH2|g r IH|i r IH| |];
    intros pos s c k x; cbn [rmatch].
  - intros H. exists [], s, c. rewrite Nat.add_0_r. repeat split; [constructor|exact H].
  - destruct s as [|a s]; [discriminate|].
    destruct (p a) eqn:Hp; [|discriminate]. intros H.
    exists [a], s, c. cbn [length]. rewrite Nat.add_1_r.
    repeat split; [now constructor|exact H].
  - intros H. apply IH1 in H as (w1 & rest1 & c1 & -> & Hm1 & H).
    apply IH2 in H as (w2 & rest & c2 & -> & Hm2 & H).
    exists (w1 ++ w2), rest, c2. rewrite <- app_assoc, length_app, Nat.add_assoc.
    repeat split; [econstructor; eassumption|exact H].
  - destruct (rmatch r1 pos s c k) as [y|] eqn:H1.
    + intros [= ->]. apply IH1 in H1 as (w & rest & c' & -> & Hm & H).
      exists w, rest, c'. repeat split; [now apply M_AltL|exact H].
    + intros H. apply IH2 in H as (w & rest & c' & -> & Hm & H).
      exists w, rest, c'. repeat split; [now apply M_AltR|exact H].
  - generalize (length s). intros fuel. revert pos s c.
    induction fuel as [|fuel IHf]; intros pos s c; cbn [star_loop].
    + intros H. exists [], s, c. rewrite Nat.add_0_r.
      repeat split; [constructor|exact H].
    + assert (Hstop : k pos s c = Some x ->
                exists w rest c', s = w ++ rest /\
                  Matches (Star g r) pos w rest c c' /\
                  k (pos + length w)%nat rest c' = Some x).
      { intros H. exists [], s, c. rewrite Nat.add_0_r.
        repeat split; [constructor|exact H]. }
      assert (Hmore : rmatch r pos s c
                  (fun pos' s' c' =>
                     if (pos <? pos')%nat
                     then star_loop g (rmatch r) k fuel pos' s' c'
                     else None) = Some x ->
                exists w rest c', s = w ++ rest /\
                  Matches (Star g r) pos w rest c c' /\
                  k (pos + length w)%nat rest c' = Some x).
      { intros H. apply IH in H as (w1 & rest1 & c1 & -> & Hm1 & H).
        destruct (pos <? pos + length w1)%nat; [|discriminate].
        apply IHf in H as (w2 & rest & c2 & -> & Hm2 & H).
        exists (w1 ++ w2), rest, c2.
        rewrite <- app_assoc, length_app, Nat.add_assoc.
        repeat split; [econstructor; eassumption|exact H]. }
      cbv zeta. destruct g.
      * destruct (rmatch r pos s c _) as [y|] eqn:Hm.
        -- intros [= ->]. now apply Hmore.
        -- exact Hstop.
      * destruct (k pos s c) as [y|] eqn:Hk.
        -- intros [= ->]. now apply Hstop.
        -- exact Hmore.
  - intros H. apply IH in H as (w & rest & c' & -> & Hm & H).
    exists w, rest, (set_cap i w c').
    replace (pos + length w - pos)%nat with (length w) in H by lia.
    rewrite take_app_length in H.
    repeat split; [now constructor|exact H].
  - destruct (Nat.eqb_spec pos 0) as [->|]; [|discriminate]. intros H.
    exists [], s, c. repeat split; [constructor|exact H].
  - destruct s; [|discriminate]. intros H.
    exists [], [], c. rewrite Nat.add_0_r. repeat split; [constructor|exact H].
Qed.

Lemma find_from_sound (r : regex) (s : list ascii) :
  forall pos x,
    find_from r pos s = Some x ->
    exists pre w rest c',
      s = pre ++ w ++ rest /\
      Matches r (pos + length pre) w rest [] c' /\
      x = set_cap 0 w c'.
Proof.
  induction s as [|a s IH]; intros pos x; cbn [find_from].
  - destruct (rmatch (Group 0 r) pos [] [] _) as [y|] eqn:H; [|discriminate].
    intros [= ->]. apply rmatch_sound in H as (w & rest & c' & Hs & Hm & [= <-]).
    inversion Hm; subst. exists [], w, rest, c'0.
    cbn [length app]. rewrite Nat.add_0_r. auto.
  - destruct (rmatch (Group 0 r) pos (a :: s) [] _) as [y|] eqn:H.
    + intros [= ->]. apply rmatch_sound in H as (w & rest & c' & Hs & Hm & [= <-]).
      inversion Hm; subst. exists [], w, rest, c'0.
      cbn [length app]. rewrite Nat.add_0_r. auto.
    + intros H'. apply IH in H' as (pre & w & rest & c' & -> & Hm & ->).
      exists (a :: pre), w, rest, c'. cbn [length app].
      rewrite Nat.add_succ_r. auto.
Qed.

Lemma find_sound (r : regex) (s : list ascii) (x : caps) :
  find r s = Some x ->
  exists pre w rest c',
    s = pre ++ w ++ rest /\ Matches r (length pre) w rest [] c' /\
    x = set_cap 0 w c'.
Proof. intros H. now apply find_from_sound in H. Qed.

End MatcherSound.

(** ** The shape of the captures of each grammar *)

Section Captures.
Import Rx RxSpec Grammar.

Lemma Matches_groupfree r pos w rest c c' :
  Matches r pos w rest c c' -> groupfree r = true -> c' = c.
Proof.
  intros H. induction H as
    [ | | r1 r2 pos w1 w2 rest c c1 c2 _ IH1 _ IH2
      | r1 r2 pos w rest c c' _ IH | r1 r2 pos w rest c c' _ IH
      | | g r pos w1 w2 rest c c1 c2 _ IH1 _ IH2
      | i r pos w rest c c' _ IH | | ];
    cbn [groupfree]; intros Hg; try reflexivity; try discriminate.
  - apply andb_prop in Hg as [Hg1 Hg2]. rewrite IH2, IH1; auto.
  - apply andb_prop in Hg as [Hg1 Hg2]. auto.
  - apply andb_prop in Hg as [Hg1 Hg2]. auto.
  - rewrite IH2, IH1; auto.
Qed.

Ltac inv_matches :=
  repeat match goal with
    | H : Matches (Seq _ _) _ _ _ _ _ |- _ => inversion H; subst; clear H
    | H : Matches (Group _ _) _ _ _ _ _ |- _ => inversion H; subst; clear H
    | H : Matches (Class _) _ _ _ _ _ |- _ => inversion H; subst; clear H
    | H : Matches (Alt _ _) _ _ _ _ _ |- _ => inversion H; subst; clear H
    | H : Matches Eps _ _ _ _ _ |- _ => inversion H; subst; clear H
    | H : Matches BeginText _ _ _ _ _ |- _ => inversion H; subst; clear H
    | H : Matches EndText _ _ _ _ _ |- _ => inversion H; subst; clear H
    | H : Matches (Star _ _) _ _ _ _ ?c' |- _ =>
        is_var c'; apply Matches_groupfree in H; [subst c' | reflexivity]
    end.

Ltac captures H :=
  apply find_sound in H as (pre & w & rest & c' & Hline & H & ->);
  cbv [seqs lit lit_bytes bytes list_ascii_of_string rep opt digit upper alnum
       digit_or_minus chr] in H;
  inv_matches; cbn [get_cap set_cap nth app length len]; cbn.

Lemma bRecordRx_captures (line : list ascii) (m : caps) :
  find bRecordRx line = Some m ->
  len (get_cap m 1) = 2 /\ len (get_cap m 2) = 2 /\ len (get_cap m 3) = 2 /\
  get_cap m 6 <> [] /\ get_cap m 9 <> [] /\ get_cap m 10 <> [].
Proof.
  intros H. unfold bRecordRx in H. captures H. repeat split; discriminate.
Qed.

Lemma bRecordRx_timeFields (line : list ascii) (m : caps) :
  find bRecordRx line = Some m -> timeFields m.
Proof.
  intros H. apply bRecordRx_captures in H. unfold timeFields. tauto.
Qed.

Lemma eRecordRx_timeFields (line : list ascii) (m : caps) :
  find eRecordRx line = Some m -> timeFields m.
Proof.
  intros H. unfold eRecordRx in H. captures H. repeat split.
Qed.

Lemma eRecordWithoutTLCRx_timeFields (line : list ascii) (m : caps) :
  find eRecordWithoutTLCRx line = Some m -> timeFields m.
Proof.
  intros H. unfold eRecordWithoutTLCRx in H. captures H. repeat split.
Qed.

Lemma fRecordRx_timeFields (line : list ascii) (m : caps) :
  find fRecordRx line = Some m -> timeFields m.
Proof.
  intros H. unfold fRecordRx in H. captures H. repeat split.
Qed.

Lemma knRecordRx_timeFields (line : list ascii) (m : caps) :
  find knRecordRx line = Some m -> timeFields m.
Proof.
  intros H. unfold knRecordRx in H. captures H. repeat split.
Qed.

Lemma hfdteRecordRx_timeFields (line : list ascii) (m : caps) :
  find hfdteRecordRx line = Some m -> timeFields m.
Proof.
  intros H. unfold hfdteRecordRx in H. captures H. repeat split.
Qed.

Lemma hfdteRecordValueRx_timeFields (value : list ascii) (m : caps) :
  find hfdteRecordValueRx value = Some m -> timeFields m.
Proof.
  intros H. unfold hfdteRecordValueRx in H. captures H; repeat split.
Qed.

Lemma cRecordWaypointRx_captures (line : list ascii) (m : caps) :
  find cRecordWaypointRx line = Some m ->
  get_cap m 3 <> [] /\ get_cap m 6 <> [].
Proof.
  intros H. unfold cRecordWaypointRx in H. captures H. split; discriminate.
Qed.

Lemma dRecordRx_captures (line : list ascii) (m : caps) :
  find dRecordRx line = Some m -> get_cap m 1 <> [].
Proof.
  intros H. unfold dRecordRx in H. captures H. discriminate.
Qed.

Lemma hRecordRx_captures (line : list ascii) (m : caps) :
  find hRecordRx line = Some m -> get_cap m 1 <> [].
Proof.
  intros H. unfold hRecordRx in H. captures H; discriminate.
Qed.

Lemma hRecordWithInvalidSourceRx_captures (line : list ascii) (m : caps) :
  find hRecordWithInvalidSourceRx line = Some m -> get_cap m 1 <> [].
Proof.
  intros H. unfold hRecordWithInvalidSourceRx in H. captures H; discriminate.
Qed.

Lemma hRecordWithInvalidSourceRx_source (line : list ascii) (m : caps) :
  find hRecordWithInvalidSourceRx line = Some m ->
  exists source, get_cap m 1 = [source].
Proof.
  intros H. unfold hRecordWithInvalidSourceRx in H. captures H; eauto.
Qed.

Lemma invalidCharsRx_captures (line : list ascii) (m : caps) :
  find invalidCharsRx line = Some m -> get_cap m 1 <> [].
Proof.
  intros H. unfold invalidCharsRx in H. captures H. discriminate.
Qed.

Lemma ijmRecordRx_captures (line : list ascii) (m : caps) :
  find ijmRecordRx line = Some m -> len (get_cap m 1) = 2.
Proof.
  intros H. unfold ijmRecordRx in H. captures H. reflexivity.
Qed.

Lemma Matches_Star_Class g p pos w rest c c' :
  Matches (Star g (Class p)) pos w rest c c' -> Forall (fun a => p a = true) w.
Proof.
  intros H. remember (Star g (Class p)) as r eqn:Er.
  induction H; try discriminate; [constructor|].
  injection Er as -> ->. inversion H; subst. constructor; auto.
Qed.

Lemma aRecordRx_shape (line : list ascii) (m : caps) :
  find aRecordRx line = Some m ->
  exists a b c rest,
    line = "A"%char :: a :: b :: c :: rest /\
    range "A" "Z" a = true /\ range "A" "Z" b = true /\
    range "A" "Z" c = true /\ ("010"%char ∉ rest) /\
    get_cap m 1 = [a; b; c] /\ get_cap m 2 = rest.
Proof.
  intros H. unfold aRecordRx in H.
  apply find_sound in H as (pre & w & rest & c' & Hline & H & ->).
  cbv [seqs lit lit_bytes bytes list_ascii_of_string rep opt digit upper alnum
       digit_or_minus chr] in H.
  repeat match goal with
    | H : Matches (Seq _ _) _ _ _ _ _ |- _ => inversion H; subst; clear H
    | H : Matches (Group _ _) _ _ _ _ _ |- _ => inversion H; subst; clear H
    | H : Matches (Class _) _ _ _ _ _ |- _ => inversion H; subst; clear H
    | H : Matches BeginText _ _ _ _ _ |- _ => inversion H; subst; clear H
    | H : Matches EndText _ _ _ _ _ |- _ => inversion H; subst; clear H
    end.
  pose proof (Matches_Star_Class _ _ _ _ _ _ _ H10) as Hdot.
  apply Matches_groupfree in H10; [subst c'0|reflexivity].
  symmetry in H. apply length_zero_iff_nil in H. subst pre.
  apply bool_decide_eq_true in H3. subst a2.
  exists a1, a0, a, w3. cbn. rewrite !app_nil_r. split_and!; auto.
  intros Hin. rewrite Forall_forall in Hdot. specialize (Hdot _ Hin).
  unfold dot in Hdot. cbn in Hdot. rewrite bool_decide_eq_true_2 in Hdot by reflexivity.
  discriminate.
Qed.

Lemma ijmRecordRx_shape (line : list ascii) (m : caps) :
  find ijmRecordRx line = Some m ->
  exists b,
    line = b :: get_cap m 1 ++ get_cap m 2 /\ len (get_cap m 1) = 2.
Proof.
  intros H. unfold ijmRecordRx in H.
  apply find_sound in H as (pre & w & rest & c' & Hline & H & ->).
  cbv [seqs lit lit_bytes bytes list_ascii_of_string rep opt digit upper alnum
       digit_or_minus chr] in H.
  repeat match goal with
    | H : Matches (Seq _ _) _ _ _ _ _ |- _ => inversion H; subst; clear H
    | H : Matches (Group _ _) _ _ _ _ _ |- _ => inversion H; subst; clear H
    | H : Matches (Class _) _ _ _ _ _ |- _ => inversion H; subst; clear H
    | H : Matches BeginText _ _ _ _ _ |- _ => inversion H; subst; clear H
    | H : Matches EndText _ _ _ _ _ |- _ => inversion H; subst; clear H
    | H : Matches (Star _ _) _ _ _ _ ?c' |- _ =>
        is_var c'; apply Matches_groupfree in H; [subst c' | reflexivity]
    end.
  match goal with H : 0%nat = length pre |- _ =>
    symmetry in H; apply length_zero_iff_nil in H; subst pre end.
  eexists. cbn. rewrite !app_nil_r. split; reflexivity.
Qed.

Ltac time_columns H :=
  apply find_sound in H as (pre & w & rest & c' & Hline & H & ->);
  cbv [seqs lit lit_bytes bytes list_ascii_of_string rep opt digit upper alnum
       digit_or_minus chr] in H;
  inv_matches;
  match goal with Hp : 0%nat = length pre |- _ =>
    symmetry in Hp; apply length_zero_iff_nil in Hp; subst pre end;
  unfold timeColumns, columns, len; cbn; rewrite ?app_nil_r, ?take_0;
  change isDigit with (range "0" "9");
  repeat match goal with
    | Hd : range "0" "9" ?a = true |- _ => rewrite Hd; clear Hd
    end;
  split_and!; reflexivity.

Lemma bRecordRx_timeColumns (line : list ascii) (m : caps) :
  find bRecordRx line = Some m -> timeColumns m line.
Proof. intros H. unfold bRecordRx in H. time_columns H. Qed.

Lemma eRecordRx_timeColumns (line : list ascii) (m : caps) :
  find eRecordRx line = Some m -> timeColumns m line.
Proof. intros H. unfold eRecordRx in H. time_columns H. Qed.

Lemma eRecordWithoutTLCRx_timeColumns (line : list ascii) (m : caps) :
  find eRecordWithoutTLCRx line = Some m -> timeColumns m line.
Proof. intros H. unfold eRecordWithoutTLCRx in H. time_columns H. Qed.

Lemma fRecordRx_timeColumns (line : list ascii) (m : caps) :
  find fRecordRx line = Some m -> timeColumns m line.
Proof. intros H. unfold fRecordRx in H. time_columns H. Qed.

Lemma knRecordRx_timeColumns (line : list ascii) (m : caps) :
  find knRecordRx line = Some m -> timeColumns m line.
Proof. intros H. unfold knRecordRx in H. time_columns H. Qed.

Lemma bRecordRx_columns (line : list ascii) (m : caps) :
  find bRecordRx line = Some m ->
  35 <= len line /\
  get_cap m 4 = columns 8 9 line /\ get_cap m 5 = columns 10 14 line /\
  get_cap m 6 = columns 15 15 line /\ get_cap m 7 = columns 16 18 line /\
  get_cap m 8 = columns 19 23 line /\ get_cap m 9 = columns 24 24 line /\
  get_cap m 10 = columns 25 25 line /\ get_cap m 11 = columns 26 30 line /\
  get_cap m 12 = columns 31 35 line /\
  (forallb isDigit (columns 8 9 line) = true /\ len (columns 8 9 line) = 2) /\
  (forallb isDigit (columns 10 14 line) = true /\ len (columns 10 14 line) = 5) /\
  (forallb isDigit (columns 16 18 line) = true /\ len (columns 16 18 line) = 3) /\
  (forallb isDigit (columns 19 23 line) = true /\ len (columns 19 23 line) = 5) /\
  (exists ns ew validity,
     columns 15 15 line = [ns] /\ columns 24 24 line = [ew] /\
     columns 25 25 line = [validity]).
Proof.
  intros H. unfold bRecordRx in H.
  apply find_sound in H as (pre & w & rest & c' & Hline & H & ->).
  cbv [seqs lit lit_bytes bytes list_ascii_of_string rep opt digit upper alnum
       digit_or_minus chr] in H.
  repeat match goal with
    | H : Matches (Seq _ _) _ _ _ _ _ |- _ => inversion H; subst; clear H
    | H : Matches (Group _ _) _ _ _ _ _ |- _ => inversion H; subst; clear H
    | H : Matches (Class _) _ _ _ _ _ |- _ => inversion H; subst; clear H
    | H : Matches BeginText _ _ _ _ _ |- _ => inversion H; subst; clear H
    | H : Matches EndText _ _ _ _ _ |- _ => inversion H; subst; clear H
    | H : Matches (Star _ _) _ _ _ _ ?c' |- _ =>
        is_var c'; apply Matches_groupfree in H; [subst c' | reflexivity]
    end.
  match goal with H : 0%nat = length pre |- _ =>
    symmetry in H; apply length_zero_iff_nil in H; subst pre end.
  unfold columns, len. cbn. rewrite ?app_nil_r, ?take_0.
  change isDigit with (range "0" "9").
  repeat match goal with
    | H : range "0" "9" ?a = true |- _ => rewrite H; clear H
    end.
  split_and!; try reflexivity; [lia|]. eexists _, _, _. split_and!; reflexivity.
Qed.

End Captures.

(** ** What a grammar does to the parser *)

Lemma obind_Ret {A B} (m : outcome A) (f : A -> outcome B) (b : B) :
  obind m f = Ret b -> exists a, m = Ret a /\ f a = Ret b.
Proof. destruct m; cbn; [eauto | discriminate | discriminate]. Qed.

Ltac inv_bind H :=
  let a := fresh "a" in
  let Ha := fresh "Hbind" in
  apply obind_Ret in H as (a & Ha & H);
  repeat match goal with x : (_ * _)%type |- _ => destruct x end;
  cbn beta iota in H.

Lemma parseTime_spec (p : parser) (h m s : list ascii) (ns : Z)
    (errs : list error) (t : Z) (errs' : list error) (p' : parser) :
  parseTime p h m s ns errs = Ret (t, errs', p') ->
  (date p = Time.zero /\ t = Time.zero /\ errs' = errs ++ [errNoDate] /\ p' = p) \/
  (date p <> Time.zero /\ errs' = errs /\
   exists k : nat,
     let d := timeOfDay (atoi_ h) (atoi_ m) (atoi_ s) ns in
     t = candidate (date p) d k /\ prevTime p <= t /\
     (forall j : nat, (j < k)%nat -> candidate (date p) d j < prevTime p) /\
     p' = set_prevTime t (set_date (Time.AddDays (date p) (Z.of_nat k)) p)).
Proof.
  unfold parseTime, Time.IsZero.
  destruct (Z.eqb_spec (date p) Time.zero) as [Hz|Hnz].
  - intros [= <- <- <-]. left. auto.
  - destruct (parseTime_loop _ _ _ _) as [[t' date']|] eqn:Hl; [|discriminate].
    intros [= <- <- <-]. right.
    apply parseTime_loop_spec in Hl as (k & _ & -> & -> & Hle & Hmin).
    repeat split; try assumption. exists k. cbv zeta. auto.
Qed.

Lemma parseTime_timeStep (p : parser) (h m s : list ascii) (ns : Z)
    (errs : list error) (t : Z) (errs' : list error) (p' : parser) :
  parseTime p h m s ns errs = Ret (t, errs', p') -> timeStep p p' t.
Proof.
  intros H. apply parseTime_spec in H as [(?&?&?&?)|(?&?&k&?&?&?&?)].
  - left. auto.
  - right. eauto 10.
Qed.

Lemma parseBRecord_time (p : parser) (line : list ascii) r err p' :
  parseBRecord p line = Ret (r, err, p') ->
  match r with
  | Some r => timeStep p p' (BRecord.Time r)
  | None => p' = p
  end.
Proof.
  unfold parseBRecord. destruct (Rx.find Grammar.bRecordRx line) as [m|].
  - intros H. inv_bind H. inv_bind H. apply parseTime_timeStep in Hbind0.
    do 6 inv_bind H. injection H as <- <- <-. exact Hbind0.
  - intros [= <- <- <-]. reflexivity.
Qed.

Lemma parseERecord_time (p : parser) (line : list ascii) record err p' :
  parseERecord p line = Ret (record, err, p') ->
  match recordTime record with
  | Some t => timeStep p p' t
  | None => p' = p
  end.
Proof.
  unfold parseERecord. destruct (Rx.find Grammar.eRecordRx line) as [m|].
  - intros H. inv_bind H. apply parseTime_timeStep in Hbind.
    injection H as <- <- <-. exact Hbind.
  - destruct (Rx.find Grammar.eRecordWithoutTLCRx line) as [m|].
    + intros H. inv_bind H. apply parseTime_timeStep in Hbind.
      injection H as <- <- <-. exact Hbind.
    + intros [= <- <- <-]. reflexivity.
Qed.

Lemma parseFRecord_time (p : parser) (line : list ascii) r err p' :
  parseFRecord p line = Ret (r, err, p') ->
  match r with
  | Some r => timeStep p p' (FRecord.Time r)
  | None => p' = p
  end.
Proof.
  unfold parseFRecord. destruct (Rx.find Grammar.fRecordRx line) as [m|].
  - intros H. inv_bind H. apply parseTime_timeStep in Hbind.
    inv_bind H. injection H as <- <- <-. exact Hbind.
  - intros [= <- <- <-]. reflexivity.
Qed.

Lemma parseKRecord_time (p : parser) (line : list ascii) r err p' :
  parseKRecord p line = Ret (r, err, p') ->
  match r with
  | Some r => timeStep p p' (KRecord.Time r)
  | None => p' = p
  end.
Proof.
  unfold parseKRecord. destruct (Rx.find Grammar.knRecordRx line) as [m|].
  - intros H. inv_bind H. apply parseTime_timeStep in Hbind.
    inv_bind H. injection H as <- <- <-. exact Hbind.
  - intros [= <- <- <-]. reflexivity.
Qed.

Lemma parseNRecord_time (p : parser) (line : list ascii) r err p' :
  parseNRecord p line = Ret (r, err, p') ->
  match r with
  | Some r => timeStep p p' (NRecord.Time r)
  | None => p' = p
  end.
Proof.
  unfold parseNRecord. destruct (Rx.find Grammar.knRecordRx line) as [m|].
  - intros H. inv_bind H. apply parseTime_timeStep in Hbind.
    inv_bind H. injection H as <- <- <-. exact Hbind.
  - intros [= <- <- <-]. reflexivity.
Qed.

Lemma parseCRecord_shape (p : parser) (line : list ascii) record err :
  parseCRecord p line = Ret (record, err) ->
  record = nilRecord \/ (exists r, record = ptrCRecordDeclaration r) \/
  (exists r, record = ptrCRecordWaypoint r).
Proof.
  unfold parseCRecord, parseCRecordWaypoint.
  destruct (if len (cRecords p) =? 0 then _ else _) as [d|].
  - intros [= <- <-]. eauto.
  - destruct (Rx.find Grammar.cRecordWaypointRx line) as [m|].
    + intros H. do 2 inv_bind H. injection H as <- <-. eauto.
    + intros [= <- <-]. eauto.
Qed.

Lemma parseLRecord_shape (p : parser) (line : list ascii) record err :
  parseLRecord p line = Ret (record, err) ->
  record = nilRecord \/ (exists r, record = ptrLRecord r) \/
  (exists r, record = ptrLRecordWithoutTLC r).
Proof.
  unfold parseLRecord.
  destruct (Rx.find Grammar.lRecordRx line) as [m|].
  - intros [= <- <-]. eauto.
  - destruct (Rx.find Grammar.lRecordWithoutTLCRx line) as [m|];
      intros [= <- <-]; eauto.
Qed.

Lemma hfdteDate_positive (d m y : list ascii) :
  len d = 2 -> len m = 2 -> len y = 2 ->
  0 < hfdteDate d m y /\ hfdteDate d m y mod Time.Second = 0.
Proof.
  intros Hd Hm Hy.
  pose proof (atoi_two_bytes d Hd) as Bd.
  pose proof (atoi_two_bytes m Hm) as Bm.
  pose proof (atoi_two_bytes y Hy) as By.
  unfold hfdteDate, Time.Date. split.
  - set (year := makeYear (atoi_ y)).
    assert (Hyear : 1901 <= year).
    { unfold year, makeYear. destruct (Z.leb_spec 93 (atoi_ y)); lia. }
    set (mo := atoi_ m - 1).
    assert (Hq : -9 <= mo / 12) by (apply Z.div_le_lower_bound; lia).
    assert (Hy' : 1892 <= year + mo / 12) by lia.
    assert (Hdb : 0 <= Time.daysBefore (mo mod 12)).
    { pose proof (Z.mod_pos_bound mo 12 ltac:(lia)) as Hmod.
      unfold Time.daysBefore.
      assert (Hc : (Z.to_nat (mo mod 12) < 12)%nat) by lia.
      revert Hc. generalize (Z.to_nat (mo mod 12)). intros n Hn.
      do 12 (destruct n as [|n]; [cbn; lia|]). lia. }
    assert (Hds : 690000 <= Time.daysSinceYear1 (year + mo / 12)).
    { unfold Time.daysSinceYear1. set (yy := year + mo / 12 - 1).
      assert (1891 <= yy) by (unfold yy; lia).
      pose proof (Z.div_pos yy 4 ltac:(lia) ltac:(lia)).
      pose proof (Z.div_pos yy 400 ltac:(lia) ltac:(lia)).
      assert (yy / 100 <= yy / 4).
      { apply Z.div_le_compat_l; lia. }
      cbv zeta. fold yy. lia. }
    unfold Time.Second.
    destruct (Time.isLeap _ && _); lia.
  - rewrite Z.add_0_r. apply Z.mod_mul. unfold Time.Second. lia.
Qed.

Ltac hshape :=
  repeat match goal with |- _ /\ _ => split end;
  try reflexivity; try discriminate.

Lemma parseHRecord_shape (p : parser) (line : list ascii) record err :
  parseHRecord p line = Ret (record, err) ->
  recordTime record = None /\
  (forall r, record = ptrIRecord r -> False) /\
  (forall r, record = ptrJRecord r -> False) /\
  (forall r, record = ptrMRecord r -> False) /\
  (forall r, record = ptrHFDTERecord (Some r) ->
     0 < HFDTERecord.Date r /\ HFDTERecord.Date r mod Time.Second = 0).
Proof.
  assert (Hdate : forall m, timeFields m ->
            0 < hfdteDate (Rx.get_cap m 1) (Rx.get_cap m 2) (Rx.get_cap m 3) /\
            hfdteDate (Rx.get_cap m 1) (Rx.get_cap m 2) (Rx.get_cap m 3)
              mod Time.Second = 0).
  { intros m (?&?&?). now apply hfdteDate_positive. }
  unfold parseHRecord.
  destruct (Rx.find Grammar.hfdteRecordRx line) as [m|] eqn:Hm.
  { intros [= <- <-]. hshape.
    intros r [= <-]. cbn. apply Hdate. eapply hfdteRecordRx_timeFields, Hm. }
  destruct (Rx.find Grammar.hffxaRecordRx line) as [m1|].
  { intros [= <- <-]. hshape. }
  destruct (Rx.find Grammar.hRecordRx line) as [m2|].
  - intros H. inv_bind H.
    destruct (bool_decide _).
    + destruct (Rx.find Grammar.hfdteRecordValueRx _) as [m3|] eqn:Hm3.
      * injection H as <- <-. hshape.
        intros r [= <-]. cbn. apply Hdate.
        eapply hfdteRecordValueRx_timeFields, Hm3.
      * injection H as <- <-. hshape.
    + injection H as <- <-. hshape.
  - destruct (Rx.find Grammar.hRecordWithInvalidSourceRx line) as [m3|].
    + intros H. inv_bind H. injection H as <- <-.
      hshape.
    + intros [= <- <-]. hshape.
Qed.

Lemma dispatch_cases (p : parser) (line : list ascii) record err p' :
  dispatch p line = Ret (record, err, p') -> Dispatched p line record err p'.
Proof.
  unfold dispatch. intros H. inv_bind H.
  repeat match type of H with
    | (if Ascii.eqb ?x ?y then _ else _) = _ =>
        destruct (Ascii.eqb_spec x y) as [->|]
    end.
  15: { injection H as <- <- <-. apply D_unknown; [assumption|].
        cbn. rewrite !elem_of_cons. rewrite elem_of_nil. intuition congruence. }
  all: try (inv_bind H; injection H as <- <- <-).
  - now apply D_A.
  - now apply D_B.
  - now apply D_C.
  - now apply D_D.
  - now apply D_E.
  - now apply D_F.
  - now apply D_G.
  - now apply D_H.
  - now apply D_I.
  - now apply D_J.
  - now apply D_K.
  - now apply D_L.
  - now apply D_M.
  - now apply D_N.
Qed.

(** ** Timestamps never decrease *)

Lemma dispatch_time (p : parser) (line : list ascii) record err p' :
  dispatch p line = Ret (record, err, p') ->
  match recordTime record with
  | Some t => timeStep p p' t
  | None => p' = p
  end.
Proof.
  intros H. apply dispatch_cases in H.
  destruct H as
    [ r err _ _ | r err p' _ H | record err _ H | r err _ _ | record err p' _ H
    | r err p' _ H | r err _ _ | record err _ H | r err _ _ | r err _ _
    | r err p' _ H | record err _ H | r err _ _ | r err p' _ H | b _ _ ];
    try reflexivity.
  - apply parseBRecord_time in H. destruct r; [exact H | now subst].
  - apply parseCRecord_shape in H as [->|[[r ->]|[r ->]]]; reflexivity.
  - now apply parseERecord_time in H.
  - apply parseFRecord_time in H. destruct r; [exact H | now subst].
  - apply parseHRecord_shape in H as (-> & _). reflexivity.
  - apply parseKRecord_time in H. destruct r; [exact H | now subst].
  - apply parseLRecord_shape in H as [->|[[r ->]|[r ->]]]; reflexivity.
  - apply parseNRecord_time in H. destruct r; [exact H | now subst].
Qed.

Lemma parseERecord_shape (p : parser) (line : list ascii) record err p' :
  parseERecord p line = Ret (record, err, p') ->
  record = nilRecord \/ (exists r, record = ptrERecord (Some r)) \/
  (exists r, record = ptrERecordWithoutTLC (Some r)).
Proof.
  unfold parseERecord. destruct (Rx.find Grammar.eRecordRx line) as [m|].
  - intros H. inv_bind H. injection H as <- <- <-. eauto.
  - destruct (Rx.find Grammar.eRecordWithoutTLCRx line) as [m|].
    + intros H. inv_bind H. injection H as <- <- <-. eauto.
    + intros [= <- <- <-]. eauto.
Qed.

Lemma dispatch_hfdte (p : parser) (line : list ascii) r err p' :
  dispatch p line = Ret (ptrHFDTERecord (Some r), err, p') ->
  0 < HFDTERecord.Date r /\ HFDTERecord.Date r mod Time.Second = 0.
Proof.
  intros H. apply dispatch_cases in H. inversion H; subst.
  - match goal with H : parseCRecord _ _ = _ |- _ =>
      apply parseCRecord_shape in H as [?|[[? ?]|[? ?]]]; discriminate end.
  - match goal with H : parseERecord _ _ = _ |- _ =>
      apply parseERecord_shape in H as [?|[[? ?]|[? ?]]]; discriminate end.
  - match goal with H : parseHRecord _ _ = _ |- _ =>
      apply parseHRecord_shape in H as (_ & _ & _ & _ & H) end. auto.
  - match goal with H : parseLRecord _ _ = _ |- _ =>
      apply parseLRecord_shape in H as [?|[[? ?]|[? ?]]]; discriminate end.
Qed.

Lemma installIRecord_frame (record : IRecord.t) (p p' : parser) :
  installIRecord record p = Ret p' ->
  allowInvalidChars p' = allowInvalidChars p /\
  date p' = date p /\ prevTime p' = prevTime p /\ cRecords p' = cRecords p /\
  kRecordAdditions p' = kRecordAdditions p /\
  nRecordAdditions p' = nRecordAdditions p /\
  bRecordAdditions p' = bRecordAdditions p ++ IRecord.Additions record /\
  bRecordsAdditionsByTLC p'
  = foldl (fun m a => <[TLC a := a]> m) (bRecordsAdditionsByTLC p)
      (IRecord.Additions record).
Proof.
  unfold installIRecord. intros H.
  inv_bind H. inv_bind H.
  assert (Ha : allowInvalidChars a = allowInvalidChars p /\
    date a = date p /\ prevTime a = prevTime p /\ cRecords a = cRecords p /\
    kRecordAdditions a = kRecordAdditions p /\
    nRecordAdditions a = nRecordAdditions p /\
    bRecordAdditions a = bRecordAdditions p ++ IRecord.Additions record /\
    bRecordsAdditionsByTLC a
    = foldl (fun m a => <[TLC a := a]> m) (bRecordsAdditionsByTLC p)
        (IRecord.Additions record)).
  { revert Hbind. cbn [bRecordsAdditionsByTLC set_bRecordAdditions].
    destruct (_ !! "LAD"); intros Hb; [do 2 inv_bind Hb|];
      injection Hb as <-; cbn; auto 10. }
  assert (Ha0 : allowInvalidChars a0 = allowInvalidChars a /\
    date a0 = date a /\ prevTime a0 = prevTime a /\ cRecords a0 = cRecords a /\
    kRecordAdditions a0 = kRecordAdditions a /\
    nRecordAdditions a0 = nRecordAdditions a /\
    bRecordAdditions a0 = bRecordAdditions a /\
    bRecordsAdditionsByTLC a0 = bRecordsAdditionsByTLC a).
  { revert Hbind0.
    destruct (_ !! "LOD"); intros Hb; [do 2 inv_bind Hb|];
      injection Hb as <-; cbn; auto 10. }
  assert (Hp' : allowInvalidChars p' = allowInvalidChars a0 /\
    date p' = date a0 /\ prevTime p' = prevTime a0 /\ cRecords p' = cRecords a0 /\
    kRecordAdditions p' = kRecordAdditions a0 /\
    nRecordAdditions p' = nRecordAdditions a0 /\
    bRecordAdditions p' = bRecordAdditions a0 /\
    bRecordsAdditionsByTLC p' = bRecordsAdditionsByTLC a0).
  { revert H.
    destruct (_ !! "TDS"); intros Hb; [inv_bind Hb|];
      injection Hb as <-; cbn; auto 10. }
  destruct Ha as (?&?&?&?&?&?&?&?), Ha0 as (?&?&?&?&?&?&?&?),
    Hp' as (?&?&?&?&?&?&?&?).
  repeat split; congruence.
Qed.

Lemma updateState_records (record : Record) (st st' : loopState) :
  updateState record st = Ret st' ->
  st_records st' = st_records st /\ st_errs st' = st_errs st /\
  prevTime (st_parser st') = prevTime (st_parser st) /\
  date (st_parser st')
  = match record with
    | ptrHFDTERecord (Some r) => HFDTERecord.Date r
    | _ => date (st_parser st)
    end.
Proof.
  unfold updateState. intros H.
  destruct record as [|[r|]|[r|]|[r|]|[r|]|[r|]|[r|]|[r|]|[r|]|[r|]|[r|]|[r|]
                      |[r|]|[r|]|[r|]|[r|]|[r|]|[r|]|[r|]|[r|]];
    try (injection H as <-; cbn; auto; fail).
  inv_bind H. injection H as <-. cbn.
  apply installIRecord_frame in Hbind as (?&?&?&?). auto.
Qed.

Lemma parseLine_inv (i : Z) (lineStr : string) (st st' : loopState) :
  parseLine i lineStr st = Ret st' ->
  (isEmptyLine lineStr = true /\ st' = st) \/
  (isEmptyLine lineStr = false /\
   exists record err p1 err',
     dispatch (st_parser st) (bytes lineStr) = Ret (record, err, p1) /\
     checkInvalidChars p1 lineStr err = Ret err' /\
     updateState record
       (mkLoopState p1 (st_records st ++ [record]) (st_bRecords st)
          (st_hRecordsByTLC st) (st_kRecords st)
          match err' with
          | Some e => st_errs st ++ [mkError (i + 1) e]
          | None => st_errs st
          end) = Ret st').
Proof.
  unfold parseLine, isEmptyLine.
  destruct (len (bytes lineStr) =? 0).
  - intros [= <-]. auto.
  - intros H. right. split; [reflexivity|].
    inv_bind H. inv_bind H. eauto 10.
Qed.

Lemma parseLines_loop_app (lines1 lines2 : list string) (i : Z) (st : loopState) :
  parseLines_loop i (lines1 ++ lines2) st
  = let* st1 := parseLines_loop i lines1 st in
    parseLines_loop (i + len lines1) lines2 st1.
Proof.
  revert i st. induction lines1 as [|l lines1 IH]; intros i st; cbn [app parseLines_loop].
  - cbn [obind]. f_equal. unfold len. cbn. lia.
  - destruct (parseLine i l st) as [st1| |]; cbn [obind]; [|reflexivity..].
    rewrite IH. replace (i + 1 + len lines1) with (i + len (l :: lines1)); [reflexivity|].
    unfold len. cbn [length]. lia.
Qed.

Lemma reached_nil (flags : list bool) (st : loopState) :
  reached flags [] st <-> st = initialState (newParser (optionsOf flags)).
Proof. unfold reached. cbn. split; [intros [= <-]|intros ->]; reflexivity. Qed.

Lemma reached_snoc (flags : list bool) (lines : list string) (l : string)
    (st' : loopState) :
  reached flags (lines ++ [l]) st' <->
  exists st, reached flags lines st /\ parseLine (len lines) l st = Ret st'.
Proof.
  unfold reached. rewrite parseLines_loop_app. cbn [parseLines_loop]. split.
  - intros H. inv_bind H. inv_bind H. injection H as <-.
    rewrite Z.add_0_l in Hbind0. eauto.
  - intros (st & -> & H). cbn [obind]. rewrite Z.add_0_l, H. reflexivity.
Qed.

(** An invariant of the loop of [parseLines] is one of every reached
    state. *)
Lemma reached_ind (flags : list bool) (P : list string -> loopState -> Prop) :
  P [] (initialState (newParser (optionsOf flags))) ->
  (forall lines l st st',
     reached flags lines st -> P lines st ->
     parseLine (len lines) l st = Ret st' -> P (lines ++ [l]) st') ->
  forall lines st, reached flags lines st -> P lines st.
Proof.
  intros H0 Hstep lines. induction lines as [|l lines IH] using rev_ind; intros st.
  - rewrite reached_nil. now intros ->.
  - rewrite reached_snoc. intros (st0 & Hr & Hl). eauto.
Qed.

Lemma ParseLines_reached (flags : list bool) (lines : list string) (igc : IGC) :
  ParseLines lines (optionsOf flags) = Ret igc <->
  exists st, reached flags lines st /\ igc = documentOf st.
Proof.
  unfold ParseLines, parseLines, reached. split.
  - intros H. inv_bind H. injection H as <-. eauto.
  - intros (st & -> & ->). reflexivity.
Qed.

Lemma newParser_fields (flags : list bool) :
  let p := newParser (optionsOf flags) in
  date p = Time.zero /\ prevTime p = Time.zero /\ cRecords p = [] /\
  bRecordAdditions p = [] /\ bRecordsAdditionsByTLC p = ∅ /\
  ladBRecordAddition p = None /\ lodBRecordAddition p = None /\
  tdsBRecordAddition p = None /\ fracSecondMul p = 1000000000 /\
  kRecordAdditions p = [] /\ nRecordAdditions p = [].
Proof.
  unfold newParser, optionsOf. cbv zeta.
  match goal with
  | |- context [foldl _ ?p0 _] =>
      assert (H0 : date p0 = Time.zero /\ prevTime p0 = Time.zero /\
        cRecords p0 = [] /\
        bRecordAdditions p0 = [] /\ bRecordsAdditionsByTLC p0 = ∅ /\
        ladBRecordAddition p0 = None /\ lodBRecordAddition p0 = None /\
        tdsBRecordAddition p0 = None /\ fracSecondMul p0 = 1000000000 /\
        kRecordAdditions p0 = [] /\ nRecordAdditions p0 = [])
        by (cbn; auto 12);
      revert H0; generalize p0
  end.
  induction flags as [|b flags IH]; intros p0 H0; cbn [map foldl]; [exact H0|].
  apply IH. unfold WithAllowInvalidChars. cbn. exact H0.
Qed.

Lemma timestamps_snoc (records : list Record) (record : Record) :
  timestamps (records ++ [record])
  = timestamps records ++ match recordTime record with
                          | Some t => [t]
                          | None => []
                          end.
Proof.
  unfold timestamps. rewrite omap_app. cbn. now destruct (recordTime record).
Qed.

Lemma StronglySorted_snoc (l : list Z) (t : Z) :
  StronglySorted Z.le l -> Forall (fun x => x <= t) l ->
  StronglySorted Z.le (l ++ [t]).
Proof.
  induction 1 as [|x l Hs IH Hx]; intros Hall; cbn.
  - repeat constructor.
  - apply Forall_cons in Hall as [Hxt Hall]. constructor; [auto|].
    apply Forall_app. split; [exact Hx|]. constructor; [exact Hxt|constructor].
Qed.

Lemma AddDays_mod (date : Z) (k : Z) :
  date mod Time.Second = 0 -> Time.AddDays date k mod Time.Second = 0.
Proof.
  unfold Time.AddDays, Time.Day, Time.Hour, Time.Minute. intros H.
  replace (date + k * (24 * (60 * (60 * Time.Second))))
    with (date + (k * 86400) * Time.Second) by lia.
  rewrite Z.mod_add; [exact H | unfold Time.Second; lia].
Qed.

Lemma timeInv_step (i : Z) (l : string) (st st' : loopState) :
  timeInv st -> parseLine i l st = Ret st' ->
  timeInv st' /\ prevTime (st_parser st) <= prevTime (st_parser st').
Proof.
  intros (Hd & Hp & Hz & Hm & Hall & Hs) H.
  apply parseLine_inv in H as [(_ & ->)|(_ & record & err & p1 & err' & Hdis & _ & Hup)].
  { split; [|lia]. unfold timeInv. auto 10. }
  pose proof (dispatch_time _ _ _ _ _ Hdis) as Ht.
  apply updateState_records in Hup as (Hrec & _ & Hprev & Hdate).
  cbn [st_records st_parser] in *.
  unfold timeInv. rewrite Hrec, Hprev, Hdate, timestamps_snoc.
  destruct (recordTime record) as [t|] eqn:Hrt.
  - assert (Hnh : match record with
                  | ptrHFDTERecord (Some r) => HFDTERecord.Date r
                  | _ => date p1
                  end = date p1).
    { destruct record as [|[r|]|[r|]|[r|]|[r|]|[r|]|[r|]|[r|]|[r|]|[r|]|[r|]|[r|]
                          |[r|]|[r|]|[r|]|[r|]|[r|]|[r|]|[r|]|[r|]];
        try reflexivity; discriminate. }
    rewrite Hnh.
    destruct Ht as [(Hz0 & -> & ->)|(Hnz & Hle & d & k & -> & Hmin & ->)].
    + specialize (Hz Hz0). unfold Time.zero in *. rewrite Hz in Hall |- *.
      split; [|lia]. split_and!; try assumption; try lia.
      * apply Forall_app. split; [exact Hall|]. constructor; [lia|constructor].
      * now apply StronglySorted_snoc.
    + cbn [date prevTime set_prevTime set_date]. unfold Time.zero in *.
      assert (Hk : 0 <= Z.of_nat k * Time.Day)
        by (unfold Time.Day, Time.Hour, Time.Minute, Time.Second; lia).
      split; [|lia]. split_and!; try (unfold Time.AddDays; lia).
      * now apply AddDays_mod.
      * apply Forall_app. split; [|constructor; [lia|constructor]].
        eapply Forall_impl; [exact Hall|]. cbn. intros; lia.
      * apply StronglySorted_snoc; [exact Hs|].
        eapply Forall_impl; [exact Hall|]. cbn. intros; lia.
  - subst p1. rewrite app_nil_r.
    assert (Hnew : forall r, record = ptrHFDTERecord (Some r) ->
              0 < HFDTERecord.Date r /\ HFDTERecord.Date r mod Time.Second = 0).
    { intros r ->. eapply dispatch_hfdte, Hdis. }
    split; [|lia].
    destruct record as [|[r|]|[r|]|[r|]|[r|]|[r|]|[r|]|[r|]|[r|]|[r|]|[r|]|[r|]
                        |[r|]|[r|]|[r|]|[r|]|[r|]|[r|]|[r|]|[r|]];
      try (split_and!; assumption).
    destruct (Hnew r eq_refl) as (Hpos & Hmod). unfold Time.zero.
    split_and!; try assumption; lia.
Qed.

Lemma reached_timeInv (flags : list bool) (lines : list string) (st : loopState) :
  reached flags lines st -> timeInv st.
Proof.
  revert lines st. apply reached_ind.
  - unfold timeInv. cbn [initialState st_parser st_records timestamps omap].
    destruct (newParser_fields flags) as (-> & -> & _). unfold Time.zero.
    split_and!; try lia; try constructor.
  - intros lines l st st' _ IH H. now apply (timeInv_step _ _ _ _ IH) in H.
Qed.

Lemma updateState_timed (record : Record) (st st' : loopState) (t : Z) :
  recordTime record = Some t -> updateState record st = Ret st' ->
  st_parser st' = st_parser st.
Proof.
  destruct record as [|[r|]|[r|]|[r|]|[r|]|[r|]|[r|]|[r|]|[r|]|[r|]|[r|]|[r|]
                      |[r|]|[r|]|[r|]|[r|]|[r|]|[r|]|[r|]|[r|]];
    try discriminate; intros _ [= <-]; reflexivity.
Qed.

(** ** One slot for each line that is not empty *)

Lemma updateState_returns_untimed (record : Record) (st : loopState) :
  (forall r, record <> ptrIRecord (Some r)) -> returns (updateState record st).
Proof.
  intros HI. unfold returns, updateState.
  destruct record as [|[r|]|[r|]|[r|]|[r|]|[r|]|[r|]|[r|]|[r|]|[r|]|[r|]|[r|]
                      |[r|]|[r|]|[r|]|[r|]|[r|]|[r|]|[r|]|[r|]]; eauto.
  now destruct (HI r).
Qed.

Lemma nonEmptyLines_snoc (lines : list string) (l : string) :
  nonEmptyLines (lines ++ [l])
  = nonEmptyLines lines ++ (if isEmptyLine l then [] else [l]).
Proof.
  unfold nonEmptyLines. rewrite List.filter_app. cbn.
  now destruct (isEmptyLine l).
Qed.

Lemma tagsNonEmptyLine_snoc (lines : list string) (l : string) (e : Error) :
  tagsNonEmptyLine lines e -> tagsNonEmptyLine (lines ++ [l]) e.
Proof.
  intros (H1 & l' & Hl & He). split; [exact H1|]. exists l'. split; [|exact He].
  apply lookup_app_l_Some. exact Hl.
Qed.

Lemma slots_step (lines : list string) (l : string) (st st' : loopState) :
  length (st_records st) = length (nonEmptyLines lines) ->
  Forall (tagsNonEmptyLine lines) (st_errs st) ->
  parseLine (len lines) l st = Ret st' ->
  length (st_records st') = length (nonEmptyLines (lines ++ [l])) /\
  Forall (tagsNonEmptyLine (lines ++ [l])) (st_errs st') /\
  (isEmptyLine l = true -> st' = st).
Proof.
  intros Hlen Herr H. rewrite nonEmptyLines_snoc, length_app.
  assert (Herr' : Forall (tagsNonEmptyLine (lines ++ [l])) (st_errs st)).
  { eapply Forall_impl; [exact Herr|]. intros e. apply tagsNonEmptyLine_snoc. }
  apply parseLine_inv in H
    as [(He & ->)|(He & record & err & p1 & err' & _ & _ & Hup)]; rewrite He.
  - cbn. split; [lia|]. split; [exact Herr'|]. auto.
  - apply updateState_records in Hup as (-> & -> & _).
    cbn [st_records st_errs]. rewrite length_app. cbn [length].
    split; [lia|]. split; [|discriminate].
    destruct err' as [e|]; [|exact Herr'].
    apply Forall_app. split; [exact Herr'|]. constructor; [|constructor].
    unfold tagsNonEmptyLine. cbn [Line]. pose proof (len_nonneg lines).
    split; [lia|]. exists l. split; [|exact He].
    replace (Z.to_nat (len lines + 1 - 1)) with (length lines)
      by (unfold len; lia).
    rewrite lookup_app_r by lia. now rewrite Nat.sub_diag.
Qed.

(** C6, as amended.  The record list of the document has exactly one
    slot for each input line that is not empty, lines that could not be
    parsed included; every error is tagged with the number of a line
    that is not empty; and an empty line leaves the whole state of the
    loop as it was, so it adds neither a slot nor an error. *)
Theorem one_slot_per_nonempty_line (flags : list bool) (lines : list string)
    (st : loopState) :
  reached flags lines st ->
  ParseLines lines (optionsOf flags) = Ret (documentOf st) /\
  length (Records (documentOf st)) = length (nonEmptyLines lines) /\
  Forall (tagsNonEmptyLine lines) (Errs (documentOf st)) /\
  forall l : string,
    isEmptyLine l = true -> parseLine (len lines) l st = Ret st.
Proof.
  intros Hr. split; [apply ParseLines_reached; eauto|].
  cbn [Records Errs documentOf].
  assert (H : length (st_records st) = length (nonEmptyLines lines) /\
              Forall (tagsNonEmptyLine lines) (st_errs st)).
  { revert lines st Hr. apply reached_ind.
    - cbn. split; [reflexivity|constructor].
    - intros lines l st st' _ (IH1 & IH2) Hl.
      destruct (slots_step _ _ _ _ IH1 IH2 Hl) as (? & ? & _). auto. }
  destruct H as (H1 & H2). split; [exact H1|]. split; [exact H2|].
  intros l He. unfold parseLine. unfold isEmptyLine in He. now rewrite He.
Qed.

Lemma one_slot_per_nonempty_line_witness :
  reached [] emptyLineLines emptyLineState /\
  length (Records (documentOf emptyLineState)) = 2%nat.
Proof.
  assert (H : reached [] emptyLineLines emptyLineState) by (vm_compute; reflexivity).
  split; [exact H|].
  exact (proj1 (proj2 (one_slot_per_nonempty_line [] emptyLineLines emptyLineState H))).
Defined.

(** C6 as stated fails: the input of three lines, one of them empty, has
    a record list of two slots, not three. *)
Lemma empty_line_has_no_slot :
  exists igc,
    ParseLines emptyLineLines [] = Ret igc /\
    length (Records igc) = 2%nat /\ length emptyLineLines = 3%nat.
Proof. eexists. split; [vm_compute; reflexivity|]. split; reflexivity. Qed.

(** ** Unknown record types *)

(** Membership of a given byte in a given list of bytes. *)
Ltac by_decide :=
  rewrite list_elem_of_In; cbn;
  first [tauto | intuition discriminate].

Lemma dispatch_unknown (p : parser) (b : ascii) (rest : list ascii) :
  b ∉ bytes "ABCDEFGHIJKLMN" ->
  dispatch p (b :: rest) = Ret (nilRecord, Some (unknownRecordTypeError b), p).
Proof.
  intros Hb. unfold dispatch. cbn [index0 obind].
  repeat match goal with
    | |- (if Ascii.eqb ?x ?y then _ else _) = _ =>
        destruct (Ascii.eqb_spec x y) as [->|_];
        [exfalso; apply Hb; by_decide|]
    end.
  reflexivity.
Qed.

Lemma checkInvalidChars_unknown (p : parser) (lineStr : string) (e : error) :
  exists err,
    checkInvalidChars p lineStr (Some e) = Ret (Some err) /\
    (err = e \/ exists msg, err = joinError [e; errorString msg]) /\
    (allowInvalidChars p = true -> err = e) /\
    (Rx.find Grammar.invalidCharsRx (bytes lineStr) = None -> err = e).
Proof.
  unfold checkInvalidChars. destruct (allowInvalidChars p); cbn [negb].
  { exists e. auto. }
  destruct (Rx.find Grammar.invalidCharsRx (bytes lineStr)) as [m|] eqn:Hm.
  - apply invalidCharsRx_captures in Hm.
    destruct (Rx.get_cap m 1) as [|c w]; [contradiction|]. cbn [index0 obind].
    eexists. split; [reflexivity|].
    split; [right; destruct (_ && _); eauto|].
    split; discriminate.
  - exists e. auto.
Qed.

Lemma ParseLines_X (flags : list bool) :
  ParseLines ["X"%string] (optionsOf flags) = Ret unknownXDocument.
Proof.
  unfold ParseLines, parseLines. cbn [parseLines_loop].
  unfold parseLine. cbn [bytes list_ascii_of_string len length Z.of_nat Z.eqb
                         Pos.of_succ_nat].
  rewrite dispatch_unknown by by_decide. cbn [obind initialState st_parser].
  destruct (checkInvalidChars_unknown (newParser (optionsOf flags)) "X"
              (unknownRecordTypeError "X")) as (err & -> & _ & _ & Herr).
  rewrite Herr by (vm_compute; reflexivity). reflexivity.
Qed.

(** C7. The single line ["X"] yields one record slot holding no record
    and one error, the unknown-record-type error of ['X'] tagged with
    line 1.  In general a line whose first byte is none of [A] to [N]
    always returns, appends a slot holding no record and one error for
    its line number, which is the unknown-record-type error of that
    byte, joined with an invalid-character error when the line has a
    character that is not allowed and they are checked; the message of
    the error shows the byte itself when it is printable and as a quoted
    backslash, x and two upper-case hexadecimal digits when it is not. *)
Theorem unknown_record_type (flags : list bool) (lines : list string)
    (st : loopState) (l : string) (b : ascii) (rest : list ascii) :
  reached flags lines st ->
  bytes l = b :: rest ->
  b ∉ bytes "ABCDEFGHIJKLMN" ->
  ParseLines ["X"%string] (optionsOf flags) = Ret unknownXDocument /\
  unknownRecordTypeError_Error "X" = "X: unknown record type"%string /\
  exists err,
    parseLine (len lines) l st
    = Ret (mkLoopState (st_parser st) (st_records st ++ [nilRecord])
             (st_bRecords st) (st_hRecordsByTLC st) (st_kRecords st)
             (st_errs st ++ [mkError (len lines + 1) err])) /\
    (err = unknownRecordTypeError b \/
     exists msg, err = joinError [unknownRecordTypeError b; errorString msg]) /\
    (allowInvalidChars (st_parser st) = true -> err = unknownRecordTypeError b) /\
    unknownRecordTypeError_Error b
    = if unicode_IsPrint b
      then (string_of_byte_rune b +:+ ": unknown record type")%string
      else String dquote
             ("\x" +:+ hex2 true b +:+ String dquote ": unknown record type")%string.
Proof.
  intros _ Hl Hb. split; [apply ParseLines_X|]. split; [reflexivity|].
  destruct (checkInvalidChars_unknown (st_parser st) l (unknownRecordTypeError b))
    as (err & Hc & Hshape & Hallow & _).
  exists err. split; [|auto].
  unfold parseLine. rewrite Hl.
  replace (len (b :: rest) =? 0) with false
    by (symmetry; apply Z.eqb_neq; unfold len; cbn [length]; lia).
  rewrite dispatch_unknown by exact Hb. cbn [obind].
  rewrite Hc. reflexivity.
Qed.

Lemma unknown_record_type_witness :
  reached [] ["GABC"%string]
    (mkLoopState (newParser []) [ptrGRecord (Some (GRecord.mk "ABC"))] [] ∅ [] []) /\
  exists err,
    parseLine 1 nulLine
      (mkLoopState (newParser []) [ptrGRecord (Some (GRecord.mk "ABC"))] [] ∅ [] [])
    = Ret (mkLoopState (newParser [])
             [ptrGRecord (Some (GRecord.mk "ABC")); nilRecord] [] ∅ []
             [mkError 2 err]) /\
    unknownRecordTypeError_Error "000"
    = String dquote ("\x00" +:+ String dquote ": unknown record type")%string.
Proof.
  assert (H : reached [] ["GABC"%string]
    (mkLoopState (newParser []) [ptrGRecord (Some (GRecord.mk "ABC"))] [] ∅ [] []))
    by (vm_compute; reflexivity).
  split; [exact H|].
  destruct (unknown_record_type [] ["GABC"%string] _ nulLine "000"
              (bytes "abc") H eq_refl) as (_ & _ & err & Hp & _ & _ & Hm).
  { by_decide. }
  exists err. split; [exact Hp|exact Hm].
Defined.

(** ** [intPow] *)

Lemma intPow_loop_negative (fuel : nat) (x y result : Z) :
  y < 0 -> intPow_loop fuel x y result = None.
Proof.
  revert x y result. induction fuel as [|fuel IH]; intros x y result Hy;
    cbn [intPow_loop]; [reflexivity|].
  destruct (Z.eqb_spec y 0); [lia|]. apply IH. now apply Z.shiftr_neg.
Qed.

Lemma intPow_negative (x y : Z) : y < 0 -> intPow x y = Diverge.
Proof. intros Hy. unfold intPow. now rewrite intPow_loop_negative. Qed.

Lemma intPow_10 (y : Z) :
  0 <= y <= 8 -> intPow 10 y = Ret (10 ^ y).
Proof.
  intros Hy.
  assert (H : y = 0 \/ y = 1 \/ y = 2 \/ y = 3 \/ y = 4 \/ y = 5 \/ y = 6 \/
              y = 7 \/ y = 8) by lia.
  repeat (destruct H as [->|H]; [vm_compute; reflexivity|]).
  subst y. vm_compute. reflexivity.
Qed.

(** ** The addition tables of the parser *)

Lemma additionWidth_wf (a : RecordAddition) :
  wellFormedAddition a -> additionWidth a = widthOf a /\ 1 <= widthOf a <= 99.
Proof.
  intros (H1 & H2 & H3). unfold additionWidth, widthOf. small64. lia.
Qed.

Lemma byTLC_lookup (l : list RecordAddition) (m : gmap string RecordAddition)
    (k : string) (a : RecordAddition) :
  byTLC m l !! k = Some a -> a ∈ l \/ m !! k = Some a.
Proof.
  revert m. induction l as [|b l IH]; intros m; cbn [byTLC foldl]; [auto|].
  intros H. apply IH in H as [H|H]; [left; now constructor|].
  destruct (decide (TLC b = k)) as [<-|Hne].
  - rewrite lookup_insert_eq in H. injection H as <-. left. constructor.
  - rewrite lookup_insert_ne in H by exact Hne. auto.
Qed.

Lemma byTLC_lookup_None (l : list RecordAddition) (m : gmap string RecordAddition)
    (k : string) :
  byTLC m l !! k = None -> m !! k = None /\ k ∉ map TLC l.
Proof.
  revert m. induction l as [|b l IH]; intros m; cbn [byTLC foldl map].
  - intros H. split; [exact H|]. apply not_elem_of_nil.
  - intros H. apply IH in H as (H & Hl).
    destruct (decide (TLC b = k)) as [<-|Hne].
    + rewrite lookup_insert_eq in H. discriminate.
    + rewrite lookup_insert_ne in H by exact Hne. split; [exact H|].
      apply not_elem_of_cons. auto.
Qed.

Lemma byTLC_app (l1 l2 : list RecordAddition) (m : gmap string RecordAddition) :
  byTLC m (l1 ++ l2) = byTLC (byTLC m l1) l2.
Proof. unfold byTLC. apply foldl_app. Qed.

Lemma installIRecord_spec (record : IRecord.t) (p p' : parser) :
  installIRecord record p = Ret p' ->
  let m' := byTLC (bRecordsAdditionsByTLC p) (IRecord.Additions record) in
  allowInvalidChars p' = allowInvalidChars p /\
  date p' = date p /\ prevTime p' = prevTime p /\ cRecords p' = cRecords p /\
  kRecordAdditions p' = kRecordAdditions p /\
  nRecordAdditions p' = nRecordAdditions p /\
  bRecordAdditions p' = bRecordAdditions p ++ IRecord.Additions record /\
  bRecordsAdditionsByTLC p' = m' /\
  ladBRecordAddition p'
  = match m' !! "LAD"%string with
    | Some a => Some a
    | None => ladBRecordAddition p
    end /\
  lodBRecordAddition p'
  = match m' !! "LOD"%string with
    | Some a => Some a
    | None => lodBRecordAddition p
    end /\
  match m' !! "TDS"%string with
  | Some a =>
      tdsBRecordAddition p' = Some a /\
      intPow 10 (Int64.sub 9 (additionWidth a)) = Ret (fracSecondMul p')
  | None =>
      tdsBRecordAddition p' = tdsBRecordAddition p /\
      fracSecondMul p' = fracSecondMul p
  end.
Proof.
  unfold installIRecord. fold (byTLC (bRecordsAdditionsByTLC p) (IRecord.Additions record)).
  set (m' := byTLC _ _). intros H. cbv zeta.
  inv_bind H. inv_bind H.
  cbn [bRecordsAdditionsByTLC set_bRecordAdditions] in Hbind.
  assert (Ha : (m' !! "LAD"%string = None /\
                a = set_bRecordAdditions
                      (bRecordAdditions p ++ IRecord.Additions record) m' p)
               \/ exists x mul div, m' !! "LAD"%string = Some x /\
                    a = set_lad x mul div
                          (set_bRecordAdditions
                             (bRecordAdditions p ++ IRecord.Additions record) m' p)).
  { destruct (m' !! "LAD"%string) as [x|]; [do 2 inv_bind Hbind|];
      injection Hbind as <-; eauto 10. }
  assert (Hm1 : bRecordsAdditionsByTLC a = m')
    by (destruct Ha as [(_&->)|(?&?&?&?&->)]; reflexivity).
  rewrite Hm1 in Hbind0.
  assert (Ha0 : (m' !! "LOD"%string = None /\ a0 = a)
                \/ exists x mul div, m' !! "LOD"%string = Some x /\
                     a0 = set_lod x mul div a).
  { destruct (m' !! "LOD"%string) as [x|]; [do 2 inv_bind Hbind0|];
      injection Hbind0 as <-; eauto 10. }
  assert (Hm2 : bRecordsAdditionsByTLC a0 = m')
    by (destruct Ha0 as [(_&->)|(?&?&?&?&->)]; [exact Hm1 | exact Hm1]).
  rewrite Hm2 in H.
  destruct (m' !! "TDS"%string) as [t|] eqn:Ht.
  - inv_bind H. injection H as <-. rewrite Hbind1.
    destruct Ha as [(Hx&->)|(x&mul&div&Hx&->)],
        Ha0 as [(Hy&->)|(y&mul'&div'&Hy&->)];
      cbn; rewrite ?Hx, ?Hy; split_and!; reflexivity.
  - injection H as <-.
    destruct Ha as [(Hx&->)|(x&mul&div&Hx&->)],
        Ha0 as [(Hy&->)|(y&mul'&div'&Hy&->)];
      cbn; rewrite ?Hx, ?Hy; split_and!; reflexivity.
Qed.

Lemma parseIJM_additions (p : parser) (line : list ascii) (startColumn : Z)
    (additions : list RecordAddition) (err : option error) :
  1 <= startColumn ->
  parseRecordAdditions p line startColumn = Ret (additions, err) ->
  Forall wellFormedAddition additions /\ contiguousFrom startColumn additions.
Proof.
  intros Hs H. split; [eapply parseRecordAdditions_wf; eassumption|].
  now apply parseRecordAdditions_spec in H.
Qed.

Lemma parseIRecord_additions (p : parser) (line : list ascii) r err :
  parseIRecord p line = Ret (Some r, err) ->
  err = None /\ parseRecordAdditions p line 36 = Ret (IRecord.Additions r, None).
Proof.
  unfold parseIRecord. intros H. inv_bind H.
  destruct o as [e|]; [discriminate|]. injection H as <- <-. auto.
Qed.

Lemma parseJRecord_additions (p : parser) (line : list ascii) r err :
  parseJRecord p line = Ret (Some r, err) ->
  err = None /\ parseRecordAdditions p line 8 = Ret (JRecord.Additions r, None).
Proof.
  unfold parseJRecord. intros H. inv_bind H.
  destruct o as [e|]; [discriminate|]. injection H as <- <-. auto.
Qed.

Lemma parseMRecord_additions (p : parser) (line : list ascii) r err :
  parseMRecord p line = Ret (Some r, err) ->
  err = None /\ parseRecordAdditions p line 8 = Ret (MRecord.Additions r, None).
Proof.
  unfold parseMRecord. intros H. inv_bind H.
  destruct o as [e|]; [discriminate|]. injection H as <- <-. auto.
Qed.

Lemma dispatch_additions (p : parser) (line : list ascii) record err p' :
  dispatch p line = Ret (record, err, p') ->
  match record with
  | ptrIRecord (Some r) => Forall wellFormedAddition (IRecord.Additions r)
  | ptrJRecord (Some r) => Forall wellFormedAddition (JRecord.Additions r)
  | ptrMRecord (Some r) => Forall wellFormedAddition (MRecord.Additions r)
  | _ => True
  end.
Proof.
  intros H. apply dispatch_cases in H.
  destruct H as
    [ r err _ _ | r err p' _ H | record err _ H | r err _ _ | record err p' _ H
    | r err p' _ H | r err _ _ | record err _ H | r err _ H | r err _ H
    | r err p' _ H | record err _ H | r err _ H | r err p' _ H | b _ _ ];
    try exact I.
  - apply parseCRecord_shape in H as [->|[[r ->]|[r ->]]]; exact I.
  - apply parseERecord_shape in H as [->|[[r ->]|[r ->]]]; exact I.
  - apply parseHRecord_shape in H as (_ & HI & HJ & HM & _).
    destruct record as [|[r|]|[r|]|[r|]|[r|]|[r|]|[r|]|[r|]|[r|]|[r|]|[r|]|[r|]
                        |[r|]|[r|]|[r|]|[r|]|[r|]|[r|]|[r|]|[r|]];
      try exact I; exfalso; eauto.
  - destruct r as [r|]; [|exact I].
    apply parseIRecord_additions in H as (_ & H).
    now apply parseRecordAdditions_wf in H.
  - destruct r as [r|]; [|exact I].
    apply parseJRecord_additions in H as (_ & H).
    now apply parseRecordAdditions_wf in H.
  - apply parseLRecord_shape in H as [->|[[r ->]|[r ->]]]; exact I.
  - destruct r as [r|]; [|exact I].
    apply parseMRecord_additions in H as (_ & H).
    now apply parseRecordAdditions_wf in H.
Qed.

Lemma timeStep_tables (p p' : parser) (t : Z) :
  timeStep p p' t -> tablesInv p -> tablesInv p'.
Proof.
  intros [(_ & _ & ->)|(_ & _ & d & k & _ & _ & ->)]; [auto|].
  unfold tablesInv. cbn. auto.
Qed.

Lemma intPow_tds (a : RecordAddition) (mul : Z) :
  wellFormedAddition a ->
  intPow 10 (Int64.sub 9 (additionWidth a)) = Ret mul ->
  1 <= widthOf a <= 9 /\ mul = 10 ^ (9 - widthOf a).
Proof.
  intros Hwf H. destruct (additionWidth_wf a Hwf) as (Hw & Hr).
  rewrite Hw in H. revert H. small64.
  destruct (Z.lt_ge_cases (9 - widthOf a) 0) as [Hneg|Hpos].
  - rewrite intPow_negative by exact Hneg. discriminate.
  - rewrite intPow_10 by lia. intros [= <-]. split; [lia|reflexivity].
Qed.

Lemma updateState_tables (record : Record) (st st' : loopState) :
  match record with
  | ptrIRecord (Some r) => Forall wellFormedAddition (IRecord.Additions r)
  | ptrJRecord (Some r) => Forall wellFormedAddition (JRecord.Additions r)
  | ptrMRecord (Some r) => Forall wellFormedAddition (MRecord.Additions r)
  | _ => True
  end ->
  tablesInv (st_parser st) ->
  updateState record st = Ret st' ->
  tablesInv (st_parser st').
Proof.
  intros Hwf Hinv H. unfold updateState in H.
  destruct record as [|[r|]|[r|]|[r|]|[r|]|[r|]|[r|]|[r|]|[r|]|[r|]|[r|]|[r|]
                      |[r|]|[r|]|[r|]|[r|]|[r|]|[r|]|[r|]|[r|]];
    try (injection H as <-; exact Hinv).
  - inv_bind H. injection H as <-. cbn [st_parser].
    apply installIRecord_spec in Hbind. cbv zeta in Hbind.
    destruct Hbind as (_ & _ & _ & Hc & Hk & Hn & Hb & Hm & Hlad & Hlod & Htds).
    destruct Hinv as (Ib & Ik & In' & Im & Ilad & Ilod & Itds & Ic & Imul).
    assert (Hmap : bRecordsAdditionsByTLC a
                   = byTLC ∅ (bRecordAdditions (st_parser st) ++ IRecord.Additions r))
      by (rewrite Hm, byTLC_app, <- Im; reflexivity).
    unfold tablesInv. rewrite Hc, Hk, Hn, Hb, Hlad, Hlod.
    split_and!; try assumption.
    + apply Forall_app. auto.
    + rewrite Hm. destruct (byTLC _ _ !! "LAD"%string) eqn:E; [reflexivity|].
      apply byTLC_lookup_None in E as (E & _). now rewrite Ilad.
    + rewrite Hm. destruct (byTLC _ _ !! "LOD"%string) eqn:E; [reflexivity|].
      apply byTLC_lookup_None in E as (E & _). now rewrite Ilod.
    + rewrite Hm. destruct (byTLC _ _ !! "TDS"%string) eqn:E.
      * now destruct Htds as (-> & _).
      * destruct Htds as (-> & _).
        apply byTLC_lookup_None in E as (E & _). now rewrite Itds.
    + destruct (byTLC _ _ !! "TDS"%string) as [t|] eqn:E.
      * destruct Htds as (-> & Hpow). apply intPow_tds in Hpow; [exact Hpow|].
        apply byTLC_lookup in E as [E|E].
        -- rewrite Forall_forall in Hwf. apply Hwf. exact E.
        -- rewrite Im in E. apply byTLC_lookup in E as [E|E].
           ++ rewrite Forall_forall in Ib. apply Ib. exact E.
           ++ rewrite lookup_empty in E. discriminate.
      * destruct Htds as (-> & ->). exact Imul.
  - injection H as <-. cbn [st_parser]. revert Hinv. unfold tablesInv. cbn. tauto.
  - injection H as <-. cbn [st_parser]. revert Hinv. unfold tablesInv. cbn. tauto.
Qed.

Lemma tablesInv_step (i : Z) (l : string) (st st' : loopState) :
  tablesInv (st_parser st) -> parseLine i l st = Ret st' ->
  tablesInv (st_parser st').
Proof.
  intros Hinv H.
  apply parseLine_inv in H
    as [(_ & ->)|(_ & record & err & p1 & err' & Hdis & _ & Hup)]; [exact Hinv|].
  pose proof (dispatch_additions _ _ _ _ _ Hdis) as Hwf.
  pose proof (dispatch_time _ _ _ _ _ Hdis) as Ht.
  assert (Hp1 : tablesInv p1).
  { destruct (recordTime record); [eapply timeStep_tables; eassumption|now subst]. }
  eapply updateState_tables in Hup; eauto.
Qed.

Lemma reached_tablesInv (flags : list bool) (lines : list string) (st : loopState) :
  reached flags lines st -> tablesInv (st_parser st).
Proof.
  revert lines st. apply reached_ind.
  - cbn [initialState st_parser]. unfold tablesInv.
    destruct (newParser_fields flags)
      as (_ & _ & -> & -> & -> & -> & -> & -> & -> & -> & ->).
    cbn. split_and!; try constructor; reflexivity.
  - intros lines l st st' _ IH H. eapply tablesInv_step; eassumption.
Qed.

Lemma installedAdditions_wf (p : parser) :
  tablesInv p -> Forall wellFormedAddition (installedAdditions p).
Proof.
  intros (Ib & Ik & In' & Im & Ilad & Ilod & Itds & _ & _).
  assert (Hmap : forall k a, bRecordsAdditionsByTLC p !! k = Some a ->
                             wellFormedAddition a).
  { intros k a H. rewrite Im in H. apply byTLC_lookup in H as [H|H].
    - rewrite Forall_forall in Ib. now apply Ib.
    - rewrite lookup_empty in H. discriminate. }
  assert (Hopt : forall (o : option RecordAddition) k,
            o = bRecordsAdditionsByTLC p !! k ->
            Forall wellFormedAddition (option_list o)).
  { intros [a|] k H; cbn; constructor; [|constructor]. eapply Hmap. now rewrite <- H. }
  unfold installedAdditions. rewrite !Forall_app. split_and!; eauto.
  apply Forall_forall. intros a Ha.
  apply list_elem_of_fmap in Ha as ([k a'] & -> & Ha).
  apply elem_of_map_to_list in Ha. cbn. eauto.
Qed.

(** ** Decoding one addition *)

Lemma intValue_wf (a : RecordAddition) (line : list ascii) (errs : list error) :
  wellFormedAddition a ->
  intValue a line errs
  = Ret match decodeOf a line with
        | inl value => (value, errs, true)
        | inr err => (0, errs ++ [err], false)
        end.
Proof.
  intros Hwf. unfold intValue, decodeOf. rewrite (bytesValue_wf _ _ _ Hwf).
  destruct (len line <? FinishColumn a); cbn [obind negb]; [reflexivity|].
  now destruct (atoi (columnsOf a line)) as [v [e|]].
Qed.

Lemma columnsOf_len (a : RecordAddition) (line : list ascii) :
  wellFormedAddition a -> FinishColumn a <= len line ->
  len (columnsOf a line) = widthOf a.
Proof.
  intros (H1 & H2 & H3) Hlen. unfold columnsOf, widthOf, len in *.
  rewrite length_take, length_drop. lia.
Qed.

Lemma decodeOf_bound (a : RecordAddition) (line : list ascii) (v : Z) :
  wellFormedAddition a -> widthOf a <= 18 ->
  decodeOf a line = inl v -> - 10 ^ widthOf a < v < 10 ^ widthOf a.
Proof.
  intros Hwf Hw. unfold decodeOf.
  destruct (Z.ltb_spec (len line) (FinishColumn a)) as [|Hlen]; [discriminate|].
  pose proof (atoi_abs_bound (columnsOf a line)) as Hb. unfold atoi_ in Hb.
  rewrite (columnsOf_len _ _ Hwf Hlen) in Hb. specialize (Hb Hw).
  destruct (atoi (columnsOf a line)) as [v' [e|]]; [discriminate|].
  intros [= <-]. exact Hb.
Qed.

Lemma byTLC_lookup_TLC (l : list RecordAddition) (m : gmap string RecordAddition)
    (k : string) (a : RecordAddition) :
  byTLC m l !! k = Some a -> (a ∈ l /\ TLC a = k) \/ m !! k = Some a.
Proof.
  revert m. induction l as [|b l IH]; intros m; cbn [byTLC foldl]; [auto|].
  intros H. apply IH in H as [(H & Hk)|H]; [left; split; [now constructor|exact Hk]|].
  destruct (decide (TLC b = k)) as [<-|Hne].
  - rewrite lookup_insert_eq in H. injection H as <-. left. split; [constructor|reflexivity].
  - rewrite lookup_insert_ne in H by exact Hne. auto.
Qed.

(** ** The fractional second of a fix *)

Lemma timeOfDay_small (h m s ns : Z) :
  -100 < h < 100 -> -100 < m < 100 -> -100 < s < 100 ->
  - Time.Second < ns < Time.Second ->
  timeOfDay h m s ns = (h * 3600 + m * 60 + s) * Time.Second + ns.
Proof.
  unfold timeOfDay, Time.Hour, Time.Minute, Time.Nanosecond, Time.Second.
  intros. small64. lia.
Qed.

Lemma NanosecondOf_candidate (date k x ns : Z) :
  date mod Time.Second = 0 ->
  Time.NanosecondOf (date + k * Time.Day + (x * Time.Second + ns))
  = ns mod Time.Second.
Proof.
  intros Hd. unfold Time.NanosecondOf.
  assert (HS : Time.Second <> 0) by (unfold Time.Second; lia).
  apply Z.div_exact in Hd; [|exact HS].
  replace (date + k * Time.Day + (x * Time.Second + ns))
    with (ns + (date / Time.Second + k * 86400 + x) * Time.Second).
  - now rewrite Z.mod_add.
  - unfold Time.Day, Time.Hour, Time.Minute. lia.
Qed.

Lemma fixNanosecond_small (p : parser) (line : list ascii) :
  tablesInv p -> - Time.Second < fixNanosecond p line < Time.Second.
Proof.
  intros Hinv. pose proof (installedAdditions_wf p Hinv) as Hwf.
  destruct Hinv as (_ & _ & _ & _ & _ & _ & _ & _ & Hmul).
  unfold fixNanosecond. destruct (tdsBRecordAddition p) as [a|] eqn:Ha;
    [|unfold Time.Second; lia].
  assert (Hwfa : wellFormedAddition a).
  { rewrite Forall_forall in Hwf. apply Hwf. unfold installedAdditions.
    rewrite Ha, !elem_of_app. do 6 right. cbn. constructor. }
  destruct Hmul as (Hw & ->).
  destruct (decodeOf a line) as [v|e] eqn:Hv; [|unfold Time.Second; lia].
  apply decodeOf_bound in Hv; [|exact Hwfa|lia].
  assert (Hpow : 10 ^ (9 - widthOf a) * 10 ^ widthOf a = Time.Second).
  { rewrite <- Z.pow_add_r by lia. replace (9 - widthOf a + widthOf a) with 9 by lia.
    reflexivity. }
  assert (0 < 10 ^ (9 - widthOf a)) by (apply Z.pow_pos_nonneg; lia).
  nia.
Qed.

Lemma specialAddition_tds (p : parser) (line : list ascii) (errs : list error)
    ns errs' :
  tablesInv p ->
  specialAddition (tdsBRecordAddition p) line errs 0
    (fun fractionalSecond => Int64.mul (fracSecondMul p) fractionalSecond)
  = Ret (ns, errs') ->
  ns = fixNanosecond p line.
Proof.
  intros Hinv. pose proof (fixNanosecond_small p line Hinv) as Hsmall.
  pose proof (installedAdditions_wf p Hinv) as Hwf.
  unfold specialAddition, fixNanosecond in *.
  destruct (tdsBRecordAddition p) as [a|] eqn:Ha; [|now intros [= <- _]].
  rewrite intValue_wf.
  - cbn [obind]. destruct (decodeOf a line) as [v|e]; [|now intros [= <- _]].
    intros [= <- _]. unfold Time.Second in Hsmall. small64. reflexivity.
  - rewrite Forall_forall in Hwf. apply Hwf. unfold installedAdditions.
    rewrite Ha, !elem_of_app. do 6 right. cbn. constructor.
Qed.

Lemma parseBRecord_Time (p : parser) (line : list ascii) r err p' :
  tablesInv p -> date p mod Time.Second = 0 ->
  parseBRecord p line = Ret (Some r, err, p') ->
  (date p = Time.zero -> BRecord.Time r = Time.zero) /\
  (date p <> Time.zero ->
   Time.NanosecondOf (BRecord.Time r) = fixNanosecond p line mod Time.Second).
Proof.
  intros Hinv Hdate. pose proof (fixNanosecond_small p line Hinv) as Hsmall.
  unfold parseBRecord.
  destruct (Rx.find Grammar.bRecordRx line) as [m|] eqn:Hm; [|discriminate].
  apply bRecordRx_timeFields in Hm as (H1 & H2 & H3).
  intros H. inv_bind H. apply specialAddition_tds in Hbind; [|exact Hinv]. subst z.
  inv_bind H. apply parseTime_spec in Hbind.
  do 6 inv_bind H. injection H as <- _ _. cbn [BRecord.Time].
  destruct Hbind as [(Hz & -> & _)|(Hnz & _ & k & Ht & _)].
  - split; [reflexivity|contradiction].
  - split; [contradiction|]. intros _. rewrite Ht.
    rewrite timeOfDay_small; try (apply atoi_two_bytes; assumption); [|exact Hsmall].
    unfold candidate, Time.Add, Time.AddDays.
    now apply NanosecondOf_candidate.
Qed.

(** C8, as amended.  In every state the loop reaches: if a TDS addition
    is installed (the one the table by code holds, an element of the
    fix-record addition table spanning n columns), then n is between 1
    and 9, the fractional-second multiplier is 10^(9-n), and a fix
    decoded after a date has been established whose TDS columns hold the
    integer v has the nanosecond component (v * 10^(9-n)) mod 10^9, which
    is v * 10^(9-n) when v is not negative; if none is installed, no
    addition of the table has the code TDS, the multiplier is 10^9 and
    the nanosecond component of every fix is 0.  Before any date is
    established the timestamp of a fix is the zero time. *)
Theorem fractional_second_multiplier (flags : list bool) (lines : list string)
    (st : loopState) :
  reached flags lines st ->
  let p := st_parser st in
  match tdsBRecordAddition p with
  | Some a =>
      bRecordsAdditionsByTLC p !! "TDS"%string = Some a /\
      a ∈ bRecordAdditions p /\ TLC a = "TDS"%string /\
      1 <= widthOf a <= 9 /\
      fracSecondMul p = 10 ^ (9 - widthOf a) /\
      forall (line : list ascii) (r : BRecord.t) err p' (v : Z),
        parseBRecord p line = Ret (Some r, err, p') ->
        date p <> Time.zero ->
        decodeOf a line = inl v ->
        Time.NanosecondOf (BRecord.Time r)
        = (v * 10 ^ (9 - widthOf a)) mod Time.Second /\
        (0 <= v ->
         Time.NanosecondOf (BRecord.Time r) = v * 10 ^ (9 - widthOf a))
  | None =>
      ("TDS"%string ∉ map TLC (bRecordAdditions p)) /\
      fracSecondMul p = 10 ^ 9 /\
      forall (line : list ascii) (r : BRecord.t) err p',
        parseBRecord p line = Ret (Some r, err, p') ->
        Time.NanosecondOf (BRecord.Time r) = 0
  end /\
  forall (line : list ascii) (r : BRecord.t) err p',
    parseBRecord p line = Ret (Some r, err, p') ->
    date p = Time.zero -> BRecord.Time r = Time.zero.
Proof.
  intros Hr p.
  pose proof (reached_tablesInv _ _ _ Hr) as Hinv. fold p in Hinv.
  pose proof (reached_timeInv _ _ _ Hr) as (_ & _ & _ & Hmod & _). fold p in Hmod.
  pose proof (installedAdditions_wf p Hinv) as Hwf.
  pose proof Hinv as (_ & _ & _ & Im & _ & _ & Itds & _ & Hmul).
  split.
  2: { intros line r err p' H. now apply (parseBRecord_Time _ _ _ _ _ Hinv Hmod) in H. }
  destruct (tdsBRecordAddition p) as [a|] eqn:Ha.
  - destruct Hmul as (Hw & Hmul).
    assert (Hin : a ∈ bRecordAdditions p /\ TLC a = "TDS"%string).
    { symmetry in Itds. rewrite Im in Itds.
      apply byTLC_lookup_TLC in Itds as [?|E]; [assumption|].
      rewrite lookup_empty in E. discriminate. }
    split_and!; try tauto; try lia; [now rewrite <- Itds|].
    intros line r err p' v H Hnz Hv.
    apply (parseBRecord_Time _ _ _ _ _ Hinv Hmod) in H as (_ & H).
    specialize (H Hnz). unfold fixNanosecond in H. rewrite Ha, Hv, Hmul in H.
    rewrite (Z.mul_comm v). split; [exact H|]. intros Hv0. rewrite H.
    assert (Hwfa : wellFormedAddition a).
    { rewrite Forall_forall in Hwf. apply Hwf. unfold installedAdditions.
      rewrite !elem_of_app. left. tauto. }
    apply decodeOf_bound in Hv; [|exact Hwfa|lia].
    assert (Hpow : 10 ^ (9 - widthOf a) * 10 ^ widthOf a = Time.Second).
    { rewrite <- Z.pow_add_r by lia.
      replace (9 - widthOf a + widthOf a) with 9 by lia. reflexivity. }
    assert (0 < 10 ^ (9 - widthOf a)) by (apply Z.pow_pos_nonneg; lia).
    apply Z.mod_small. nia.
  - split_and!; [|exact Hmul|].
    + symmetry in Itds. rewrite Im in Itds.
      now apply byTLC_lookup_None in Itds as (_ & ?).
    + intros line r err p' H.
      apply (parseBRecord_Time _ _ _ _ _ Hinv Hmod) in H as (Hz & Hnz).
      destruct (Z.eq_dec (date p) Time.zero) as [E|E].
      * now rewrite (Hz E).
      * rewrite (Hnz E). unfold fixNanosecond. now rewrite Ha.
Qed.

Lemma fractional_second_multiplier_witness :
  reached [] tdsLines tdsState /\
  fracSecondMul (st_parser tdsState) = 10 ^ 8.
Proof.
  assert (H : reached [] tdsLines tdsState) by (vm_compute; reflexivity).
  split; [exact H|].
  pose proof (fractional_second_multiplier [] tdsLines tdsState H) as T.
  cbv zeta in T.
  assert (E : tdsBRecordAddition (st_parser tdsState)
              = Some (mkRecordAddition "TDS" 36 36)) by reflexivity.
  rewrite E in T. destruct T as ((_ & _ & _ & _ & Hmul & _) & _). exact Hmul.
Defined.

(** C8 as stated fails: a TDS addition of one column is installed and the
    TDS column of the fix holds 4, but no date has been established, so
    the timestamp of the fix is the zero time and its nanosecond
    component is 0, not 4 * 10^8. *)
Lemma tds_without_date :
  exists (igc : IGC) (r : BRecord.t),
    ParseLines tdsNoDateLines [] = Ret igc /\
    Records igc
    = [ptrIRecord (Some (IRecord.mk [mkRecordAddition "TDS" 36 36]));
       ptrBRecord (Some r)] /\
    decodeOf (mkRecordAddition "TDS" 36 36)
      (bytes "B1501444708879N00832146EA00929009414") = inl 4 /\
    Time.NanosecondOf (BRecord.Time r) = 0 /\
    4 * 10 ^ (9 - 1) <> 0.
Proof.
  eexists. eexists. split; [vm_compute; reflexivity|].
  split; [reflexivity|]. split; [vm_compute; reflexivity|].
  split; [reflexivity|]. discriminate.
Qed.

(** ** Lenient fallback shapes *)

Section Fallbacks.
Import Rx Grammar.

Lemma rmatch_star_dot (s : list ascii) :
  forall pos c k x,
    "010"%char ∉ s ->
    k (pos + length s)%nat [] c = Some x ->
    rmatch (Star true dot) pos s c k = Some x.
Proof.
  induction s as [|a s IH]; intros pos c k x Hnl Hk.
  - cbn. rewrite Nat.add_0_r in Hk. exact Hk.
  - apply not_elem_of_cons in Hnl as (Ha & Hnl).
    specialize (IH (S pos) c k x Hnl).
    cbn [length] in Hk. rewrite Nat.add_succ_r in Hk. specialize (IH Hk).
    cbn [rmatch star_loop dot length] in IH |- *.
    rewrite bool_decide_eq_false_2 by congruence. cbn [negb].
    replace (pos <? S pos)%nat with true by (symmetry; apply Nat.ltb_lt; lia).
    rewrite IH. reflexivity.
Qed.

Lemma lRecordWithoutTLCRx_complete (rest : list ascii) :
  "010"%char ∉ rest ->
  find lRecordWithoutTLCRx ("L"%char :: rest)
  = Some [("L"%char :: rest); rest].
Proof.
  intros Hnl. unfold find. cbn [find_from].
  assert (H : rmatch (Star true dot) 1 rest []
                (fun pos' s' c' =>
                   rmatch EndText pos' s' (set_cap 1 (take (pos' - 1) rest) c')
                     (fun pos'' s'' c'' =>
                        Some (set_cap 0 (take (pos'' - 0) ("L"%char :: rest)) c'')))
              = Some [("L"%char :: rest); rest]).
  { apply rmatch_star_dot; [exact Hnl|]. cbn [rmatch].
    replace (1 + length rest - 1)%nat with (length rest) by lia.
    replace (1 + length rest - 0)%nat with (length ("L"%char :: rest))
      by (cbn [length]; lia).
    now rewrite !firstn_all. }
  change (match rmatch (Star true dot) 1 rest []
                  (fun pos' s' c' =>
                     rmatch EndText pos' s'
                       (set_cap 1 (take (pos' - 1) rest) c')
                       (fun pos'' s'' c'' =>
                          Some (set_cap 0 (take (pos'' - 0) ("L"%char :: rest)) c'')))
          with
          | Some c => Some c
          | None => find_from lRecordWithoutTLCRx 1 rest
          end = Some [("L"%char :: rest); rest]).
  now rewrite H.
Qed.

End Fallbacks.

(** C5, as amended.  For a line that fails the primary shape of its
    record type: an event line that has the shape without code yields
    the event-without-code record holding the rest of the line as text,
    and one that has neither shape yields no record and the error
    "invalid E record"; a log-message line yields the no-tag record
    holding the line after its first byte, or, having neither shape, no
    record and "invalid L record", and a line that starts with L and
    holds no line feed always yields a record; a header line that also
    fails the two legacy shapes yields the invalid-source record with its
    source, code, long name and value when it has that shape, and no
    record and "invalid H record" otherwise.  [Valid] is false on each
    of the three fallback records. *)
Theorem lenient_fallbacks (p : parser) (line : list ascii) :
  (Rx.find Grammar.eRecordRx line = None ->
   match Rx.find Grammar.eRecordWithoutTLCRx line with
   | Some m =>
       exists time err p',
         parseERecord p line
         = Ret (ptrERecordWithoutTLC
                  (Some (ERecordWithoutTLC.mk time (gostring (Rx.get_cap m 4)))),
                err, p')
   | None => parseERecord p line = Ret (nilRecord, Some (invalidRecordError "E"), p)
   end) /\
  (Rx.find Grammar.lRecordRx line = None ->
   match Rx.find Grammar.lRecordWithoutTLCRx line with
   | Some m =>
       parseLRecord p line
       = Ret (ptrLRecordWithoutTLC
                (Some (LRecordWithoutTLC.mk (gostring (Rx.get_cap m 1)))), None)
   | None => parseLRecord p line = Ret (nilRecord, Some (invalidRecordError "L"))
   end) /\
  (forall rest : list ascii,
     line = "L"%char :: rest -> "010"%char ∉ rest ->
     exists record,
       parseLRecord p line = Ret (record, None) /\ holdsRecord record = true) /\
  (Rx.find Grammar.hfdteRecordRx line = None ->
   Rx.find Grammar.hffxaRecordRx line = None ->
   Rx.find Grammar.hRecordRx line = None ->
   match Rx.find Grammar.hRecordWithInvalidSourceRx line with
   | Some m =>
       exists source,
         Rx.get_cap m 1 = [source] /\
         parseHRecord p line
         = Ret (ptrHRecordWithInvalidSource
                  (Some (HRecordWithInvalidSource.mk (string_of_byte_rune source)
                           (gostring (Rx.get_cap m 2)) (gostring (Rx.get_cap m 3))
                           (gostring (Rx.get_cap m 4)))), None)
   | None => parseHRecord p line = Ret (nilRecord, Some (invalidRecordError "H"))
   end) /\
  (forall r, Valid (ptrERecordWithoutTLC r) = Ret false) /\
  (forall r, Valid (ptrLRecordWithoutTLC r) = Ret false) /\
  (forall r, Valid (ptrHRecordWithInvalidSource r) = Ret false).
Proof.
  split_and!; try reflexivity.
  - intros He. unfold parseERecord. rewrite He.
    destruct (Rx.find Grammar.eRecordWithoutTLCRx line) as [m|]; [|reflexivity].
    destruct (parseTime_returns p (Rx.get_cap m 1) (Rx.get_cap m 2)
                (Rx.get_cap m 3) 0 []) as ([[time errs] p'] & ->).
    cbn [obind]. eauto.
  - intros Hl. unfold parseLRecord. rewrite Hl.
    now destruct (Rx.find Grammar.lRecordWithoutTLCRx line).
  - intros rest -> Hnl. unfold parseLRecord.
    destruct (Rx.find Grammar.lRecordRx _) as [m|]; [eauto|].
    rewrite (lRecordWithoutTLCRx_complete rest Hnl). eauto.
  - intros H1 H2 H3. unfold parseHRecord. rewrite H1, H2, H3.
    destruct (Rx.find Grammar.hRecordWithInvalidSourceRx line) as [m|] eqn:Hm;
      [|reflexivity].
    assert (Hs : exists source, Rx.get_cap m 1 = [source]).
    { clear -Hm. revert Hm. apply hRecordWithInvalidSourceRx_source. }
    destruct Hs as (source & Hs). exists source. rewrite Hs. auto.
Qed.

Lemma lenient_fallbacks_witness :
  Rx.find Grammar.eRecordRx (bytes "E123456start") = None /\
  exists time err p',
    parseERecord (newParser []) (bytes "E123456start")
    = Ret (ptrERecordWithoutTLC (Some (ERecordWithoutTLC.mk time "start")),
           err, p').
Proof.
  assert (H : Rx.find Grammar.eRecordRx (bytes "E123456start") = None)
    by (vm_compute; reflexivity).
  split; [exact H|].
  exact (proj1 (lenient_fallbacks (newParser []) (bytes "E123456start")) H).
Defined.

(** C5 as stated fails: the event line ["E"] has neither the event shape
    nor the shape without code; it yields a slot holding no record and
    the structural error alone. *)
Lemma event_line_without_record :
  ParseLines ["E"%string] [] = Ret invalidEDocument /\
  holdsRecord nilRecord = false.
Proof. split; [vm_compute; reflexivity|reflexivity]. Qed.

(** ** Declaration records and the tables they install *)

Lemma updateState_J (record : JRecord.t) (st : loopState) :
  exists st',
    updateState (ptrJRecord (Some record)) st = Ret st' /\
    kRecordAdditions (st_parser st') = JRecord.Additions record /\
    bRecordAdditions (st_parser st') = bRecordAdditions (st_parser st) /\
    nRecordAdditions (st_parser st') = nRecordAdditions (st_parser st).
Proof. eexists. split; [reflexivity|]. cbn. auto. Qed.

Lemma updateState_M (record : MRecord.t) (st : loopState) :
  exists st',
    updateState (ptrMRecord (Some record)) st = Ret st' /\
    nRecordAdditions (st_parser st') = MRecord.Additions record /\
    bRecordAdditions (st_parser st') = bRecordAdditions (st_parser st) /\
    kRecordAdditions (st_parser st') = kRecordAdditions (st_parser st).
Proof. eexists. split; [reflexivity|]. cbn. auto. Qed.

Lemma updateState_I (record : IRecord.t) (st st' : loopState) :
  updateState (ptrIRecord (Some record)) st = Ret st' ->
  bRecordAdditions (st_parser st')
  = bRecordAdditions (st_parser st) ++ IRecord.Additions record /\
  bRecordsAdditionsByTLC (st_parser st')
  = byTLC (bRecordsAdditionsByTLC (st_parser st)) (IRecord.Additions record) /\
  kRecordAdditions (st_parser st') = kRecordAdditions (st_parser st) /\
  nRecordAdditions (st_parser st') = nRecordAdditions (st_parser st).
Proof.
  unfold updateState. intros H. inv_bind H. injection H as <-. cbn [st_parser].
  apply installIRecord_spec in Hbind. cbv zeta in Hbind. tauto.
Qed.

(** C2 fails on the code for the I record.  After a second I record that
    declares SIU alone, the fix is still decoded with the FXA addition
    of the first one: the table of the fix records holds the additions
    of both, and so does the mapping of the fix. *)
Theorem second_I_record_is_merged :
  exists (st : loopState) (r : BRecord.t),
    reached [] twoIRecordLines st /\
    nth 2 (st_records st) nilRecord
    = ptrIRecord (Some (IRecord.mk [mkRecordAddition "SIU" 36 37])) /\
    bRecordAdditions (st_parser st)
    = [mkRecordAddition "FXA" 36 38; mkRecordAddition "SIU" 36 37] /\
    nth 3 (st_records st) nilRecord = ptrBRecord (Some r) /\
    BRecord.Additions r = Some twoIRecordAdditions /\
    twoIRecordAdditions !! "FXA"%string = Some 6 /\
    st_errs st = [].
Proof.
  eexists. eexists. split; [vm_compute; reflexivity|].
  split; [reflexivity|]. split; [reflexivity|]. split; [reflexivity|].
  split; [vm_compute; reflexivity|]. split; [vm_compute; reflexivity|].
  reflexivity.
Qed.

(** ** The first C record *)

Lemma reached_cRecords (flags : list bool) (lines : list string) (st : loopState) :
  reached flags lines st -> cRecords (st_parser st) = [].
Proof.
  intros H. apply reached_tablesInv in H. unfold tablesInv in H. tauto.
Qed.

Lemma parseCRecord_declaration_first (flags : list bool) (lines : list string)
    (st : loopState) (line : list ascii) (d : CRecordDeclaration.t) :
  reached flags lines st ->
  parseCRecordDeclaration (st_parser st) line = (Some d, None) ->
  parseCRecord (st_parser st) line = Ret (ptrCRecordDeclaration (Some d), None).
Proof.
  intros Hr Hd. unfold parseCRecord.
  rewrite (reached_cRecords _ _ _ Hr), Hd. reflexivity.
Qed.

(** C4 fails on the code.  The list [cRecords] that guards the
    task-declaration shape is never added to, so a C line that is not the
    first one is still matched against that shape: here the second C
    line, which has not the waypoint shape, yields a task declaration and
    no error. *)
Theorem later_C_line_is_declaration :
  exists (st : loopState) (w : CRecordWaypoint.t) (d : CRecordDeclaration.t),
    reached [] laterDeclarationLines st /\
    st_records st = [ptrCRecordWaypoint (Some w); ptrCRecordDeclaration (Some d)] /\
    st_errs st = [] /\
    cRecords (st_parser st) = [] /\
    Rx.find Grammar.cRecordWaypointRx (bytes "C110524093545000000000502") = None.
Proof.
  eexists. eexists. eexists. split; [vm_compute; reflexivity|].
  split; [reflexivity|]. split; [reflexivity|]. split; [reflexivity|].
  vm_compute. reflexivity.
Qed.

(** ** Decoding the additions of a data record *)

Lemma decodeAdditions_spec (additions : list RecordAddition) (line : list ascii)
    (values : gmap string Z) (errs : list error) :
  Forall wellFormedAddition additions ->
  decodeAdditions additions line values errs
  = Ret (valuesOf additions line values, errs ++ errorsOf additions line).
Proof.
  intros Hwf. unfold valuesOf. revert values errs.
  induction Hwf as [|a additions Ha _ IH]; intros values errs;
    cbn [decodeAdditions foldl errorsOf].
  - now rewrite app_nil_r.
  - rewrite (intValue_wf _ _ _ Ha). cbn [obind].
    destruct (decodeOf a line) as [v|e]; rewrite IH; [reflexivity|].
    cbn. now rewrite <- app_assoc.
Qed.

Lemma valuesOf_cons (a : RecordAddition) (additions : list RecordAddition)
    (line : list ascii) (values : gmap string Z) :
  valuesOf (a :: additions) line values
  = valuesOf additions line
      match decodeOf a line with
      | inl value => <[TLC a := value]> values
      | inr _ => values
      end.
Proof. reflexivity. Qed.

Lemma valuesOf_lookup_other (additions : list RecordAddition) (line : list ascii)
    (values : gmap string Z) (k : string) :
  k ∉ map TLC additions -> valuesOf additions line values !! k = values !! k.
Proof.
  revert values. induction additions as [|a additions IH]; intros values Hk;
    [reflexivity|].
  cbn [map] in Hk. apply not_elem_of_cons in Hk as (Hne & Hk).
  rewrite valuesOf_cons, IH by exact Hk.
  destruct (decodeOf a line); [|reflexivity].
  now rewrite lookup_insert_ne by congruence.
Qed.

Lemma valuesOf_lookup (additions : list RecordAddition) (line : list ascii)
    (values : gmap string Z) (a : RecordAddition) :
  NoDup (map TLC additions) -> a ∈ additions ->
  valuesOf additions line values !! TLC a
  = match decodeOf a line with
    | inl value => Some value
    | inr _ => values !! TLC a
    end.
Proof.
  revert values. induction additions as [|b additions IH]; intros values Hnd Ha.
  - inversion Ha.
  - cbn [map] in Hnd. apply NoDup_cons in Hnd as (Hb & Hnd).
    rewrite valuesOf_cons.
    apply elem_of_cons in Ha as [->|Ha].
    + rewrite valuesOf_lookup_other by exact Hb.
      destruct (decodeOf b line); [apply lookup_insert_eq|reflexivity].
    + rewrite IH by assumption.
      destruct (decodeOf a line); [reflexivity|].
      destruct (decodeOf b line); [|reflexivity].
      rewrite lookup_insert_ne; [reflexivity|].
      intros E. apply Hb. rewrite E. apply list_elem_of_fmap. eauto.
Qed.

Lemma errorsOf_length (additions : list RecordAddition) (line : list ascii) :
  length (errorsOf additions line)
  = length (List.filter (fun a => match decodeOf a line with
                                  | inl _ => false
                                  | inr _ => true
                                  end) additions).
Proof.
  induction additions as [|a additions IH]; [reflexivity|].
  cbn [errorsOf List.filter].
  destruct (decodeOf a line); cbn [length]; now rewrite IH.
Qed.

(** What the claim C3 says does hold of the K and N records: the record
    is produced whenever the line has the shape of its family, its
    mapping holds exactly the additions of the table that decode, and one
    error is reported, in the order of the table, for each one that does
    not. *)
Lemma parseKRecord_additions (flags : list bool) (lines : list string)
    (st : loopState) (line : list ascii) (m : Rx.caps) :
  reached flags lines st ->
  Rx.find Grammar.knRecordRx line = Some m ->
  let p := st_parser st in
  exists time timeErrs p',
    parseTime p (Rx.get_cap m 1) (Rx.get_cap m 2) (Rx.get_cap m 3) 0 []
    = Ret (time, timeErrs, p') /\
    parseKRecord p line
    = Ret (Some (KRecord.mk time
                   (if 0 <? len (kRecordAdditions p)
                    then Some (valuesOf (kRecordAdditions p) line ∅)
                    else None)),
           errors_Join (timeErrs ++ errorsOf (kRecordAdditions p) line), p').
Proof.
  intros Hr Hm p. pose proof (reached_tablesInv _ _ _ Hr) as (_ & Hk & _).
  fold p in Hk. unfold parseKRecord. rewrite Hm.
  destruct (parseTime_returns p (Rx.get_cap m 1) (Rx.get_cap m 2)
              (Rx.get_cap m 3) 0 []) as ([[time errs] p'] & Ht).
  exists time, errs, p'. split; [exact Ht|]. rewrite Ht. cbn [obind].
  assert (Hp' : kRecordAdditions p' = kRecordAdditions p).
  { apply parseTime_timeStep in Ht as [(_ & _ & ->)|(_ & _ & d & k & _ & _ & ->)];
      reflexivity. }
  rewrite Hp'. unfold decodeAdditionTable.
  destruct (0 <? len (kRecordAdditions p)) eqn:E.
  - rewrite decodeAdditions_spec by exact Hk. reflexivity.
  - cbn [obind]. destruct (kRecordAdditions p) as [|a l]; [|discriminate].
    cbn. now rewrite app_nil_r.
Qed.

Lemma parseNRecord_additions (flags : list bool) (lines : list string)
    (st : loopState) (line : list ascii) (m : Rx.caps) :
  reached flags lines st ->
  Rx.find Grammar.knRecordRx line = Some m ->
  let p := st_parser st in
  exists time timeErrs p',
    parseTime p (Rx.get_cap m 1) (Rx.get_cap m 2) (Rx.get_cap m 3) 0 []
    = Ret (time, timeErrs, p') /\
    parseNRecord p line
    = Ret (Some (NRecord.mk time
                   (if 0 <? len (nRecordAdditions p)
                    then Some (valuesOf (nRecordAdditions p) line ∅)
                    else None)),
           errors_Join (timeErrs ++ errorsOf (nRecordAdditions p) line), p').
Proof.
  intros Hr Hm p. pose proof (reached_tablesInv _ _ _ Hr) as (_ & _ & Hn & _).
  fold p in Hn. unfold parseNRecord. rewrite Hm.
  destruct (parseTime_returns p (Rx.get_cap m 1) (Rx.get_cap m 2)
              (Rx.get_cap m 3) 0 []) as ([[time errs] p'] & Ht).
  exists time, errs, p'. split; [exact Ht|]. rewrite Ht. cbn [obind].
  assert (Hp' : nRecordAdditions p' = nRecordAdditions p).
  { apply parseTime_timeStep in Ht as [(_ & _ & ->)|(_ & _ & d & k & _ & _ & ->)];
      reflexivity. }
  rewrite Hp'. unfold decodeAdditionTable.
  destruct (0 <? len (nRecordAdditions p)) eqn:E.
  - rewrite decodeAdditions_spec by exact Hn. reflexivity.
  - cbn [obind]. destruct (nRecordAdditions p) as [|a l]; [|discriminate].
    cbn. now rewrite app_nil_r.
Qed.

(** It holds of the fix records too as long as none of TDS, LAD and LOD
    is installed; the table is then the additions of all the I records
    so far. *)
Lemma parseBRecord_additions (flags : list bool) (lines : list string)
    (st : loopState) (line : list ascii) (m : Rx.caps) :
  reached flags lines st ->
  Rx.find Grammar.bRecordRx line = Some m ->
  let p := st_parser st in
  tdsBRecordAddition p = None -> ladBRecordAddition p = None ->
  lodBRecordAddition p = None ->
  exists r timeErrs p',
    parseTime p (Rx.get_cap m 1) (Rx.get_cap m 2) (Rx.get_cap m 3) 0 []
    = Ret (BRecord.Time r, timeErrs, p') /\
    parseBRecord p line
    = Ret (Some r,
           errors_Join (timeErrs ++ errorsOf (bRecordAdditions p) line), p') /\
    BRecord.Additions r
    = if 0 <? len (bRecordAdditions p)
      then Some (valuesOf (bRecordAdditions p) line ∅)
      else None.
Proof.
  intros Hr Hm p Htds Hlad Hlod.
  pose proof (reached_tablesInv _ _ _ Hr) as (Hb & _). fold p in Hb.
  unfold parseBRecord. rewrite Hm, Htds. cbn [specialAddition obind].
  destruct (parseTime_returns p (Rx.get_cap m 1) (Rx.get_cap m 2)
              (Rx.get_cap m 3) 0 []) as ([[time errs] p'] & Ht).
  rewrite Ht. cbn [obind].
  assert (Hp' : ladBRecordAddition p' = None /\ lodBRecordAddition p' = None /\
                bRecordAdditions p' = bRecordAdditions p).
  { apply parseTime_timeStep in Ht as [(_ & _ & ->)|(_ & _ & d & k & _ & _ & ->)];
      cbn; auto. }
  destruct Hp' as (-> & -> & ->). cbn [specialAddition obind].
  apply bRecordRx_captures in Hm as (_ & _ & _ & H6 & H9 & H10).
  destruct (Rx.get_cap m 6) as [|c6 ?]; [contradiction|].
  destruct (Rx.get_cap m 9) as [|c9 ?]; [contradiction|].
  destruct (Rx.get_cap m 10) as [|c10 ?]; [contradiction|].
  cbn [index0 obind]. unfold decodeAdditionTable.
  destruct (0 <? len (bRecordAdditions p)) eqn:E.
  - rewrite decodeAdditions_spec by exact Hb. cbn [obind].
    eexists _, errs, p'. split; [|split; reflexivity]. reflexivity.
  - cbn [obind]. destruct (bRecordAdditions p) as [|a ?]; [|discriminate].
    cbn [errorsOf].
    eexists _, errs, p'. rewrite app_nil_r. split; [|split; reflexivity].
    reflexivity.
Qed.

(** C3 fails on the code for the fix records.  One addition, TDS, is
    declared and the fix is too short for it: the fix is produced and
    its mapping leaves the code out, but two missing-addition errors are
    reported for that one code, because TDS (as LAD and LOD) is decoded
    once for the timestamp and once more when the table is walked. *)
Theorem missing_TDS_is_reported_twice :
  exists (st : loopState) (r : BRecord.t),
    reached [] shortTDSLines st /\
    bRecordAdditions (st_parser st) = [mkRecordAddition "TDS" 36 36] /\
    nth 2 (st_records st) nilRecord = ptrBRecord (Some r) /\
    BRecord.Additions r = Some ∅ /\
    st_errs st
    = [mkError 3
         (joinError [missingAdditionError (mkRecordAddition "TDS" 36 36);
                     missingAdditionError (mkRecordAddition "TDS" 36 36)])].
Proof.
  eexists. eexists. split; [vm_compute; reflexivity|].
  split; [reflexivity|]. split; [reflexivity|].
  split; [vm_compute; reflexivity|]. reflexivity.
Qed.

(** ** The parse returns *)

Lemma intPow_loop_returns (fuel : nat) (x y result : Z) :
  0 <= y < 2 ^ Z.of_nat fuel ->
  exists z, intPow_loop (S fuel) x y result = Some z.
Proof.
  revert x y result. induction fuel as [|fuel IH]; intros x y result Hy.
  - cbn in Hy. assert (y = 0) as -> by lia. cbn. eauto.
  - cbn [intPow_loop]. destruct (Z.eqb_spec y 0) as [->|Hnz]; [eauto|].
    apply IH. rewrite Z.shiftr_div_pow2 by lia. change (2 ^ 1) with 2.
    rewrite Nat2Z.inj_succ, Z.pow_succ_r in Hy by lia.
    split; [apply Z.div_pos; lia|]. apply Z.div_lt_upper_bound; lia.
Qed.

Lemma intPow_returns (x y : Z) : 0 <= y < Int64.half -> returns (intPow x y).
Proof.
  intros Hy. unfold intPow.
  destruct (intPow_loop_returns 63 x y 1) as (z & ->); [exact Hy|].
  now exists z.
Qed.

Lemma intPow_not_Panic (x y : Z) : intPow x y <> Panic.
Proof. unfold intPow. now destruct (intPow_loop 64 x y 1). Qed.

Lemma byTLC_lookup_wf (p : parser) (l : list RecordAddition) (k : string)
    (a : RecordAddition) :
  tablesInv p -> Forall wellFormedAddition l ->
  byTLC (bRecordsAdditionsByTLC p) l !! k = Some a -> wellFormedAddition a.
Proof.
  intros Hinv Hl H. apply byTLC_lookup in H as [H|H].
  - rewrite Forall_forall in Hl. now apply Hl.
  - pose proof (installedAdditions_wf p Hinv) as Hwf.
    rewrite Forall_forall in Hwf. apply Hwf. unfold installedAdditions.
    rewrite !elem_of_app. do 3 right. left.
    apply list_elem_of_fmap. exists (k, a). split; [reflexivity|].
    now apply elem_of_map_to_list.
Qed.

Lemma intPow_width_returns (a : RecordAddition) :
  wellFormedAddition a -> returns (intPow 10 (additionWidth a)).
Proof.
  intros Hwf. destruct (additionWidth_wf a Hwf) as (-> & Hw).
  apply intPow_returns. unfold Int64.half. lia.
Qed.

Lemma intPow_tds_returns (a : RecordAddition) :
  wellFormedAddition a -> widthOf a <= 9 ->
  returns (intPow 10 (Int64.sub 9 (additionWidth a))).
Proof.
  intros Hwf H9. destruct (additionWidth_wf a Hwf) as (-> & Hw).
  unfold Int64.sub. rewrite wrap64_small by (unfold Int64.in_range, Int64.half; lia).
  apply intPow_returns. unfold Int64.half. lia.
Qed.

Lemma intPow_tds_diverges (a : RecordAddition) :
  wellFormedAddition a -> 9 < widthOf a ->
  intPow 10 (Int64.sub 9 (additionWidth a)) = Diverge.
Proof.
  intros Hwf H9. destruct (additionWidth_wf a Hwf) as (-> & Hw).
  unfold Int64.sub. rewrite wrap64_small by (unfold Int64.in_range, Int64.half; lia).
  apply intPow_negative. lia.
Qed.

Lemma installIRecord_not_Panic (record : IRecord.t) (p : parser) :
  installIRecord record p <> Panic.
Proof.
  unfold installIRecord.
  repeat match goal with
    | |- context [match ?m !! ?k with _ => _ end] =>
        destruct (m !! k); cbn [obind]
    | |- context [intPow ?x ?y] =>
        let H := fresh in
        pose proof (intPow_not_Panic x y) as H;
        destruct (intPow x y); cbn [obind]; try congruence; clear H
    end; congruence.
Qed.

Lemma installIRecord_returns (record : IRecord.t) (p : parser) :
  tablesInv p ->
  Forall wellFormedAddition (IRecord.Additions record) ->
  (forall a, a ∈ IRecord.Additions record -> TLC a = "TDS"%string ->
             widthOf a <= 9) ->
  returns (installIRecord record p).
Proof.
  intros Hinv Hwf Htds. unfold installIRecord.
  fold (byTLC (bRecordsAdditionsByTLC p) (IRecord.Additions record)).
  pose proof (fun k a => byTLC_lookup_wf p (IRecord.Additions record) k a Hinv Hwf)
    as Hlook.
  pose proof (fun a => byTLC_lookup_TLC (IRecord.Additions record)
                         (bRecordsAdditionsByTLC p) "TDS"%string a) as Hsrc.
  set (m' := byTLC _ _) in *.
  cbn [bRecordsAdditionsByTLC set_bRecordAdditions].
  assert (Hfit : forall a, m' !! "TDS"%string = Some a -> widthOf a <= 9).
  { intros a Ha. apply Hsrc in Ha as [(Hin & Hc)|Hold]; [now apply Htds|].
    destruct Hinv as (_ & _ & _ & _ & _ & _ & Itds & _ & Imul).
    rewrite Itds, Hold in Imul. lia. }
  clear Hsrc.
  destruct (m' !! "LAD"%string) as [lad|] eqn:Elad;
    [destruct (intPow_width_returns lad (Hlook _ _ Elad)) as (z & ->)|];
    cbn [obind bRecordsAdditionsByTLC set_lad set_bRecordAdditions];
    (destruct (m' !! "LOD"%string) as [lod|] eqn:Elod;
     [destruct (intPow_width_returns lod (Hlook _ _ Elod)) as (z' & ->)|]);
    cbn [obind bRecordsAdditionsByTLC set_lod set_lad set_bRecordAdditions];
    (destruct (m' !! "TDS"%string) as [tds|] eqn:Etds;
     [destruct (intPow_tds_returns tds (Hlook _ _ Etds) (Hfit _ eq_refl))
        as (z'' & ->)|]);
    cbn [obind]; eexists; reflexivity.
Qed.

Lemma satelliteIDs_loop_returns (count : nat) (i : Z) (m4 : list ascii)
    (satelliteIDs : list Z) :
  0 <= i -> 2 * (i + Z.of_nat count) <= len m4 ->
  returns (satelliteIDs_loop count i m4 satelliteIDs).
Proof.
  revert i satelliteIDs. induction count as [|count IH]; intros i ids Hi Hlen.
  - now eexists.
  - cbn [satelliteIDs_loop]. rewrite slice_in_bounds by lia. cbn [obind].
    apply IH; lia.
Qed.

Lemma parseRecordAdditions_loop_returns (count : nat) (i : Z) (m2 : list ascii)
    (startColumn : Z) (additions : list RecordAddition) (errs : list error) :
  0 <= i -> 7 * (i + Z.of_nat count) <= len m2 ->
  returns (parseRecordAdditions_loop count i m2 startColumn additions errs).
Proof.
  revert i startColumn additions errs.
  induction count as [|count IH]; intros i startColumn additions errs Hi Hlen.
  - now eexists.
  - cbn [parseRecordAdditions_loop]. rewrite !slice_in_bounds by lia.
    cbn [obind]. cbv zeta. case_bool_decide; apply IH; lia.
Qed.

Lemma parseRecordAdditions_returns (p : parser) (line : list ascii)
    (startColumn : Z) :
  line <> [] -> returns (parseRecordAdditions p line startColumn).
Proof.
  intros Hne. unfold parseRecordAdditions.
  destruct line as [|b line']; [contradiction|].
  destruct (Rx.find Grammar.ijmRecordRx (b :: line')) as [m|] eqn:Hm;
    [|now eexists].
  apply ijmRecordRx_captures in Hm. apply atoi_two_bytes in Hm.
  cbv zeta. unfold Int64.mul.
  rewrite wrap64_small by (unfold Int64.in_range, Int64.half; lia).
  destruct (Z.eqb_spec (len (Rx.get_cap m 2)) (7 * atoi_ (Rx.get_cap m 1)))
    as [E|E]; cbn [negb]; [|now eexists].
  pose proof (len_nonneg (Rx.get_cap m 2)).
  destruct (parseRecordAdditions_loop_returns
              (Z.to_nat (atoi_ (Rx.get_cap m 1))) 0 (Rx.get_cap m 2)
              startColumn [] []) as ([additions errs] & ->); [lia|lia|].
  now eexists.
Qed.

Lemma tablesInv_wf (p : parser) :
  tablesInv p ->
  Forall wellFormedAddition (bRecordAdditions p) /\
  Forall wellFormedAddition (kRecordAdditions p) /\
  Forall wellFormedAddition (nRecordAdditions p) /\
  (forall a, tdsBRecordAddition p = Some a -> wellFormedAddition a) /\
  (forall a, ladBRecordAddition p = Some a -> wellFormedAddition a) /\
  (forall a, lodBRecordAddition p = Some a -> wellFormedAddition a).
Proof.
  intros Hinv. pose proof (installedAdditions_wf p Hinv) as Hwf.
  unfold installedAdditions in Hwf. rewrite !Forall_app in Hwf.
  destruct Hwf as (Hb & Hk & Hn & _ & Hlad & Hlod & Htds).
  split_and!; try assumption; intros a Ha.
  - rewrite Ha in Htds. now inversion Htds.
  - rewrite Ha in Hlad. now inversion Hlad.
  - rewrite Ha in Hlod. now inversion Hlod.
Qed.

Lemma specialAddition_returns (a : option RecordAddition) (line : list ascii)
    (errs : list error) (base : Z) (apply : Z -> Z) :
  (forall x, a = Some x -> wellFormedAddition x) ->
  returns (specialAddition a line errs base apply).
Proof.
  intros Hwf. unfold specialAddition. destruct a as [x|]; [|now eexists].
  rewrite intValue_wf by auto. cbn [obind].
  destruct (decodeOf x line); now eexists.
Qed.

Lemma decodeAdditionTable_returns (additions : list RecordAddition)
    (line : list ascii) (errs : list error) :
  Forall wellFormedAddition additions ->
  returns (decodeAdditionTable additions line errs).
Proof.
  intros Hwf. unfold decodeAdditionTable.
  destruct (0 <? len additions); [|now eexists].
  rewrite decodeAdditions_spec by exact Hwf. now eexists.
Qed.

Ltac returns_step :=
  match goal with
  | |- returns (obind (parseTime ?p ?h ?m ?s ?ns ?errs) _) =>
      let t := fresh "t" in
      let errs' := fresh "errs" in
      let p' := fresh "p" in
      let Ht := fresh "Ht" in
      destruct (parseTime_returns p h m s ns errs) as ([[t errs'] p'] & Ht);
      rewrite Ht; cbn [obind]
  | |- returns (obind (specialAddition ?a ?line ?errs ?base ?f) _) =>
      let v := fresh "v" in
      let errs' := fresh "errs" in
      let H := fresh in
      assert (H : returns (specialAddition a line errs base f))
        by (apply specialAddition_returns; tauto);
      destruct H as ([v errs'] & ->); cbn [obind]
  | |- returns (obind (decodeAdditionTable ?a ?line ?errs) _) =>
      let v := fresh "v" in
      let errs' := fresh "errs" in
      let H := fresh in
      assert (H : returns (decodeAdditionTable a line errs))
        by (apply decodeAdditionTable_returns; tauto);
      destruct H as ([v errs'] & ->); cbn [obind]
  | |- returns (obind (index0 ?l) _) =>
      let c := fresh "c" in
      destruct l as [|c ?]; [tauto|]; cbn [index0 obind]
  | |- returns (Ret _) => eexists; reflexivity
  end.

Lemma parseBRecord_returns (p : parser) (line : list ascii) :
  tablesInv p -> returns (parseBRecord p line).
Proof.
  intros Hinv. unfold parseBRecord.
  destruct (Rx.find Grammar.bRecordRx line) as [m|] eqn:Hm; [|now eexists].
  apply bRecordRx_captures in Hm as (_ & _ & _ & H6 & H9 & H10).
  pose proof (tablesInv_wf p Hinv) as Hwf.
  returns_step. returns_step.
  assert (Hinv' : tablesInv p0)
    by (eapply timeStep_tables; [eapply parseTime_timeStep|]; eassumption).
  pose proof (tablesInv_wf p0 Hinv') as Hwf'.
  repeat returns_step.
Qed.

Lemma parseCRecord_returns (p : parser) (line : list ascii) :
  returns (parseCRecord p line).
Proof.
  unfold parseCRecord.
  destruct (if len (cRecords p) =? 0 then _ else _); [now eexists|].
  unfold parseCRecordWaypoint.
  destruct (Rx.find Grammar.cRecordWaypointRx line) as [m|] eqn:Hm; [|now eexists].
  apply cRecordWaypointRx_captures in Hm as (H3 & H6).
  repeat returns_step.
Qed.

Lemma parseERecord_returns (p : parser) (line : list ascii) :
  returns (parseERecord p line).
Proof.
  unfold parseERecord.
  destruct (Rx.find Grammar.eRecordRx line) as [m|]; [repeat returns_step|].
  destruct (Rx.find Grammar.eRecordWithoutTLCRx line) as [m|]; repeat returns_step.
Qed.

Lemma parseFRecord_returns (p : parser) (line : list ascii) :
  returns (parseFRecord p line).
Proof.
  unfold parseFRecord.
  destruct (Rx.find Grammar.fRecordRx line) as [m|]; [|now eexists].
  returns_step. cbv zeta.
  pose proof (len_nonneg (Rx.get_cap m 4)) as Hlen.
  destruct (satelliteIDs_loop_returns (Z.to_nat (len (Rx.get_cap m 4) / 2)) 0
              (Rx.get_cap m 4) []) as (ids & ->); [lia| |now eexists].
  rewrite Z2Nat.id by (apply Z.div_pos; lia).
  apply Z.mul_div_le. lia.
Qed.

Lemma parseHRecord_returns (p : parser) (line : list ascii) :
  returns (parseHRecord p line).
Proof.
  unfold parseHRecord.
  destruct (Rx.find Grammar.hfdteRecordRx line); [now eexists|].
  destruct (Rx.find Grammar.hffxaRecordRx line); [now eexists|].
  destruct (Rx.find Grammar.hRecordRx line) as [m|] eqn:Hm.
  - apply hRecordRx_captures in Hm. returns_step. cbv zeta.
    case_bool_decide; [|now eexists].
    destruct (Rx.find Grammar.hfdteRecordValueRx _); now eexists.
  - destruct (Rx.find Grammar.hRecordWithInvalidSourceRx line) as [m|] eqn:Hm';
      [|now eexists].
    apply hRecordWithInvalidSourceRx_captures in Hm'. repeat returns_step.
Qed.

Lemma parseKRecord_returns (p : parser) (line : list ascii) :
  tablesInv p -> returns (parseKRecord p line).
Proof.
  intros Hinv. unfold parseKRecord.
  destruct (Rx.find Grammar.knRecordRx line) as [m|]; [|now eexists].
  returns_step.
  assert (Hinv' : tablesInv p0)
    by (eapply timeStep_tables; [eapply parseTime_timeStep|]; eassumption).
  pose proof (tablesInv_wf p0 Hinv') as Hwf'.
  repeat returns_step.
Qed.

Lemma parseNRecord_returns (p : parser) (line : list ascii) :
  tablesInv p -> returns (parseNRecord p line).
Proof.
  intros Hinv. unfold parseNRecord.
  destruct (Rx.find Grammar.knRecordRx line) as [m|]; [|now eexists].
  returns_step.
  assert (Hinv' : tablesInv p0)
    by (eapply timeStep_tables; [eapply parseTime_timeStep|]; eassumption).
  pose proof (tablesInv_wf p0 Hinv') as Hwf'.
  repeat returns_step.
Qed.

Lemma dispatch_returns (p : parser) (line : list ascii) :
  tablesInv p -> line <> [] -> returns (dispatch p line).
Proof.
  intros Hinv Hne. unfold dispatch. destruct line as [|b line']; [contradiction|].
  cbn [index0 obind].
  repeat match goal with
    | |- returns (if Ascii.eqb ?x ?y then _ else _) =>
        destruct (Ascii.eqb_spec x y) as [->|]
    end.
  15: now eexists.
  - unfold parseARecord. destruct (Rx.find _ _); [|now eexists].
    destruct (_ !! _); [|now eexists].
    destruct (bytes_Cut _ _) as [[? ?] ?]. now eexists.
  - destruct (parseBRecord_returns p ("B"%char :: line') Hinv) as ([[? ?] ?] & ->).
    now eexists.
  - destruct (parseCRecord_returns p ("C"%char :: line')) as ([? ?] & ->).
    now eexists.
  - unfold parseDRecord. destruct (Rx.find _ _) as [m|] eqn:Hm; [|now eexists].
    apply dRecordRx_captures in Hm.
    destruct (Rx.get_cap m 1); [contradiction|]. now eexists.
  - apply parseERecord_returns.
  - destruct (parseFRecord_returns p ("F"%char :: line')) as ([[? ?] ?] & ->).
    now eexists.
  - unfold parseGRecord. destruct (Rx.find _ _); now eexists.
  - destruct (parseHRecord_returns p ("H"%char :: line')) as ([? ?] & ->).
    now eexists.
  - unfold parseIRecord.
    destruct (parseRecordAdditions_returns p ("I"%char :: line') 36)
      as ([? [?|]] & ->); [discriminate|now eexists..].
  - unfold parseJRecord.
    destruct (parseRecordAdditions_returns p ("J"%char :: line') 8)
      as ([? [?|]] & ->); [discriminate|now eexists..].
  - destruct (parseKRecord_returns p ("K"%char :: line') Hinv) as ([[? ?] ?] & ->).
    now eexists.
  - unfold parseLRecord. destruct (Rx.find _ _); [now eexists|].
    destruct (Rx.find _ _); now eexists.
  - unfold parseMRecord.
    destruct (parseRecordAdditions_returns p ("M"%char :: line') 8)
      as ([? [?|]] & ->); [discriminate|now eexists..].
  - destruct (parseNRecord_returns p ("N"%char :: line') Hinv) as ([[? ?] ?] & ->).
    now eexists.
Qed.

Lemma checkInvalidChars_returns (p : parser) (lineStr : string)
    (err : option error) :
  returns (checkInvalidChars p lineStr err).
Proof.
  unfold checkInvalidChars. destruct (negb (allowInvalidChars p)); [|now eexists].
  destruct (Rx.find Grammar.invalidCharsRx (bytes lineStr)) as [m|] eqn:Hm;
    [|now eexists].
  apply invalidCharsRx_captures in Hm.
  destruct (Rx.get_cap m 1); [contradiction|]. cbn [index0 obind].
  destruct err; now eexists.
Qed.

Lemma dispatch_I (p : parser) (line : list ascii) (r : IRecord.t) err p' :
  dispatch p line = Ret (ptrIRecord (Some r), err, p') ->
  index0 line = Ret "I"%char /\ parseIRecord p line = Ret (Some r, err) /\ p' = p.
Proof.
  intros H. apply dispatch_cases in H.
  inversion H as
    [ r' err' _ _ | r' err' p'' _ H' | record err' _ H' | r' err' _ _
    | record err' p'' _ H' | r' err' p'' _ H' | r' err' _ _ | record err' _ H'
    | r' err' Hb H' | r' err' _ H' | r' err' p'' _ H' | record err' _ H'
    | r' err' _ H' | r' err' p'' _ H' | b _ _ ]; subst.
  - apply parseCRecord_shape in H' as [E|[[x E]|[x E]]]; discriminate.
  - apply parseERecord_shape in H' as [E|[[x E]|[x E]]]; discriminate.
  - apply parseHRecord_shape in H' as (_ & HI & _). exfalso. eauto.
  - auto.
  - apply parseLRecord_shape in H' as [E|[[x E]|[x E]]]; discriminate.
Qed.

Lemma parseLine_updateState (i : Z) (l : string) (st : loopState) :
  tablesInv (st_parser st) -> isEmptyLine l = false ->
  exists record err p1 st1,
    dispatch (st_parser st) (bytes l) = Ret (record, err, p1) /\
    parseLine i l st = updateState record st1 /\
    st_parser st1 = p1 /\ tablesInv p1.
Proof.
  intros Hinv He. unfold parseLine. unfold isEmptyLine in He. rewrite He.
  assert (Hne : bytes l <> []).
  { intros E. rewrite E in He. discriminate. }
  destruct (dispatch_returns (st_parser st) (bytes l) Hinv Hne)
    as ([[record err] p1] & Hd).
  rewrite Hd. cbn [obind].
  destruct (checkInvalidChars_returns p1 l err) as (err' & ->). cbn [obind].
  eexists record, err, p1, _. split; [reflexivity|]. split; [reflexivity|].
  split; [reflexivity|].
  pose proof (dispatch_time _ _ _ _ _ Hd) as Ht.
  destruct (recordTime record); [eapply timeStep_tables; eassumption|now subst].
Qed.

Lemma updateState_not_Panic (record : Record) (st : loopState) :
  updateState record st <> Panic.
Proof.
  unfold updateState.
  destruct record as [|[r|]|[r|]|[r|]|[r|]|[r|]|[r|]|[r|]|[r|]|[r|]|[r|]|[r|]
                      |[r|]|[r|]|[r|]|[r|]|[r|]|[r|]|[r|]|[r|]];
    try discriminate.
  pose proof (installIRecord_not_Panic r (st_parser st)) as H.
  destruct (installIRecord r (st_parser st)); cbn [obind]; congruence.
Qed.

Lemma updateState_returns (record : Record) (st : loopState) :
  (forall r, record = ptrIRecord (Some r) ->
             returns (installIRecord r (st_parser st))) ->
  returns (updateState record st).
Proof.
  intros HI. unfold updateState.
  destruct record as [|[r|]|[r|]|[r|]|[r|]|[r|]|[r|]|[r|]|[r|]|[r|]|[r|]|[r|]
                      |[r|]|[r|]|[r|]|[r|]|[r|]|[r|]|[r|]|[r|]];
    try (eexists; reflexivity).
  destruct (HI r eq_refl) as (p' & ->). now eexists.
Qed.

Lemma parseLine_not_Panic (i : Z) (l : string) (st : loopState) :
  tablesInv (st_parser st) -> parseLine i l st <> Panic.
Proof.
  intros Hinv. destruct (isEmptyLine l) eqn:He.
  - unfold parseLine. unfold isEmptyLine in He. rewrite He. discriminate.
  - destruct (parseLine_updateState i l st Hinv He)
      as (record & err & p1 & st1 & _ & -> & _).
    apply updateState_not_Panic.
Qed.

Lemma parseLine_returns (i : Z) (l : string) (st : loopState) :
  tablesInv (st_parser st) -> tdsFits l = true -> returns (parseLine i l st).
Proof.
  intros Hinv Hfit. destruct (isEmptyLine l) eqn:He.
  - unfold parseLine. unfold isEmptyLine in He. rewrite He. now eexists.
  - destruct (parseLine_updateState i l st Hinv He)
      as (record & err & p1 & st1 & Hd & -> & Hp1 & Hinv1).
    apply updateState_returns. intros r ->. rewrite Hp1.
    pose proof (dispatch_additions _ _ _ _ _ Hd) as Hwf. cbn in Hwf.
    apply dispatch_I in Hd as (Hb & HI & _).
    apply installIRecord_returns; [exact Hinv1|exact Hwf|].
    intros a Ha Hc. unfold tdsFits in Hfit.
    destruct (bytes l) as [|b rest]; [discriminate|].
    injection Hb as ->.
    change (parseIRecord (newParser []) ("I"%char :: rest))
      with (parseIRecord (st_parser st) ("I"%char :: rest)) in Hfit.
    rewrite HI in Hfit. rewrite forallb_forall in Hfit.
    apply list_elem_of_In in Ha. specialize (Hfit a Ha). rewrite Hc in Hfit.
    cbn in Hfit. lia.
Qed.


Lemma parseLines_loop_returns (lines : list string) (i : Z) (st : loopState) :
  tablesInv (st_parser st) -> Forall (fun l => tdsFits l = true) lines ->
  returns (parseLines_loop i lines st).
Proof.
  revert i st. induction lines as [|l lines IH]; intros i st Hinv Hfit;
    [now eexists|].
  cbn [parseLines_loop]. apply Forall_cons in Hfit as (Hl & Hfit).
  destruct (parseLine_returns i l st Hinv Hl) as (st' & E). rewrite E.
  cbn [obind]. apply IH; [|exact Hfit]. eapply tablesInv_step; eassumption.
Qed.

Lemma newParser_tablesInv (flags : list bool) :
  tablesInv (newParser (optionsOf flags)).
Proof.
  apply (reached_tablesInv flags [] (initialState (newParser (optionsOf flags)))).
  now apply reached_nil.
Qed.


(** X18. [ParseLines] returns a document when no I line declares a TDS
    addition wider than 9 columns; the state the loop has reached is the
    one the document is made of. *)
Lemma ParseLines_returns (flags : list bool) (lines : list string) :
  Forall (fun l => tdsFits l = true) lines ->
  exists st,
    reached flags lines st /\
    ParseLines lines (optionsOf flags) = Ret (documentOf st).
Proof.
  intros Hfit.
  destruct (parseLines_loop_returns lines 0
              (initialState (newParser (optionsOf flags)))
              (newParser_tablesInv flags) Hfit)
    as (st & Hst).
  exists st. split; [exact Hst|]. apply ParseLines_reached. eauto.
Qed.

Lemma ParseLines_returns_witness :
  Forall (fun l => tdsFits l = true) rolloverLines /\
  exists st,
    reached [] rolloverLines st /\
    ParseLines rolloverLines (optionsOf []) = Ret (documentOf st).
Proof.
  assert (H : Forall (fun l => tdsFits l = true) rolloverLines)
    by (repeat (constructor; [vm_compute; reflexivity|]); constructor).
  split; [exact H|]. exact (ParseLines_returns [] rolloverLines H).
Defined.

(** An I record that declares a TDS addition of ten columns makes
    [intPow] run on the exponent -1: the parse never returns. *)
Lemma ParseLines_wide_TDS : ParseLines wideTDSLines [] = Diverge.
Proof. vm_compute. reflexivity. Qed.

(** ** Slicing the columns of an addition *)

(** C10. The grammar of the addition declarations, started at column 36
    or 8, yields additions that follow one another from that column on,
    each with its start column at the cursor and its finish column not
    before it.  So every addition a reached parser state holds, in any of
    its tables, has a column range within 1 to 99, and decoding it from a
    line at least as long as its finish column slices the bytes from
    offset start-1 to offset finish within the bounds of the line: the
    slice is the addition's columns and nothing panics; on a shorter line
    no slice is taken at all.  Whatever line comes next, parsing it
    does not panic. *)
Theorem addition_slice_in_bounds (flags : list bool) (lines : list string)
    (st : loopState) (a : RecordAddition) :
  reached flags lines st ->
  a ∈ installedAdditions (st_parser st) ->
  (forall (p : parser) (line : list ascii) (startColumn : Z)
          (additions : list RecordAddition) (err : option error),
     startColumn = 36 \/ startColumn = 8 ->
     parseRecordAdditions p line startColumn = Ret (additions, err) ->
     contiguousFrom startColumn additions /\
     Forall wellFormedAddition additions) /\
  wellFormedAddition a /\
  forall (dataLine : list ascii) (errs : list error),
    (FinishColumn a <= len dataLine ->
     0 <= StartColumn a - 1 /\ StartColumn a - 1 <= FinishColumn a /\
     slice dataLine (Int64.sub (StartColumn a) 1) (FinishColumn a)
     = Ret (columnsOf a dataLine) /\
     bytesValue a dataLine errs = Ret (columnsOf a dataLine, errs, true)) /\
    (len dataLine < FinishColumn a ->
     bytesValue a dataLine errs
     = Ret ([], errs ++ [missingAdditionError a], false)) /\
    parseLine (len lines) (gostring dataLine) st <> Panic.
Proof.
  intros Hr Ha. split.
  { intros p line startColumn additions err Hs H.
    apply parseIJM_additions in H; [tauto | lia]. }
  pose proof (installedAdditions_wf _ (reached_tablesInv _ _ _ Hr)) as Hwf.
  rewrite Forall_forall in Hwf. specialize (Hwf a Ha).
  split; [exact Hwf|]. intros dataLine errs.
  pose proof (bytesValue_wf a dataLine errs Hwf) as Hbv.
  destruct Hwf as (H1 & H2 & H3). split.
  - intros Hlen. destruct (Z.ltb_spec (len dataLine) (FinishColumn a)); [lia|].
    split_and!; try lia; [|exact Hbv].
    revert Hbv. unfold bytesValue.
    destruct (Z.ltb_spec (len dataLine) (FinishColumn a)); [lia|].
    destruct (slice _ _ _) as [w| |]; cbn [obind]; [|discriminate..].
    now intros [= ->].
  - split; [|apply parseLine_not_Panic; now apply (reached_tablesInv flags lines)].
    intros Hlen. destruct (Z.ltb_spec (len dataLine) (FinishColumn a)); [|lia].
    exact Hbv.
Qed.

Lemma addition_slice_in_bounds_witness :
  reached [] additionLines additionState /\
  mkRecordAddition "SIU" 39 40 ∈ installedAdditions (st_parser additionState) /\
  bytesValue (mkRecordAddition "SIU" 39 40)
    (bytes "B1501444708879N00832146EA009290094100612") []
  = Ret (bytes "12", [], true).
Proof.
  assert (H : reached [] additionLines additionState) by (vm_compute; reflexivity).
  assert (Ha : mkRecordAddition "SIU" 39 40
               ∈ installedAdditions (st_parser additionState)).
  { vm_compute. apply list_elem_of_In. cbn. tauto. }
  split; [exact H|]. split; [exact Ha|].
  destruct (addition_slice_in_bounds [] additionLines additionState _ H Ha)
    as (_ & _ & Hd).
  destruct (Hd (bytes "B1501444708879N00832146EA009290094100612") []) as (Hok & _).
  destruct Hok as (_ & _ & _ & Hbv); [vm_compute; discriminate|].
  exact Hbv.
Defined.

(** ** Arithmetic modulo 2^64 *)

Lemma wrap64_eq_mod (a b : Z) :
  a mod Int64.modulus = b mod Int64.modulus -> Int64.wrap64 a = Int64.wrap64 b.
Proof.
  intros H. unfold Int64.wrap64. f_equal.
  rewrite <- (Zplus_mod_idemp_l a), <- (Zplus_mod_idemp_l b). now rewrite H.
Qed.

Lemma wrap64_mod (a : Z) : Int64.wrap64 a mod Int64.modulus = a mod Int64.modulus.
Proof.
  unfold Int64.wrap64.
  rewrite <- Zminus_mod_idemp_l, Zmod_mod, Zminus_mod_idemp_l.
  f_equal. lia.
Qed.

Lemma wrap64_mul_l (a b : Z) :
  Int64.wrap64 (Int64.wrap64 a * b) = Int64.wrap64 (a * b).
Proof.
  apply wrap64_eq_mod.
  rewrite <- Zmult_mod_idemp_l, wrap64_mod, Zmult_mod_idemp_l. reflexivity.
Qed.

Lemma wrap64_mul_r (a b : Z) :
  Int64.wrap64 (a * Int64.wrap64 b) = Int64.wrap64 (a * b).
Proof. rewrite (Z.mul_comm a), wrap64_mul_l. f_equal. lia. Qed.

Lemma wrap64_idem (a : Z) : Int64.wrap64 (Int64.wrap64 a) = Int64.wrap64 a.
Proof. apply wrap64_eq_mod, wrap64_mod. Qed.

(** ** [atoi] reads decimal numerals *)

Lemma wrap64_affine (a r r' c : Z) :
  Int64.wrap64 r = Int64.wrap64 r' ->
  Int64.wrap64 (a * r + c) = Int64.wrap64 (a * r' + c).
Proof.
  intros H. rewrite <- (wrap64_idem_add (a * r)), <- (wrap64_idem_add (a * r')).
  rewrite <- (wrap64_mul_r a r), <- (wrap64_mul_r a r'), H. reflexivity.
Qed.

Lemma atoi_digits_decimal (digits : list ascii) (r r' : Z) :
  forallb isDigit digits = true ->
  Int64.wrap64 r = Int64.wrap64 r' ->
  exists v,
    atoi_digits digits r = Some v /\
    Int64.wrap64 v
    = Int64.wrap64 (foldl (fun r b => 10 * r + (byteZ b - byteZ "0")) r' digits).
Proof.
  revert r r'. induction digits as [|b digits IH]; intros r r' Hd Hr;
    cbn [atoi_digits foldl forallb] in *.
  - eauto.
  - apply andb_prop in Hd as (Hb & Hd). unfold isDigit in Hb.
    apply andb_prop in Hb as (Hb0 & Hb9).
    apply Z.leb_le in Hb0, Hb9.
    destruct (Z.ltb_spec (byteZ b) (byteZ "0")); [lia|].
    destruct (Z.ltb_spec (byteZ "9") (byteZ b)); [lia|]. cbn [orb].
    apply IH; [exact Hd|].
    unfold Int64.sub, Int64.add, Int64.mul.
    replace (Int64.wrap64 (Int64.wrap64 (10 * r) + byteZ b) - byteZ "0")
      with (Int64.wrap64 (Int64.wrap64 (10 * r) + byteZ b) + (- byteZ "0")) by lia.
    rewrite wrap64_idem_add, wrap64_idem.
    replace (Int64.wrap64 (10 * r) + byteZ b + - byteZ "0")
      with (Int64.wrap64 (10 * r) + (byteZ b - byteZ "0")) by lia.
    rewrite wrap64_idem_add. now apply wrap64_affine.
Qed.

Lemma atoi_digits_wrapped (digits : list ascii) (r v : Z) :
  Int64.in_range r -> atoi_digits digits r = Some v -> Int64.in_range v.
Proof.
  revert r. induction digits as [|b digits IH]; intros r Hr; cbn [atoi_digits].
  - now intros [= <-].
  - destruct (_ || _); [discriminate|]. apply IH. apply wrap64_range.
Qed.

Lemma atoi_digits_rejects (digits : list ascii) (r : Z) :
  forallb isDigit digits = false -> atoi_digits digits r = None.
Proof.
  revert r. induction digits as [|b digits IH]; intros r; cbn [atoi_digits forallb].
  - discriminate.
  - unfold isDigit at 1.
    destruct (Z.ltb_spec (byteZ b) (byteZ "0")),
             (Z.ltb_spec (byteZ "9") (byteZ b)); cbn [orb]; try reflexivity.
    replace (byteZ "0" <=? byteZ b) with true by (symmetry; apply Z.leb_le; lia).
    replace (byteZ b <=? byteZ "9") with true by (symmetry; apply Z.leb_le; lia).
    cbn [andb]. apply IH.
Qed.

Lemma decimal_bound (digits : list ascii) :
  forallb isDigit digits = true -> 0 <= decimal digits < 10 ^ len digits.
Proof.
  unfold decimal.
  assert (H : forall r, 0 <= r -> forallb isDigit digits = true ->
            r * 10 ^ len digits
            <= foldl (fun r b => 10 * r + (byteZ b - byteZ "0")) r digits
            < (r + 1) * 10 ^ len digits).
  { induction digits as [|b digits IH]; intros r Hr Hd; cbn [foldl forallb] in *.
    - unfold len. cbn. lia.
    - apply andb_prop in Hd as (Hb & Hd). unfold isDigit in Hb.
      apply andb_prop in Hb as (Hb0 & Hb9). apply Z.leb_le in Hb0, Hb9.
      change (byteZ "9") with 57 in *. change (byteZ "0") with 48 in *.
      specialize (IH (10 * r + (byteZ b - 48)) ltac:(lia) Hd).
      replace (len (b :: digits)) with (len digits + 1)
        by (unfold len; cbn [length]; lia).
      pose proof (len_nonneg digits).
      rewrite Z.pow_add_r by lia. change (10 ^ 1) with 10.
      assert (0 < 10 ^ len digits) by (apply Z.pow_pos_nonneg; lia). nia. }
  intros Hd. specialize (H 0 ltac:(lia) Hd). lia.
Qed.

Lemma atoi_numeral (data : list ascii) :
  let '(sign, digits) := signAndDigits data in
  if isNumeral data then
    atoi data = (Int64.wrap64 (sign * decimal digits), None) /\
    (len digits <= 18 -> atoi data = (sign * decimal digits, None))
  else atoi data = (0, Some (atoiSyntaxError (gostring data))).
Proof.
  unfold isNumeral, atoi.
  change (match data with
          | [] => (1, data)
          | b :: data' =>
              if bool_decide (b = "-"%char) then (-1, data') else (1, data)
          end) with (signAndDigits data).
  assert (Hs : fst (signAndDigits data) = 1 \/ fst (signAndDigits data) = -1).
  { unfold signAndDigits. destruct data as [|b ?]; [auto|].
    case_bool_decide; auto. }
  destruct (signAndDigits data) as [sign digits]. cbn [fst] in Hs.
  destruct digits as [|d digits]; [reflexivity|].
  rewrite bool_decide_eq_false_2 by discriminate. cbn [negb andb].
  destruct (forallb isDigit (d :: digits)) eqn:Hd.
  - destruct (atoi_digits_decimal (d :: digits) 0 0 Hd eq_refl) as (v & Hv & Hw).
    rewrite Hv. fold (decimal (d :: digits)) in Hw.
    assert (Hr : Int64.in_range v).
    { eapply atoi_digits_wrapped; [|exact Hv].
      unfold Int64.in_range, Int64.half. lia. }
    assert (E : Int64.mul v sign = Int64.wrap64 (sign * decimal (d :: digits))).
    { unfold Int64.mul. rewrite <- (wrap64_small v Hr), Hw, wrap64_mul_l.
      f_equal. lia. }
    rewrite E. split; [reflexivity|]. intros Hlen.
    rewrite wrap64_small; [reflexivity|].
    pose proof (decimal_bound _ Hd) as Hb.
    assert (10 ^ len (d :: digits) <= 10 ^ 18)
      by (apply Z.pow_le_mono_r; lia).
    unfold Int64.in_range, Int64.half. destruct Hs as [-> | ->]; lia.
  - now rewrite atoi_digits_rejects.
Qed.

(** X1. [atoi] accepts exactly an optional minus sign followed by one
    or more decimal digits.  On such a numeral it returns the number the
    digits denote, negated after a minus and reduced to 64 bits, which
    is the number itself when there are at most 18 digits; on anything
    else (the empty string, a lone minus, a plus sign, a letter) it
    returns 0 and a syntax error that quotes the whole input. *)
Theorem atoi_reads_decimal (data : list ascii) :
  let '(sign, digits) := signAndDigits data in
  if isNumeral data then
    atoi data = (Int64.wrap64 (sign * decimal digits), None) /\
    (len digits <= 18 -> atoi data = (sign * decimal digits, None))
  else atoi data = (0, Some (atoiSyntaxError (gostring data))).
Proof. apply atoi_numeral. Qed.

(** ** [intPow] raises to a power *)

Lemma intPow_loop_power (fuel : nat) (x y result z : Z) :
  0 <= y ->
  intPow_loop fuel x y result = Some z ->
  Int64.wrap64 z = Int64.wrap64 (result * x ^ y) /\
  (Int64.in_range result -> Int64.in_range z).
Proof.
  revert x y result. induction fuel as [|fuel IH]; intros x y result Hy;
    cbn [intPow_loop]; [discriminate|].
  destruct (Z.eqb_spec y 0) as [->|Hnz].
  - intros [= <-]. rewrite Z.pow_0_r, Z.mul_1_r. auto.
  - intros H. apply IH in H as (Hz & Hr);
      [|rewrite Z.shiftr_div_pow2 by lia; apply Z.div_pos; lia].
    rewrite Z.shiftr_div_pow2 in Hz by lia. change (2 ^ 1) with 2 in Hz.
    assert (Hbit : Z.land y 1 = y mod 2).
    { exact (Z.land_ones y 1 ltac:(lia)). }
    rewrite Hbit in *.
    pose proof (Z.div_mod y 2 ltac:(lia)) as Hdm.
    pose proof (Z.mod_pos_bound y 2 ltac:(lia)) as Hm.
    assert (Hq : 0 <= y / 2) by (apply Z.div_pos; lia).
    assert (Hsq : Int64.wrap64 (Int64.mul x x ^ (y / 2))
                  = Int64.wrap64 ((x * x) ^ (y / 2))).
    { generalize (y / 2) Hq. apply natlike_ind.
      - reflexivity.
      - intros n Hn IHn. rewrite !Z.pow_succ_r by lia.
        unfold Int64.mul at 1. rewrite wrap64_mul_l.
        rewrite <- wrap64_mul_r, IHn, wrap64_mul_r. reflexivity. }
    split.
    + rewrite Hz. rewrite <- wrap64_mul_r, Hsq, wrap64_mul_r.
      assert (Hpow : x ^ y = (x * x) ^ (y / 2) * x ^ (y mod 2)).
      { rewrite <- Z.pow_2_r, <- Z.pow_mul_r, <- Z.pow_add_r by lia.
        f_equal. lia. }
      rewrite Hpow.
      destruct (Z.eqb_spec (y mod 2) 1) as [E|E].
      * rewrite E, Z.pow_1_r. unfold Int64.mul. rewrite wrap64_mul_l.
        f_equal. lia.
      * assert (y mod 2 = 0) as -> by lia. rewrite Z.pow_0_r. f_equal. lia.
    + intros Hres. apply Hr.
      destruct (y mod 2 =? 1); [apply wrap64_range|exact Hres].
Qed.

(** X2. [intPow(x, y)] returns x to the power y, reduced to 64 bits,
    for every exponent that is not negative; the result is the power
    itself when that fits an [int]. *)
Theorem intPow_is_power (x y : Z) :
  0 <= y < Int64.half ->
  intPow x y = Ret (Int64.wrap64 (x ^ y)) /\
  (Int64.in_range (x ^ y) -> intPow x y = Ret (x ^ y)).
Proof.
  intros Hy. unfold intPow.
  destruct (intPow_loop 64 x y 1) as [z|] eqn:Hl.
  - apply intPow_loop_power in Hl as (Hw & Hr); [|lia].
    rewrite Z.mul_1_l in Hw.
    rewrite wrap64_small in Hw
      by (apply Hr; unfold Int64.in_range, Int64.half; lia).
    subst z. split; [reflexivity|]. intros Hfit. now rewrite wrap64_small.
  - destruct (intPow_loop_returns 63 x y 1 Hy) as (z & Hz). congruence.
Qed.

Lemma intPow_is_power_witness :
  0 <= 3 < Int64.half /\ intPow 2 3 = Ret 8.
Proof.
  assert (H : 0 <= 3 < Int64.half) by (unfold Int64.half; lia).
  split; [exact H|].
  apply (proj2 (intPow_is_power 2 3 H)).
  unfold Int64.in_range, Int64.half. lia.
Defined.

(** ** The line splitter *)

Lemma index_lookup (l : list ascii) (i : nat) (b : ascii) :
  l !! i = Some b -> index l (Z.of_nat i) = Ret b.
Proof.
  intros H. unfold index. pose proof (lookup_lt_Some _ _ _ H) as Hlt.
  replace (0 <=? Z.of_nat i) with true by (symmetry; apply Z.leb_le; lia).
  replace (Z.of_nat i <? len l) with true
    by (symmetry; apply Z.ltb_lt; unfold len; lia).
  cbn [andb]. now rewrite Nat2Z.id, H.
Qed.

Lemma trimCRs_loop_spec (n : nat) (data : list ascii) :
  len data < Int64.half ->
  (n <= length data)%nat ->
  exists w k,
    take n data = w ++ repeat CR k /\ last w <> Some CR /\
    trimCRs_loop n data = Ret (if bool_decide (w = []) then None else Some w).
Proof.
  intros Hfit. induction n as [|n IH]; intros Hn.
  - exists [], 0%nat. rewrite take_0. split; [reflexivity|]. split; [discriminate|].
    reflexivity.
  - destruct (lookup_lt_is_Some_2 data n ltac:(lia)) as (b & Hb).
    cbn [trimCRs_loop]. cbv zeta. rewrite (index_lookup _ _ _ Hb). cbn [obind].
    rewrite (take_S_r _ _ _ Hb).
    case_bool_decide as Hcr; cbn [negb].
    + subst b. destruct (IH ltac:(lia)) as (w & k & Htake & Hlast & Hrun).
      exists w, (S k). rewrite Htake, <- app_assoc. split.
      * f_equal. change [CR] with (repeat CR 1). rewrite <- repeat_app.
        f_equal. lia.
      * split; [exact Hlast|exact Hrun].
    + exists (take n data ++ [b]), 0%nat. cbn [repeat]. rewrite app_nil_r.
      split; [reflexivity|]. split.
      * rewrite last_snoc. congruence.
      * rewrite bool_decide_eq_false_2 by (intros E; now apply app_nil in E as [_ ?]).
        unfold Int64.add. rewrite wrap64_small
          by (unfold Int64.in_range, Int64.half, len in *; lia).
        rewrite slice_in_bounds by (unfold len; lia).
        cbn [obind]. rewrite drop_0. do 3 f_equal.
        rewrite <- (take_S_r _ _ _ Hb). f_equal. lia.
Qed.

Lemma trimCRs_drops_trailing_CRs_aux (data : list ascii) :
  len data < Int64.half ->
  exists w k,
    data = w ++ repeat CR k /\ last w <> Some CR /\
    trimCRs data = Ret (if bool_decide (w = []) then None else Some w).
Proof.
  intros Hfit.
  destruct (trimCRs_loop_spec (length data) data Hfit ltac:(lia))
    as (w & k & Htake & Hlast & Hrun).
  rewrite firstn_all in Htake. eauto.
Qed.

(** X3. [trimCRs] never panics on a slice whose length fits an [int].
    It splits its argument into a part
    that does not end with a carriage return and the carriage returns
    that follow it, and returns the first part, as nil when that part is
    empty: so it returns nil exactly on the empty slice and on one made
    of carriage returns only. *)
Theorem trimCRs_drops_trailing_CRs (data : list ascii) :
  len data < Int64.half ->
  exists w k,
    data = w ++ repeat CR k /\ last w <> Some CR /\
    trimCRs data = Ret (if bool_decide (w = []) then None else Some w).
Proof.
  apply trimCRs_drops_trailing_CRs_aux.
Qed.

Lemma trimCRs_drops_trailing_CRs_witness :
  len (bytes "HFDTE040624" ++ [CR; CR]) < Int64.half /\
  exists w k,
    bytes "HFDTE040624" ++ [CR; CR] = w ++ repeat CR k /\ last w <> Some CR /\
    trimCRs (bytes "HFDTE040624" ++ [CR; CR])
    = Ret (if bool_decide (w = []) then None else Some w).
Proof.
  split; [vm_compute; reflexivity|].
  apply (trimCRs_drops_trailing_CRs (bytes "HFDTE040624" ++ [CR; CR])).
  vm_compute. reflexivity.
Defined.

Lemma bytes_IndexByte_spec (s : list ascii) (c : ascii) :
  ((c ∉ s) /\ bytes_IndexByte s c = -1) \/
  exists line rest,
    s = line ++ c :: rest /\ (c ∉ line) /\ bytes_IndexByte s c = len line.
Proof.
  induction s as [|b s IH]; cbn [bytes_IndexByte].
  - left. split; [apply not_elem_of_nil|reflexivity].
  - case_bool_decide as Hb.
    + subst b. right. exists [], s. split; [reflexivity|].
      split; [apply not_elem_of_nil|reflexivity].
    + destruct IH as [(Hnot & ->)|(line & rest & -> & Hnot & ->)].
      * left. split; [|reflexivity]. rewrite not_elem_of_cons. auto.
      * right. exists (b :: line), rest. split; [reflexivity|].
        split; [rewrite not_elem_of_cons; auto|].
        pose proof (len_nonneg line).
        destruct (Z.ltb_spec (len line) 0); [lia|].
        unfold len. cbn [length]. lia.
Qed.

(** X4. [scanLines] never panics and never returns an error, on data
    whose length fits an [int].  If the data hold a line feed, it
    advances past the first one and the token is the text before it
    without its trailing carriage returns, whether or not the input has
    ended; with no line feed it asks for more data (advance 0, nil
    token), unless the input has ended with data left, which then are
    the last token.  A token is nil when nothing but carriage returns
    would be left of it: no token is ever empty, holds a line feed or
    ends with a carriage return. *)
Theorem scanLines_splits_at_line_feed (data : list ascii) (atEOF : bool) :
  len data < Int64.half ->
  exists advance token,
    scanLines data atEOF = Ret (advance, token, None) /\
    0 <= advance <= len data /\
    (forall w, token = Some w -> w <> [] /\ (LF ∉ w) /\ last w <> Some CR) /\
    ((exists line rest,
        data = line ++ LF :: rest /\ (LF ∉ line) /\
        advance = len line + 1 /\ trimCRs line = Ret token) \/
     ((LF ∉ data) /\ atEOF = true /\ data <> [] /\
      advance = len data /\ trimCRs data = Ret token) \/
     ((LF ∉ data) /\ (atEOF = false \/ data = []) /\
      advance = 0 /\ token = None)).
Proof.
  intros Hfit. pose proof (len_nonneg data) as Hlen.
  assert (Htok : forall l : list ascii,
            len l <= len data -> LF ∉ l ->
            exists token,
              trimCRs l = Ret token /\
              forall w, token = Some w -> w <> [] /\ (LF ∉ w) /\ last w <> Some CR).
  { intros l Hl Hnl.
    destruct (trimCRs_drops_trailing_CRs_aux l ltac:(lia))
      as (w & k & El & Hlast & Hrun).
    eexists. split; [exact Hrun|]. intros w' Hw'.
    case_bool_decide as Hnil; [discriminate|]. injection Hw' as <-.
    split; [exact Hnil|]. split; [|exact Hlast].
    intros Hin. apply Hnl. rewrite El, elem_of_app. auto. }
  unfold scanLines.
  destruct (bytes_IndexByte_spec data LF)
    as [(Hnot & ->)|(line & rest & Edata & Hnot & ->)].
  - destruct atEOF; cbn [andb].
    + destruct (Z.eqb_spec (len data) 0) as [E|E].
      * exists 0, None. split; [reflexivity|]. split; [lia|].
        split; [discriminate|]. right. right.
        split; [exact Hnot|]. split; [|auto]. right.
        destruct data; [reflexivity|]. unfold len in E. cbn in E. lia.
      * cbn [Z.leb]. destruct (Htok data ltac:(lia) Hnot) as (token & Hrun & Hw).
        rewrite Hrun. cbn [obind]. exists (len data), token.
        split; [reflexivity|]. split; [lia|]. split; [exact Hw|].
        right. left. split_and!; auto. intros ->. now apply E.
    + exists 0, None. split; [reflexivity|]. split; [lia|].
      split; [discriminate|]. right. right. auto.
  - assert (Hll : len data = len line + 1 + len rest).
    { rewrite Edata. unfold len. rewrite length_app. cbn [length]. lia. }
    pose proof (len_nonneg line). pose proof (len_nonneg rest).
    replace (atEOF && (len data =? 0)) with false
      by (symmetry; apply andb_false_intro2, Z.eqb_neq; lia).
    replace (0 <=? len line) with true by (symmetry; apply Z.leb_le; lia).
    rewrite slice_in_bounds by lia. cbn [obind].
    rewrite drop_0, Z.sub_0_r, Edata.
    unfold len at 1. rewrite Nat2Z.id, take_app_length.
    destruct (Htok line ltac:(lia) Hnot) as (token & Hrun & Hw).
    rewrite Hrun. cbn [obind]. unfold Int64.add.
    rewrite wrap64_small by (unfold Int64.in_range, Int64.half in *; lia).
    exists (len line + 1), token. split; [reflexivity|].
    split; [rewrite <- Edata; lia|]. split; [exact Hw|].
    left. exists line, rest. auto.
Qed.

Lemma scanLines_splits_at_line_feed_witness :
  len (bytes "GABC" ++ [CR; LF] ++ bytes "X") < Int64.half /\
  exists advance token,
    scanLines (bytes "GABC" ++ [CR; LF] ++ bytes "X") false
    = Ret (advance, token, None) /\
    0 <= advance <= len (bytes "GABC" ++ [CR; LF] ++ bytes "X").
Proof.
  assert (H : len (bytes "GABC" ++ [CR; LF] ++ bytes "X") < Int64.half)
    by (vm_compute; reflexivity).
  split; [exact H|].
  destruct (scanLines_splits_at_line_feed
              (bytes "GABC" ++ [CR; LF] ++ bytes "X") false H)
    as (advance & token & Hrun & Hadv & _).
  exists advance, token. split; [exact Hrun|exact Hadv].
Defined.

(** ** The lists of the document *)

Lemma updateState_lists (record : Record) (st st' : loopState) :
  updateState record st = Ret st' ->
  st_bRecords st' = st_bRecords st ++ option_list (fixOf record) /\
  st_kRecords st' = st_kRecords st ++ option_list (periodicOf record) /\
  st_hRecordsByTLC st'
  = match headerOf record with
    | Some r => <[HRecord.TLC r := r]> (st_hRecordsByTLC st)
    | None => st_hRecordsByTLC st
    end.
Proof.
  unfold updateState. intros H.
  destruct record as [|[r|]|[r|]|[r|]|[r|]|[r|]|[r|]|[r|]|[r|]|[r|]|[r|]|[r|]
                      |[r|]|[r|]|[r|]|[r|]|[r|]|[r|]|[r|]|[r|]];
    try (injection H as <-; cbn; rewrite ?app_nil_r; auto; fail).
  inv_bind H. injection H as <-. cbn. rewrite !app_nil_r. auto.
Qed.

Lemma parseLine_lists (i : Z) (l : string) (st st' : loopState) :
  parseLine i l st = Ret st' ->
  exists new : list Record,
    st_records st' = st_records st ++ new /\
    st_bRecords st' = st_bRecords st ++ omap fixOf new /\
    st_kRecords st' = st_kRecords st ++ omap periodicOf new /\
    st_hRecordsByTLC st'
    = foldl (fun m r => <[HRecord.TLC r := r]> m) (st_hRecordsByTLC st)
        (omap headerOf new).
Proof.
  intros H. apply parseLine_inv in H
    as [(_ & ->)|(_ & record & err & p1 & err' & _ & _ & Hup)].
  - exists []. cbn. rewrite !app_nil_r. auto.
  - pose proof (updateState_records _ _ _ Hup) as (Hrec & _).
    apply updateState_lists in Hup as (Hb & Hk & Hh). cbn in Hrec, Hb, Hk, Hh.
    exists [record]. rewrite Hrec, Hb, Hk, Hh. cbn.
    destruct (fixOf record), (periodicOf record), (headerOf record); cbn; auto.
Qed.

Lemma lastByTLC_lookup (headers : list HRecord.t) (m : gmap string HRecord.t)
    (tlc : string) (r : HRecord.t) :
  foldl (fun m r => <[HRecord.TLC r := r]> m) m headers !! tlc = Some r ->
  (r ∈ headers /\ HRecord.TLC r = tlc) \/ m !! tlc = Some r.
Proof.
  revert m. induction headers as [|h headers IH]; intros m; cbn [foldl]; [auto|].
  intros H. apply IH in H as [(Hin & Ht)|H]; [left; split; [now constructor|auto]|].
  destruct (decide (HRecord.TLC h = tlc)) as [E|E].
  - subst tlc. rewrite lookup_insert_eq in H. injection H as <-.
    left. split; [constructor|reflexivity].
  - rewrite lookup_insert_ne in H by exact E. auto.
Qed.

Lemma reached_lists (flags : list bool) (lines : list string) (st : loopState) :
  reached flags lines st ->
  st_bRecords st = omap fixOf (st_records st) /\
  st_kRecords st = omap periodicOf (st_records st) /\
  st_hRecordsByTLC st = lastByTLC (omap headerOf (st_records st)).
Proof.
  revert lines st. apply reached_ind.
  - cbn. auto.
  - intros lines l st st' _ (IHb & IHk & IHh) Hl.
    apply parseLine_lists in Hl as (new & -> & -> & -> & ->).
    rewrite !omap_app, IHb, IHk, IHh. unfold lastByTLC.
    rewrite foldl_app. auto.
Qed.

(** X5. In the document of every parse, the list of fixes is made of
    the B records of the record list, in their order, and the list of K
    records likewise; the header map holds, for each code, the last H
    record of that code in the record list (an HFDTE record counting as
    the H record it embeds, under its own code), so a header looked up
    by a code is a header of the record list with that code. *)
Theorem document_lists_follow_records (flags : list bool) (lines : list string)
    (st : loopState) :
  reached flags lines st ->
  let igc := documentOf st in
  BRecords igc = omap fixOf (Records igc) /\
  KRecords igc = omap periodicOf (Records igc) /\
  HRecordsByTLC igc = lastByTLC (omap headerOf (Records igc)) /\
  forall tlc r,
    HRecordsByTLC igc !! tlc = Some r ->
    r ∈ omap headerOf (Records igc) /\ HRecord.TLC r = tlc.
Proof.
  intros Hr. cbn [documentOf BRecords KRecords HRecordsByTLC Records].
  destruct (reached_lists _ _ _ Hr) as (Hb & Hk & Hh).
  split_and!; try assumption.
  intros tlc r Hlook. rewrite Hh in Hlook. unfold lastByTLC in Hlook.
  apply lastByTLC_lookup in Hlook as [?|Hlook]; [assumption|].
  rewrite lookup_empty in Hlook. discriminate.
Qed.

Lemma document_lists_follow_records_witness :
  reached [] twoPilotLines twoPilotState /\
  HRecordsByTLC (documentOf twoPilotState) !! "PLT"%string
  = Some (HRecord.mk "F" "PLT" "PILOT" "Bob") /\
  length (BRecords (documentOf twoPilotState)) = 1%nat.
Proof.
  assert (H : reached [] twoPilotLines twoPilotState) by (vm_compute; reflexivity).
  split; [exact H|].
  destruct (document_lists_follow_records [] twoPilotLines twoPilotState H)
    as (Hb & _ & Hh & _).
  split; [rewrite Hh; vm_compute; reflexivity|].
  rewrite Hb. vm_compute. reflexivity.
Defined.
(** ** Errors: one for each line without a record, in line order *)

Ltac grind_Ret H :=
  repeat first
    [ progress (cbv zeta in H)
    | match type of H with
      | Ret _ = Ret _ => injection H as H; subst
      | obind _ _ = Ret _ => inv_bind H
      | match ?x with _ => _ end = Ret _ => destruct x eqn:?
      | (if ?x then _ else _) = Ret _ => destruct x eqn:?
      | (let '(_, _) := ?x in _) = Ret _ => destruct x eqn:?
      end ];
  try discriminate.

Lemma dispatch_record_or_error (p : parser) (line : list ascii) record err p' :
  dispatch p line = Ret (record, err, p') ->
  holdsRecord record = false -> err <> None.
Proof.
  intros H. apply dispatch_cases in H.
  destruct H as
    [ r err Hb H | r err p' Hb H | record err Hb H | r err Hb H
    | record err p' Hb H | r err p' Hb H | r err Hb H | record err Hb H
    | r err Hb H | r err Hb H | r err p' Hb H | record err Hb H
    | r err Hb H | r err p' Hb H | b _ _ ]; try discriminate; cbn [holdsRecord].
  - unfold parseARecord in H. grind_Ret H; cbn; intros; congruence.
  - unfold parseBRecord in H.
    destruct (Rx.find Grammar.bRecordRx line); [|injection H as <- <- <-; discriminate].
    do 8 inv_bind H. injection H as <- <- <-. discriminate.
  - unfold parseCRecord, parseCRecordWaypoint, parseCRecordDeclaration in H.
    destruct (len (cRecords p) =? 0).
    + destruct (Rx.find Grammar.cRecordDeclarationRx line).
      * injection H as <- <-. discriminate.
      * destruct (Rx.find Grammar.cRecordWaypointRx line);
          [do 2 inv_bind H|]; injection H as <- <-; discriminate.
    + destruct (Rx.find Grammar.cRecordWaypointRx line);
        [do 2 inv_bind H|]; injection H as <- <-; discriminate.
  - unfold parseDRecord in H. destruct (Rx.find Grammar.dRecordRx line);
      [inv_bind H|]; injection H as <- <-; discriminate.
  - unfold parseERecord in H.
    destruct (Rx.find Grammar.eRecordRx line);
      [inv_bind H; injection H as <- <- <-; discriminate|].
    destruct (Rx.find Grammar.eRecordWithoutTLCRx line);
      [inv_bind H|]; injection H as <- <- <-; discriminate.
  - unfold parseFRecord in H. destruct (Rx.find Grammar.fRecordRx line);
      [do 2 inv_bind H|]; injection H as <- <- <-; discriminate.
  - unfold parseGRecord in H. destruct (Rx.find Grammar.gRecordRx line);
      injection H as <- <-; discriminate.
  - unfold parseHRecord in H.
    destruct (Rx.find Grammar.hfdteRecordRx line);
      [injection H as <- <-; discriminate|].
    destruct (Rx.find Grammar.hffxaRecordRx line);
      [injection H as <- <-; discriminate|].
    destruct (Rx.find Grammar.hRecordRx line).
    + inv_bind H. cbv zeta in H. case_bool_decide.
      * destruct (Rx.find Grammar.hfdteRecordValueRx _);
          injection H as <- <-; discriminate.
      * injection H as <- <-; discriminate.
    + destruct (Rx.find Grammar.hRecordWithInvalidSourceRx line);
        [inv_bind H|]; injection H as <- <-; discriminate.
  - unfold parseIRecord in H. inv_bind H.
    destruct o; injection H as <- <-; discriminate.
  - unfold parseJRecord in H. inv_bind H.
    destruct o; injection H as <- <-; discriminate.
  - unfold parseKRecord in H. destruct (Rx.find Grammar.knRecordRx line);
      [do 2 inv_bind H|]; injection H as <- <- <-; discriminate.
  - unfold parseLRecord in H. destruct (Rx.find Grammar.lRecordRx line);
      [injection H as <- <-; discriminate|].
    destruct (Rx.find Grammar.lRecordWithoutTLCRx line);
      injection H as <- <-; discriminate.
  - unfold parseMRecord in H. inv_bind H.
    destruct o; injection H as <- <-; discriminate.
  - unfold parseNRecord in H. destruct (Rx.find Grammar.knRecordRx line);
      [do 2 inv_bind H|]; injection H as <- <- <-; discriminate.
Qed.

Lemma StronglySorted_lt_snoc (l : list Z) (t : Z) :
  StronglySorted Z.lt l -> Forall (fun x => x < t) l ->
  StronglySorted Z.lt (l ++ [t]).
Proof.
  induction 1 as [|x l Hs IH Hx]; intros Hall; cbn.
  - repeat constructor.
  - apply Forall_cons in Hall as [Hxt Hall]. constructor; [auto|].
    apply Forall_app. split; [exact Hx|]. constructor; [exact Hxt|constructor].
Qed.

Lemma parseLine_errs (i : Z) (l : string) (st st' : loopState) :
  parseLine i l st = Ret st' ->
  (st_records st' = st_records st /\ st_errs st' = st_errs st) \/
  exists record,
    st_records st' = st_records st ++ [record] /\
    ((holdsRecord record = true /\ st_errs st' = st_errs st) \/
     exists err, st_errs st' = st_errs st ++ [mkError (i + 1) err]).
Proof.
  intros H. apply parseLine_inv in H
    as [(_ & ->)|(_ & record & err & p1 & err' & Hd & Hc & Hup)]; [auto|].
  right. exists record.
  apply updateState_records in Hup as (-> & -> & _). cbn [st_records st_errs].
  split; [reflexivity|].
  destruct err' as [e|]; [eauto|]. left. split; [|reflexivity].
  destruct (holdsRecord record) eqn:Hh; [reflexivity|]. exfalso.
  apply (dispatch_record_or_error _ _ _ _ _ Hd) in Hh.
  unfold checkInvalidChars in Hc.
  destruct (negb (allowInvalidChars p1)); [|congruence].
  destruct (Rx.find Grammar.invalidCharsRx (bytes l)); [|congruence].
  inv_bind Hc. destruct err; congruence.
Qed.

(** X6. Every parse reports its errors in the order of the lines and
    at most one for a line: the line numbers of the error list are
    strictly increasing and lie between 1 and the number of lines.  No
    line is dropped silently: whatever line comes next, if it is given a
    slot that holds no record, then an error tagged with its number is
    appended; and nothing but one such error is ever appended. *)
Theorem errors_follow_lines (flags : list bool) (lines : list string)
    (st : loopState) :
  reached flags lines st ->
  StronglySorted Z.lt (map Line (Errs (documentOf st))) /\
  Forall (fun e => 1 <= Line e <= len lines) (Errs (documentOf st)) /\
  forall (l : string) (st' : loopState) (record : Record),
    parseLine (len lines) l st = Ret st' ->
    st_records st' = st_records st ++ [record] ->
    (st_errs st' = st_errs st \/
     exists err, st_errs st' = st_errs st ++ [mkError (len lines + 1) err]) /\
    (holdsRecord record = false ->
     exists err, st_errs st' = st_errs st ++ [mkError (len lines + 1) err]).
Proof.
  intros Hr. cbn [documentOf Errs].
  assert (H : StronglySorted Z.lt (map Line (st_errs st)) /\
              Forall (fun e => 1 <= Line e <= len lines) (st_errs st)).
  { revert lines st Hr. apply reached_ind.
    - cbn. split; constructor.
    - intros lines l st st' _ (IHs & IHb) Hl.
      assert (Hlen : len (lines ++ [l]) = len lines + 1)
        by (unfold len; rewrite length_app; cbn [length]; lia).
      pose proof (len_nonneg lines) as Hnn.
      assert (Hold : Forall (fun e => 1 <= Line e <= len (lines ++ [l]))
                       (st_errs st)).
      { eapply Forall_impl; [exact IHb|]. cbn. intros e He. lia. }
      apply parseLine_errs in Hl
        as [(_ & ->)|(record & _ & [(_ & ->)|(err & ->)])]; auto.
      split.
      + rewrite map_app. cbn. apply StronglySorted_lt_snoc; [exact IHs|].
        apply Forall_map. eapply Forall_impl; [exact IHb|].
        cbn. intros e He. lia.
      + apply Forall_app. split; [exact Hold|].
        constructor; [cbn; lia|constructor]. }
  destruct H as (Hs & Hb). split; [exact Hs|]. split; [exact Hb|].
  intros l st' record Hl Hrec.
  apply parseLine_errs in Hl
    as [(Hsame & _)|(record' & Hrec' & Herr)].
  { exfalso. rewrite Hsame in Hrec. apply (f_equal length) in Hrec.
    rewrite length_app in Hrec. cbn in Hrec. lia. }
  rewrite Hrec' in Hrec. apply app_inj_tail in Hrec as [_ ->].
  destruct Herr as [(Hh & He)|(err & He)].
  - split; [auto|]. intros Hno. congruence.
  - split; eauto.
Qed.

Lemma errors_follow_lines_witness :
  reached [] emptyLineLines emptyLineState /\
  StronglySorted Z.lt (map Line (Errs (documentOf emptyLineState))).
Proof.
  assert (H : reached [] emptyLineLines emptyLineState) by (vm_compute; reflexivity).
  split; [exact H|].
  exact (proj1 (errors_follow_lines [] emptyLineLines emptyLineState H)).
Defined.
(** ** Parsing is incremental *)

Lemma parseLines_loop_grows (lines : list string) (i : Z) (st st' : loopState) :
  parseLines_loop i lines st = Ret st' ->
  st_records st `prefix_of` st_records st' /\
  st_errs st `prefix_of` st_errs st' /\
  st_bRecords st `prefix_of` st_bRecords st' /\
  st_kRecords st `prefix_of` st_kRecords st'.
Proof.
  revert i st. induction lines as [|l lines IH]; intros i st; cbn [parseLines_loop].
  - intros [= <-]. split_and!; reflexivity.
  - intros H. inv_bind H. apply IH in H as (Hr & He & Hb & Hk).
    pose proof (parseLine_lists _ _ _ _ Hbind) as (new & Er & Eb & Ek & _).
    assert (Ee : st_errs st `prefix_of` st_errs a).
    { apply parseLine_errs in Hbind
        as [(_ & ->)|(record & _ & [(_ & ->)|(err & ->)])];
        [reflexivity|reflexivity|apply prefix_app_r; reflexivity]. }
    split_and!.
    + etransitivity; [|exact Hr]. rewrite Er. now apply prefix_app_r.
    + etransitivity; [exact Ee|exact He].
    + etransitivity; [|exact Hb]. rewrite Eb. now apply prefix_app_r.
    + etransitivity; [|exact Hk]. rewrite Ek. now apply prefix_app_r.
Qed.

(** X7. Parsing is incremental.  If the parse of some lines followed by
    more lines returns a document, then the parse of the first lines
    alone returns one too, and its record list, its error list, its
    fixes and its K records are the beginnings of those of the longer
    parse: later lines never change what earlier lines have produced. *)
Theorem later_lines_keep_earlier_results (flags : list bool)
    (lines1 lines2 : list string) (igc : IGC) :
  ParseLines (lines1 ++ lines2) (optionsOf flags) = Ret igc ->
  exists igc1,
    ParseLines lines1 (optionsOf flags) = Ret igc1 /\
    Records igc1 `prefix_of` Records igc /\
    Errs igc1 `prefix_of` Errs igc /\
    BRecords igc1 `prefix_of` BRecords igc /\
    KRecords igc1 `prefix_of` KRecords igc.
Proof.
  intros H. apply ParseLines_reached in H as (st & Hr & ->).
  unfold reached in Hr. rewrite parseLines_loop_app in Hr. inv_bind Hr.
  exists (documentOf a). split; [apply ParseLines_reached; eauto|].
  apply parseLines_loop_grows in Hr. exact Hr.
Qed.

Lemma later_lines_keep_earlier_results_witness :
  ParseLines (["X"%string; EmptyString] ++ ["GABC"%string]) (optionsOf [])
  = Ret (documentOf emptyLineState) /\
  exists igc1,
    ParseLines ["X"%string; EmptyString] (optionsOf []) = Ret igc1 /\
    Records igc1 `prefix_of` Records (documentOf emptyLineState).
Proof.
  assert (H : ParseLines (["X"%string; EmptyString] ++ ["GABC"%string]) (optionsOf [])
              = Ret (documentOf emptyLineState)) by (vm_compute; reflexivity).
  split; [exact H|].
  destruct (later_lines_keep_earlier_results [] _ _ _ H) as (igc1 & H1 & Hp & _).
  exists igc1. split; [exact H1|exact Hp].
Defined.

(** ** The check of the characters *)

Lemma find_from_class (q : ascii -> bool) (s : list ascii) (pos : nat) :
  Rx.find_from (Rx.Group 1 (Rx.Class q)) pos s
  = match List.find q s with
    | Some b => Some [[b]; [b]]
    | None => None
    end.
Proof.
  revert pos. induction s as [|a s IH]; intros pos; cbn [Rx.find_from Rx.rmatch].
  - reflexivity.
  - cbn [List.find]. destruct (q a).
    + replace (S pos - pos)%nat with 1%nat by lia. reflexivity.
    + apply IH.
Qed.

Lemma allowed_char_bytes (b : ascii) :
  Grammar.allowed_char b
  = (0x20 <=? byteZ b) && (byteZ b <=? 0x7d)
    && negb (bool_decide (b ∈ bytes "!$*\^")).
Proof.
  destruct b as [[|] [|] [|] [|] [|] [|] [|] [|]]; vm_compute; reflexivity.
Qed.

(** X8. The check of the characters of a line never panics.  When
    invalid characters are allowed it leaves the error of the line as it
    is; otherwise it looks for the first byte of the line that is not
    allowed and, if there is one, joins one invalid-character error for
    that byte to the error of the line.  The bytes allowed are the
    ASCII characters from the space to the closing brace other than the
    exclamation mark, the dollar sign, the asterisk, the backslash and
    the caret. *)
Theorem invalid_character_is_the_first (p : parser) (lineStr : string)
    (err : option error) :
  checkInvalidChars p lineStr err
  = Ret (if allowInvalidChars p then err
         else match firstInvalidChar (bytes lineStr) with
              | Some b => Some (joinedTo err (invalidCharError b))
              | None => err
              end) /\
  forall b : ascii,
    Grammar.allowed_char b
    = (0x20 <=? byteZ b) && (byteZ b <=? 0x7d)
      && negb (bool_decide (b ∈ bytes "!$*\^")).
Proof.
  split; [|exact allowed_char_bytes].
  unfold checkInvalidChars, firstInvalidChar.
  destruct (allowInvalidChars p); cbn [negb]; [reflexivity|].
  unfold Rx.find, Grammar.invalidCharsRx. rewrite find_from_class.
  destruct (List.find _ (bytes lineStr)) as [b|]; [|reflexivity].
  cbn [Rx.get_cap nth index0 obind]. unfold invalidCharError.
  destruct err; reflexivity.
Qed.

Lemma dispatch_allowInvalidChars (p : parser) (line : list ascii) record err p' :
  dispatch p line = Ret (record, err, p') ->
  allowInvalidChars p' = allowInvalidChars p.
Proof.
  intros H. apply dispatch_time in H.
  destruct (recordTime record); [|now subst].
  destruct H as [(_ & _ & ->)|(_ & _ & d & k & _ & _ & ->)]; reflexivity.
Qed.

Lemma updateState_allowInvalidChars (record : Record) (st st' : loopState) :
  updateState record st = Ret st' ->
  allowInvalidChars (st_parser st') = allowInvalidChars (st_parser st).
Proof.
  unfold updateState. intros H.
  destruct record as [|[r|]|[r|]|[r|]|[r|]|[r|]|[r|]|[r|]|[r|]|[r|]|[r|]|[r|]
                      |[r|]|[r|]|[r|]|[r|]|[r|]|[r|]|[r|]|[r|]];
    try (injection H as <-; reflexivity).
  inv_bind H. injection H as <-. cbn [st_parser].
  now apply installIRecord_frame in Hbind as (-> & _).
Qed.

Lemma last_default (b : bool) (flags : list bool) (d d' : bool) :
  List.last (b :: flags) d = List.last (b :: flags) d'.
Proof.
  revert b. induction flags as [|c flags IH]; intros b; [reflexivity|].
  change (List.last (c :: flags) d = List.last (c :: flags) d'). apply IH.
Qed.

Lemma newParser_allowInvalidChars (flags : list bool) :
  allowInvalidChars (newParser (optionsOf flags)) = List.last flags false.
Proof.
  unfold newParser, optionsOf. cbv zeta.
  match goal with
  | |- allowInvalidChars (foldl _ ?p0 _) = _ =>
      change false with (allowInvalidChars p0) at 2; generalize p0
  end.
  induction flags as [|b flags IH]; intros p0; cbn [map foldl]; [reflexivity|].
  rewrite IH. destruct flags as [|c flags]; [reflexivity|].
  change (List.last (b :: c :: flags) (allowInvalidChars p0))
    with (List.last (c :: flags) (allowInvalidChars p0)).
  apply last_default.
Qed.

(** X9. The parser checks the characters of the lines unless it is told
    not to: of the options given, the last [WithAllowInvalidChars] wins,
    and with none given invalid characters are not allowed.  Nothing the
    parser reads changes that setting: it is the same in every state
    the loop reaches and after every grammar. *)
Theorem last_option_wins (flags : list bool) (lines : list string)
    (st : loopState) :
  reached flags lines st ->
  allowInvalidChars (st_parser st) = List.last flags false /\
  forall (line : list ascii) record err p',
    dispatch (st_parser st) line = Ret (record, err, p') ->
    allowInvalidChars p' = List.last flags false.
Proof.
  intros Hr.
  assert (H : allowInvalidChars (st_parser st) = List.last flags false).
  { revert lines st Hr. apply reached_ind.
    - apply newParser_allowInvalidChars.
    - intros lines l st st' _ IH Hl.
      apply parseLine_inv in Hl
        as [(_ & ->)|(_ & record & err & p1 & err' & Hd & _ & Hup)]; [exact IH|].
      apply updateState_allowInvalidChars in Hup. cbn [st_parser] in Hup.
      apply dispatch_allowInvalidChars in Hd. congruence. }
  split; [exact H|]. intros line record err p' Hd.
  apply dispatch_allowInvalidChars in Hd. congruence.
Qed.

Lemma last_option_wins_witness :
  reached [false; true] emptyLineLines
    (mkLoopState (newParser (optionsOf [false; true]))
       (st_records emptyLineState) [] ∅ [] (st_errs emptyLineState)) /\
  allowInvalidChars (newParser (optionsOf [false; true])) = true.
Proof.
  assert (H : reached [false; true] emptyLineLines
                (mkLoopState (newParser (optionsOf [false; true]))
                   (st_records emptyLineState) [] ∅ [] (st_errs emptyLineState)))
    by (vm_compute; reflexivity).
  split; [exact H|].
  exact (proj1 (last_option_wins _ _ _ H)).
Defined.

(** ** The type of the record of a line *)

Lemma dispatch_RecordType (p : parser) (line : list ascii) record err p' :
  dispatch p line = Ret (record, err, p') ->
  exists b,
    index0 line = Ret b /\ (record = nilRecord \/ RecordType record = Ret b).
Proof.
  intros H. apply dispatch_cases in H.
  destruct H as
    [ r err Hb H | r err p' Hb H | record err Hb H | r err Hb H
    | record err p' Hb H | r err p' Hb H | r err Hb H | record err Hb H
    | r err Hb H | r err Hb H | r err p' Hb H | record err Hb H
    | r err Hb H | r err p' Hb H | b Hb _ ];
    (eexists; split; [exact Hb|]); try (right; reflexivity); try (left; reflexivity).
  - apply parseCRecord_shape in H as [->|[[r ->]|[r ->]]]; auto.
  - apply parseERecord_shape in H as [->|[[r ->]|[r ->]]]; auto.
  - unfold parseHRecord in H.
    destruct (Rx.find Grammar.hfdteRecordRx line);
      [injection H as <- <-; auto|].
    destruct (Rx.find Grammar.hffxaRecordRx line);
      [injection H as <- <-; auto|].
    destruct (Rx.find Grammar.hRecordRx line).
    + inv_bind H. cbv zeta in H. case_bool_decide.
      * destruct (Rx.find Grammar.hfdteRecordValueRx _);
          injection H as <- <-; auto.
      * injection H as <- <-; auto.
    + destruct (Rx.find Grammar.hRecordWithInvalidSourceRx line);
        [inv_bind H|]; injection H as <- <-; auto.
  - apply parseLRecord_shape in H as [->|[[r ->]|[r ->]]]; auto.
Qed.

Lemma reached_record_types (flags : list bool) (lines : list string)
    (st : loopState) :
  reached flags lines st ->
  Forall (fun record =>
            record = nilRecord \/
            exists b, RecordType record = Ret b /\ b ∈ bytes "ABCDEFGHIJKLMN")
    (st_records st).
Proof.
  revert lines st. apply reached_ind; [constructor|].
  intros lines l st st' _ IH Hl.
  apply parseLine_inv in Hl
    as [(_ & ->)|(_ & record & err & p1 & err' & Hd & _ & Hup)]; [exact IH|].
  apply updateState_records in Hup as (Hrec & _). cbn [st_records] in Hrec.
  rewrite Hrec. apply Forall_app. split; [exact IH|]. constructor; [|constructor].
  pose proof Hd as Hd'. apply dispatch_RecordType in Hd as (b & Hb & [->|Hty]); [auto|].
  right. exists b. split; [exact Hty|].
  apply dispatch_cases in Hd'.
  destruct Hd'; try (rewrite Hb in *;
    match goal with H : Ret _ = Ret _ |- _ => injection H as -> end; by_decide).
Qed.

(** X10. The slot of a line holds nothing (the nil interface) or a
    record whose [Type()] is the first byte of the line, also when the
    record is a nil pointer.  So in the record list of every parse,
    [Type()] panics on the slots that hold the nil interface and on no
    other slot, and answers with a letter from A to N on the others. *)
Theorem record_type_is_first_byte (flags : list bool) (lines : list string)
    (st : loopState) :
  reached flags lines st ->
  Forall (fun record =>
            record = nilRecord \/
            exists b, RecordType record = Ret b /\ b ∈ bytes "ABCDEFGHIJKLMN")
    (Records (documentOf st)) /\
  forall (l : string) (st' : loopState) (record : Record),
    parseLine (len lines) l st = Ret st' ->
    st_records st' = st_records st ++ [record] ->
    exists b rest,
      bytes l = b :: rest /\ (record = nilRecord \/ RecordType record = Ret b).
Proof.
  intros Hr. cbn [documentOf Records].
  assert (Hstep : forall i l st st' record,
            parseLine i l st = Ret st' ->
            st_records st' = st_records st ++ [record] ->
            exists b rest,
              bytes l = b :: rest /\
              (record = nilRecord \/ RecordType record = Ret b)).
  { clear. intros i l st st' record Hl Hrec.
    apply parseLine_inv in Hl
      as [(_ & ->)|(_ & record' & err & p1 & err' & Hd & _ & Hup)].
    { exfalso. apply (f_equal length) in Hrec. rewrite length_app in Hrec.
      cbn in Hrec. lia. }
    apply updateState_records in Hup as (Hrec' & _). cbn [st_records] in Hrec'.
    rewrite Hrec' in Hrec. apply app_inj_tail in Hrec as [_ ->].
    apply dispatch_RecordType in Hd as (b & Hb & Hty).
    destruct (bytes l) as [|b' rest]; [discriminate|]. injection Hb as ->.
    eauto. }
  split; [|intros l st' record; apply Hstep].
  now apply (reached_record_types flags lines).
Qed.

Lemma record_type_is_first_byte_witness :
  reached [] ["X"%string; EmptyString]
    (mkLoopState (newParser []) [nilRecord] [] ∅ [] (st_errs emptyLineState)) /\
  exists b rest,
    bytes "GABC" = b :: rest /\
    (ptrGRecord (Some (GRecord.mk "ABC")) = nilRecord \/
     RecordType (ptrGRecord (Some (GRecord.mk "ABC"))) = Ret b).
Proof.
  assert (H : reached [] ["X"%string; EmptyString]
                (mkLoopState (newParser []) [nilRecord] [] ∅ []
                   (st_errs emptyLineState))) by (vm_compute; reflexivity).
  split; [exact H|].
  destruct (record_type_is_first_byte _ _ _ H) as (_ & Hstep).
  apply (Hstep "GABC"%string emptyLineState). all: vm_compute; reflexivity.
Defined.

(** ** summarize-igc *)






(** ** The manufacturer registry *)

Lemma init_returns : init = Ret (ApprovedManufacturersByTLC, ManufacturersByTLC).
Proof. vm_compute. reflexivity. Qed.

Lemma registry_checked :
  forallb
    (fun km : string * Manufacturer =>
       let (k, m) := km in
       String.eqb (ManufacturerTLC m) k
       && Bool.eqb (Approved m)
            (bool_decide (ApprovedManufacturersByTLC !! k = Some m))
       && Bool.eqb (negb (Approved m))
            (bool_decide (m ∈ NonApprovedManufacturers)))
    (map_to_list ManufacturersByTLC) = true.
Proof. vm_compute. reflexivity. Qed.

(** X12. The registry of manufacturers is consistent.  Building the
    two maps does not panic: no code is listed twice.  A manufacturer
    found in [ManufacturersByTLC] under a code has that code; its
    [Approved()] is true exactly when [ApprovedManufacturersByTLC] holds
    it under the same code, and false exactly when it is one of
    [NonApprovedManufacturers]. *)
Theorem registry_is_consistent (tlc : string) (m : Manufacturer) :
  ManufacturersByTLC !! tlc = Some m ->
  init = Ret (ApprovedManufacturersByTLC, ManufacturersByTLC) /\
  ManufacturerTLC m = tlc /\
  (Approved m = true <-> ApprovedManufacturersByTLC !! tlc = Some m) /\
  (Approved m = false <-> m ∈ NonApprovedManufacturers).
Proof.
  intros Hm. split; [exact init_returns|].
  pose proof registry_checked as Hall. rewrite forallb_forall in Hall.
  apply elem_of_map_to_list, list_elem_of_In in Hm.
  specialize (Hall _ Hm). cbv beta iota in Hall.
  apply andb_prop in Hall as (Hall & Hnon). apply andb_prop in Hall as (Hk & Happ).
  apply String.eqb_eq in Hk. apply Bool.eqb_prop in Happ, Hnon.
  split; [exact Hk|]. split.
  - rewrite Happ. apply bool_decide_eq_true.
  - rewrite <- (negb_involutive (Approved m)), Hnon.
    rewrite negb_false_iff. apply bool_decide_eq_true.
Qed.

Lemma registry_is_consistent_witness :
  ManufacturersByTLC !! "XAH"%string
  = Some (mkManufacturer "Ascent" "XAH" (Some "X"%char)) /\
  Approved (mkManufacturer "Ascent" "XAH" (Some "X"%char)) = false.
Proof.
  assert (H : ManufacturersByTLC !! "XAH"%string
              = Some (mkManufacturer "Ascent" "XAH" (Some "X"%char)))
    by (vm_compute; reflexivity).
  split; [exact H|].
  destruct (registry_is_consistent _ _ H) as (_ & _ & _ & Hnon).
  apply Hnon. apply list_elem_of_In. cbn. tauto.
Defined.
(** ** Running the matcher on a line of a known shape *)

Section MatcherSteps.
Import Rx.

Lemma rmatch_Seq r1 r2 pos s c k :
  rmatch (Seq r1 r2) pos s c k
  = rmatch r1 pos s c (fun pos' s' c' => rmatch r2 pos' s' c' k).
Proof. reflexivity. Qed.

Lemma rmatch_Group i r pos s c k :
  rmatch (Group i r) pos s c k
  = rmatch r pos s c
      (fun pos' s' c' => k pos' s' (set_cap i (take (pos' - pos) s) c')).
Proof. reflexivity. Qed.

Lemma rmatch_Class p a s pos c k :
  p a = true -> rmatch (Class p) pos (a :: s) c k = k (S pos) s c.
Proof. intros H. cbn [rmatch]. now rewrite H. Qed.

Lemma rmatch_BeginText s c k : rmatch BeginText 0 s c k = k 0%nat s c.
Proof. reflexivity. Qed.

Lemma rmatch_EndText pos c k : rmatch EndText pos [] c k = k pos [] c.
Proof. reflexivity. Qed.

Lemma rmatch_Eps pos s c k : rmatch Eps pos s c k = k pos s c.
Proof. reflexivity. Qed.

Lemma find_from_start r s c :
  rmatch (Group 0 r) 0 s [] (fun _ _ c => Some c) = Some c ->
  find r s = Some c.
Proof. unfold find. destruct s; cbn [find_from]; now intros ->. Qed.

End MatcherSteps.

Ltac rx_shape :=
  cbn [Rx.seqs Rx.lit Rx.lit_bytes bytes list_ascii_of_string Rx.rep Rx.opt];
  unfold Rx.chr, Rx.upper, Rx.digit, Rx.alnum, Rx.digit_or_minus.

Ltac rx_step :=
  first
    [ rewrite rmatch_Seq
    | rewrite rmatch_Group
    | rewrite rmatch_BeginText
    | rewrite rmatch_EndText
    | rewrite rmatch_Eps
    | rewrite rmatch_Class by (first [reflexivity | assumption]) ];
  cbv beta.

Lemma aRecordRx_complete (a b c : ascii) (rest : list ascii) :
  Rx.range "A" "Z" a = true -> Rx.range "A" "Z" b = true ->
  Rx.range "A" "Z" c = true -> "010"%char ∉ rest ->
  Rx.find Grammar.aRecordRx ("A"%char :: a :: b :: c :: rest)
  = Some [("A"%char :: a :: b :: c :: rest); [a; b; c]; rest].
Proof.
  intros Ha Hb Hc Hnl. apply find_from_start.
  unfold Grammar.aRecordRx.
  rx_shape. repeat rx_step.
  apply rmatch_star_dot; [exact Hnl|]. rx_step.
  replace (4 + length rest - 4)%nat with (length rest) by lia.
  replace (4 + length rest - 0)%nat
    with (length ("A"%char :: a :: b :: c :: rest)) by (cbn [length]; lia).
  now rewrite !firstn_all.
Qed.

(** ** The A record *)

Lemma bytes_Cut_spec (s : list ascii) (sep : ascii) :
  match bytes_Cut s sep with
  | (before, after, true) => s = before ++ sep :: after /\ (sep ∉ before)
  | (before, after, false) => before = s /\ after = [] /\ (sep ∉ s)
  end.
Proof.
  induction s as [|b s IH]; cbn [bytes_Cut].
  - split_and!; auto. apply not_elem_of_nil.
  - case_bool_decide as Hb.
    + subst b. split; [reflexivity|apply not_elem_of_nil].
    + destruct (bytes_Cut s sep) as [[before after] [|]].
      * destruct IH as (-> & Hnot). split; [reflexivity|].
        rewrite not_elem_of_cons. auto.
      * destruct IH as (_ & _ & Hnot). split_and!; auto.
        rewrite not_elem_of_cons. auto.
Qed.

Lemma bytes_gostring (l : list ascii) : bytes (gostring l) = l.
Proof. apply list_ascii_of_string_of_list_ascii. Qed.

(** X13. An A line is accepted exactly when it is an A, three capital
    letters and any text without a line feed.  The record then holds the
    three letters as the manufacturer; for a manufacturer that is
    approved the rest of the line is cut at its first hyphen into the
    flight recorder's identifier, which holds no hyphen, and the
    additional data, so that the line can be put together again from the
    fields; for any other manufacturer the whole rest, hyphens included,
    is the identifier and there is no additional data. *)
Theorem a_record_fields (p : parser) (line : list ascii) :
  (forall a b c rest,
     line = "A"%char :: a :: b :: c :: rest ->
     Rx.range "A" "Z" a = true -> Rx.range "A" "Z" b = true ->
     Rx.range "A" "Z" c = true -> ("010"%char ∉ rest) ->
     exists r,
       parseARecord p line = Ret (Some r, None) /\
       ARecord.ManufacturerID r = gostring [a; b; c] /\
       match ApprovedManufacturersByTLC !! gostring [a; b; c] with
       | Some _ =>
           ("-"%char ∉ bytes (ARecord.UniqueFlightRecorderID r)) /\
           (rest = bytes (ARecord.UniqueFlightRecorderID r)
                   ++ "-"%char :: bytes (ARecord.AdditionalData r) \/
            rest = bytes (ARecord.UniqueFlightRecorderID r) /\
            ARecord.AdditionalData r = EmptyString)
       | None =>
           rest = bytes (ARecord.UniqueFlightRecorderID r) /\
           ARecord.AdditionalData r = EmptyString
       end) /\
  ((forall a b c rest,
      line = "A"%char :: a :: b :: c :: rest ->
      ~ (Rx.range "A" "Z" a = true /\ Rx.range "A" "Z" b = true /\
         Rx.range "A" "Z" c = true /\ ("010"%char ∉ rest))) ->
   parseARecord p line = Ret (None, Some (invalidRecordError "A"))).
Proof.
  split.
  - intros a b c rest -> Ha Hb Hc Hnl. unfold parseARecord.
    rewrite (aRecordRx_complete a b c rest Ha Hb Hc Hnl).
    cbn [Rx.get_cap nth].
    destruct (ApprovedManufacturersByTLC !! gostring [a; b; c]).
    + pose proof (bytes_Cut_spec rest "-") as Hcut.
      destruct (bytes_Cut rest "-") as [[before after] found].
      eexists. split; [reflexivity|]. split; [reflexivity|].
      cbn [ARecord.UniqueFlightRecorderID ARecord.AdditionalData].
      rewrite !bytes_gostring. destruct found.
      * destruct Hcut as (-> & Hnot). auto.
      * destruct Hcut as (-> & -> & Hnot). auto.
    + eexists. split; [reflexivity|]. split; [reflexivity|].
      cbn [ARecord.UniqueFlightRecorderID ARecord.AdditionalData].
      rewrite bytes_gostring. auto.
  - intros Hshape. unfold parseARecord.
    destruct (Rx.find Grammar.aRecordRx line) as [m|] eqn:Hm; [|reflexivity].
    exfalso. apply aRecordRx_shape in Hm
      as (a & b & c & rest & -> & Ha & Hb & Hc & Hnl & _).
    apply (Hshape a b c rest eq_refl). auto.
Qed.

Lemma a_record_fields_witness :
  exists r,
    parseARecord (newParser []) (bytes "AXCT1-2") = Ret (Some r, None) /\
    ARecord.ManufacturerID r = "XCT"%string.
Proof.
  destruct (proj1 (a_record_fields (newParser []) (bytes "AXCT1-2"))
              "X"%char "C"%char "T"%char (bytes "1-2") eq_refl
              eq_refl eq_refl eq_refl) as (r & Hr & Hm & _).
  { by_decide. }
  exists r. split; [exact Hr|exact Hm].
Defined.
(** ** Declaration records are accepted whole or not at all *)

Lemma gostring_length (l : list ascii) : String.length (gostring l) = length l.
Proof.
  unfold gostring. induction l as [|a l IH]; cbn [string_of_list_ascii String.length length];
    [reflexivity|now rewrite IH].
Qed.

Lemma parseRecordAdditions_loop_count (count : nat) (i : Z) (m2 : list ascii)
    (cursor : Z) (acc : list RecordAddition) (errs : list error)
    (additions : list RecordAddition) (errs' : list error) :
  parseRecordAdditions_loop count i m2 cursor acc errs = Ret (additions, errs') ->
  (length additions + length errs' = length acc + length errs + count)%nat /\
  (Forall (fun a => String.length (TLC a) = 3%nat) acc ->
   Forall (fun a => String.length (TLC a) = 3%nat) additions).
Proof.
  revert i cursor acc errs.
  induction count as [|count IH]; intros i cursor acc errs;
    cbn [parseRecordAdditions_loop].
  - intros [= <- <-]. split; [lia|auto].
  - destruct (slice m2 (7 * i) (7 * i + 2)) as [sd| |] eqn:Hs; try discriminate.
    destruct (slice m2 (7 * i + 2) (7 * i + 4)) as [fd| |] eqn:Hf; try discriminate.
    destruct (slice m2 (7 * i + 4) (7 * i + 7)) as [td| |] eqn:Ht; try discriminate.
    cbn [obind]. cbv zeta.
    apply slice_Ret in Ht as (_ & _ & _ & _ & Hlt).
    assert (Htlc : String.length (gostring td) = 3%nat).
    { rewrite gostring_length. unfold len in Hlt. lia. }
    case_bool_decide as Hmsg; intros H; apply IH in H as (Hn & Hall).
    + split; [rewrite length_app in Hn; cbn [length] in Hn; lia|].
      intros Hacc. apply Hall. apply Forall_app. split; [exact Hacc|].
      constructor; [exact Htlc|constructor].
    + split; [rewrite length_app in Hn; cbn [length] in Hn; lia|exact Hall].
Qed.

(** X14. A declaration record (I, J or M) is accepted whole or not at
    all.  [parseRecordAdditions] returns no error only for a line made
    of its letter, a two-digit count n and exactly n triples that follow
    one another from the start column, each with a code of three
    characters: the additions it returns are then exactly n.  When any
    triple is refused it returns an error, and [parseIRecord],
    [parseJRecord] and [parseMRecord] then return no record, so nothing
    of the line is installed. *)
Theorem declaration_is_all_or_nothing (p : parser) (line : list ascii)
    (startColumn : Z) (additions : list RecordAddition) (err : option error) :
  parseRecordAdditions p line startColumn = Ret (additions, err) ->
  match err with
  | None =>
      exists n,
        0 <= n <= 99 /\ len additions = n /\ len line = 3 + 7 * n /\
        contiguousFrom startColumn additions /\
        Forall (fun a => String.length (TLC a) = 3%nat) additions
  | Some _ =>
      (startColumn = 36 -> parseIRecord p line = Ret (None, err)) /\
      (startColumn = 8 ->
       parseJRecord p line = Ret (None, err) /\
       parseMRecord p line = Ret (None, err))
  end.
Proof.
  intros H. destruct err as [e|].
  { unfold parseIRecord, parseJRecord, parseMRecord.
    split; [intros ->|intros ->]; rewrite H; auto. }
  pose proof (parseRecordAdditions_spec _ _ _ _ _ H) as (Hc & _).
  unfold parseRecordAdditions in H.
  destruct (Rx.find Grammar.ijmRecordRx line) as [m|] eqn:Hm;
    [|inv_bind H; discriminate].
  apply ijmRecordRx_shape in Hm as (b & Hline & Hl1).
  pose proof (atoi_two_bytes _ Hl1) as Hn. cbv zeta in H.
  unfold Int64.mul in H.
  rewrite wrap64_small in H by (unfold Int64.in_range, Int64.half; lia).
  destruct (Z.eqb_spec (len (Rx.get_cap m 2)) (7 * atoi_ (Rx.get_cap m 1)))
    as [E|E]; cbn [negb] in H; [|inv_bind H; discriminate].
  inv_bind H. injection H as <- Herr.
  assert (l0 = []) as -> by (destruct l0; [reflexivity|discriminate]).
  apply parseRecordAdditions_loop_count in Hbind as (Hcount & Htlc).
  pose proof (len_nonneg (Rx.get_cap m 2)).
  exists (atoi_ (Rx.get_cap m 1)). split; [lia|]. split.
  { unfold len. cbn [length] in Hcount. lia. }
  split.
  { rewrite Hline. unfold len in *. cbn [length]. rewrite length_app. lia. }
  split; [exact Hc|]. apply Htlc. constructor.
Qed.

Lemma declaration_is_all_or_nothing_witness :
  parseRecordAdditions (newParser []) (bytes "I023638FXA3940SIU") 36
  = Ret ([mkRecordAddition "FXA" 36 38; mkRecordAddition "SIU" 39 40], None) /\
  exists n,
    0 <= n <= 99 /\
    len [mkRecordAddition "FXA" 36 38; mkRecordAddition "SIU" 39 40] = n /\
    len (bytes "I023638FXA3940SIU") = 3 + 7 * n.
Proof.
  assert (H : parseRecordAdditions (newParser []) (bytes "I023638FXA3940SIU") 36
              = Ret ([mkRecordAddition "FXA" 36 38; mkRecordAddition "SIU" 39 40],
                     None)) by (vm_compute; reflexivity).
  split; [exact H|].
  destruct (declaration_is_all_or_nothing _ _ _ _ _ H) as (n & H1 & H2 & H3 & _).
  exists n. auto.
Defined.

(** ** The scale of high-resolution coordinates *)

Lemma intPow_Ret_power (x y z : Z) :
  0 <= y -> intPow x y = Ret z -> z = Int64.wrap64 (x ^ y).
Proof.
  intros Hy. unfold intPow.
  destruct (intPow_loop 64 x y 1) as [z'|] eqn:Hl; [|discriminate].
  intros [= <-]. apply intPow_loop_power in Hl as (Hw & Hr); [|exact Hy].
  rewrite Z.mul_1_l in Hw. rewrite <- Hw. symmetry. apply wrap64_small.
  apply Hr. unfold Int64.in_range, Int64.half. lia.
Qed.

Lemma installIRecord_scale (record : IRecord.t) (p p' : parser) :
  tablesInv p -> Forall wellFormedAddition (IRecord.Additions record) ->
  coordInv p -> installIRecord record p = Ret p' -> coordInv p'.
Proof.
  intros Hinv Hwf (Hlat & Hlon) H.
  pose proof (fun k a => byTLC_lookup_wf p (IRecord.Additions record) k a Hinv Hwf)
    as Hlook.
  unfold installIRecord in H.
  fold (byTLC (bRecordsAdditionsByTLC p) (IRecord.Additions record)) in H.
  set (m' := byTLC _ _) in *.
  cbn [bRecordsAdditionsByTLC set_bRecordAdditions] in H.
  assert (Hpow : forall a z, wellFormedAddition a ->
            intPow 10 (additionWidth a) = Ret z ->
            z = Int64.wrap64 (10 ^ widthOf a) /\
            Int64.mul 60000 z = Int64.wrap64 (60000 * 10 ^ widthOf a)).
  { intros a z Ha Hz. destruct (additionWidth_wf a Ha) as (Ew & Hw).
    rewrite Ew in Hz. apply intPow_Ret_power in Hz; [|lia]. subst z.
    split; [reflexivity|]. unfold Int64.mul. apply wrap64_mul_r. }
  inv_bind H. inv_bind H.
  assert (A1 : scaleOf (ladBRecordAddition a) (latMinMul a) (latMinDiv a) /\
               lodBRecordAddition a = lodBRecordAddition p /\
               lonMinMul a = lonMinMul p /\ lonMinDiv a = lonMinDiv p /\
               bRecordsAdditionsByTLC a = m').
  { destruct (m' !! "LAD"%string) as [lad|] eqn:Elad.
    - do 2 inv_bind Hbind. injection Hbind as <-. cbn.
      destruct (Hpow _ _ (Hlook _ _ Elad) Hbind1) as (-> & _).
      destruct (Hpow _ _ (Hlook _ _ Elad) Hbind2) as (_ & ->). auto.
    - injection Hbind as <-. cbn. auto. }
  destruct A1 as (Hlat1 & E1 & E2 & E3 & Em). rewrite Em in Hbind0.
  assert (A2 : scaleOf (lodBRecordAddition a0) (lonMinMul a0) (lonMinDiv a0) /\
               ladBRecordAddition a0 = ladBRecordAddition a /\
               latMinMul a0 = latMinMul a /\ latMinDiv a0 = latMinDiv a /\
               bRecordsAdditionsByTLC a0 = bRecordsAdditionsByTLC a).
  { destruct (m' !! "LOD"%string) as [lod|] eqn:Elod.
    - do 2 inv_bind Hbind0. injection Hbind0 as <-. cbn.
      destruct (Hpow _ _ (Hlook _ _ Elod) Hbind1) as (-> & _).
      destruct (Hpow _ _ (Hlook _ _ Elod) Hbind2) as (_ & ->). auto.
    - injection Hbind0 as <-. cbn. rewrite E1, E2, E3. auto. }
  destruct A2 as (Hlon2 & F1 & F2 & F3 & _).
  assert (A3 : ladBRecordAddition p' = ladBRecordAddition a0 /\
               latMinMul p' = latMinMul a0 /\ latMinDiv p' = latMinDiv a0 /\
               lodBRecordAddition p' = lodBRecordAddition a0 /\
               lonMinMul p' = lonMinMul a0 /\ lonMinDiv p' = lonMinDiv a0).
  { destruct (bRecordsAdditionsByTLC a0 !! "TDS"%string);
      [inv_bind H|]; injection H as <-; cbn; auto 10. }
  destruct A3 as (G1 & G2 & G3 & G4 & G5 & G6).
  unfold coordInv. rewrite G1, G2, G3, G4, G5, G6, F1, F2, F3. auto.
Qed.

Lemma updateState_coordInv (record : Record) (st st' : loopState) :
  match record with
  | ptrIRecord (Some r) => Forall wellFormedAddition (IRecord.Additions r)
  | _ => True
  end ->
  tablesInv (st_parser st) -> coordInv (st_parser st) ->
  updateState record st = Ret st' -> coordInv (st_parser st').
Proof.
  intros Hwf Hinv Hc H. unfold updateState in H.
  destruct record as [|[r|]|[r|]|[r|]|[r|]|[r|]|[r|]|[r|]|[r|]|[r|]|[r|]|[r|]
                      |[r|]|[r|]|[r|]|[r|]|[r|]|[r|]|[r|]|[r|]];
    try (injection H as <-; exact Hc).
  inv_bind H. injection H as <-. cbn [st_parser].
  eapply installIRecord_scale; eassumption.
Qed.

Lemma coordInv_step (i : Z) (l : string) (st st' : loopState) :
  tablesInv (st_parser st) -> coordInv (st_parser st) ->
  parseLine i l st = Ret st' -> coordInv (st_parser st').
Proof.
  intros Hinv Hc H.
  apply parseLine_inv in H
    as [(_ & ->)|(_ & record & err & p1 & err' & Hdis & _ & Hup)]; [exact Hc|].
  pose proof (dispatch_additions _ _ _ _ _ Hdis) as Hwf.
  pose proof (dispatch_time _ _ _ _ _ Hdis) as Ht.
  assert (Hp1 : tablesInv p1 /\ coordInv p1).
  { destruct (recordTime record); [|now subst].
    split; [eapply timeStep_tables; eassumption|].
    destruct Ht as [(_ & _ & ->)|(_ & _ & d & k & _ & _ & ->)]; exact Hc. }
  destruct Hp1 as (Hinv1 & Hc1).
  eapply updateState_coordInv in Hup; eauto.
  destruct record as [|[r|]|[r|]|[r|]|[r|]|[r|]|[r|]|[r|]|[r|]|[r|]|[r|]|[r|]
                      |[r|]|[r|]|[r|]|[r|]|[r|]|[r|]|[r|]|[r|]]; auto.
Qed.

Lemma newParser_scale (flags : list bool) :
  let p := newParser (optionsOf flags) in
  latMinMul p = 1 /\ latMinDiv p = 60000 /\ lonMinMul p = 1 /\ lonMinDiv p = 60000.
Proof.
  unfold newParser, optionsOf. cbv zeta.
  match goal with
  | |- context [foldl _ ?p0 _] =>
      assert (H0 : latMinMul p0 = 1 /\ latMinDiv p0 = 60000 /\
                   lonMinMul p0 = 1 /\ lonMinDiv p0 = 60000) by (cbn; auto);
      revert H0; generalize p0
  end.
  induction flags as [|b flags IH]; intros p0 H0; cbn [map foldl]; [exact H0|].
  apply IH. unfold WithAllowInvalidChars. cbn. exact H0.
Qed.

Lemma reached_coordInv (flags : list bool) (lines : list string) (st : loopState) :
  reached flags lines st -> coordInv (st_parser st).
Proof.
  intros Hr. assert (H : tablesInv (st_parser st) /\ coordInv (st_parser st));
    [|tauto].
  revert lines st Hr. apply reached_ind.
  - split; [apply newParser_tablesInv|]. cbn [initialState st_parser].
    unfold coordInv.
    pose proof (newParser_fields flags) as Hf. cbv zeta in Hf.
    destruct Hf as (_ & _ & _ & _ & _ & -> & -> & _).
    pose proof (newParser_scale flags) as Hs. cbv zeta in Hs.
    destruct Hs as (-> & -> & -> & ->). cbn. auto.
  - intros lines l st st' _ (IH1 & IH2) Hl.
    split; [eapply tablesInv_step|eapply coordInv_step]; eassumption.
Qed.

(** X15. In every state the parser reaches, the factors that scale the
    minutes of the latitude are 1 and 60000 while no LAD addition is
    installed; once one of n columns is, they are 10^n and
    60000 * 10^n reduced to 64 bits, which are these numbers themselves
    for n up to 14 (and the multiplier up to 18).  The same holds of the
    longitude and the LOD addition.  The addition meant is the one the
    table by code holds, and it has between 1 and 99 columns. *)
Theorem high_resolution_scale (flags : list bool) (lines : list string)
    (st : loopState) :
  reached flags lines st ->
  let p := st_parser st in
  scaleOf (ladBRecordAddition p) (latMinMul p) (latMinDiv p) /\
  scaleOf (lodBRecordAddition p) (lonMinMul p) (lonMinDiv p) /\
  ladBRecordAddition p = bRecordsAdditionsByTLC p !! "LAD"%string /\
  lodBRecordAddition p = bRecordsAdditionsByTLC p !! "LOD"%string /\
  forall a,
    ladBRecordAddition p = Some a \/ lodBRecordAddition p = Some a ->
    1 <= widthOf a <= 99 /\
    (widthOf a <= 18 -> Int64.wrap64 (10 ^ widthOf a) = 10 ^ widthOf a) /\
    (widthOf a <= 14 ->
     Int64.wrap64 (60000 * 10 ^ widthOf a) = 60000 * 10 ^ widthOf a).
Proof.
  intros Hr p. pose proof (reached_coordInv _ _ _ Hr) as (Hlat & Hlon).
  pose proof (reached_tablesInv _ _ _ Hr) as Hinv. fold p in Hlat, Hlon, Hinv.
  pose proof (tablesInv_wf p Hinv) as (_ & _ & _ & _ & Hwlad & Hwlod).
  destruct Hinv as (_ & _ & _ & _ & Ilad & Ilod & _).
  split_and!; try assumption.
  intros a Ha.
  assert (Hwf : wellFormedAddition a) by (destruct Ha; auto).
  destruct (additionWidth_wf a Hwf) as (_ & Hw). split; [exact Hw|].
  assert (Hpos : 0 < 10 ^ widthOf a) by (apply Z.pow_pos_nonneg; lia).
  split; intros Hle; apply wrap64_small; unfold Int64.in_range, Int64.half.
  - assert (10 ^ widthOf a <= 10 ^ 18) by (apply Z.pow_le_mono_r; lia). lia.
  - assert (10 ^ widthOf a <= 10 ^ 14) by (apply Z.pow_le_mono_r; lia). lia.
Qed.

Lemma high_resolution_scale_witness :
  reached [] tdsLines tdsState /\
  latMinMul (st_parser tdsState) = 10 /\ latMinDiv (st_parser tdsState) = 600000.
Proof.
  assert (H : reached [] tdsLines tdsState) by (vm_compute; reflexivity).
  split; [exact H|].
  destruct (high_resolution_scale _ _ _ H) as (Hlat & _).
  assert (E : ladBRecordAddition (st_parser tdsState)
              = Some (mkRecordAddition "LAD" 37 37)) by reflexivity.
  rewrite E in Hlat. destruct Hlat as (-> & ->). split; reflexivity.
Defined.

(** ** The time of day of a timestamp *)

Lemma atoi_digits_value (data : list ascii) :
  forallb isDigit data = true -> data <> [] -> len data <= 18 ->
  atoi_ data = decimal data.
Proof.
  intros Hd Hne Hlen. pose proof (atoi_numeral data) as H.
  assert (Hs : signAndDigits data = (1, data)).
  { unfold signAndDigits. destruct data as [|b data']; [reflexivity|].
    rewrite bool_decide_eq_false_2; [reflexivity|]. intros ->.
    cbn in Hd. discriminate. }
  unfold isNumeral in H. rewrite Hs in H.
  rewrite bool_decide_eq_false_2, Hd in H by exact Hne. cbn [negb andb] in H.
  destruct H as (_ & H). unfold atoi_. rewrite (H Hlen). cbn [fst]. lia.
Qed.

Lemma two_digits_value (data : list ascii) :
  forallb isDigit data = true -> len data = 2 ->
  atoi_ data = decimal data /\ 0 <= decimal data < 100.
Proof.
  intros Hd Hl. split.
  - apply atoi_digits_value; [exact Hd| |lia].
    intros ->. unfold len in Hl. cbn in Hl. lia.
  - pose proof (decimal_bound data Hd) as H. rewrite Hl in H.
    change (10 ^ 2) with 100 in H. exact H.
Qed.

Lemma parseTime_timeStepAt (p : parser) (line : list ascii) (m : Rx.caps)
    (ns : Z) (errs : list error) (t : Z) (errs' : list error) (p' : parser) :
  timeColumns m line -> - Time.Second < ns < Time.Second ->
  parseTime p (Rx.get_cap m 1) (Rx.get_cap m 2) (Rx.get_cap m 3) ns errs
  = Ret (t, errs', p') ->
  timeStepAt p p'
    ((decimal (columns 2 3 line) * 3600 + decimal (columns 4 5 line) * 60
      + decimal (columns 6 7 line)) * 1000000000 + ns) t.
Proof.
  intros (-> & -> & -> & Dh & Lh & Dm & Lm & Ds & Ls) Hns H.
  destruct (two_digits_value _ Dh Lh) as (Eh & Bh).
  destruct (two_digits_value _ Dm Lm) as (Em & Bm).
  destruct (two_digits_value _ Ds Ls) as (Es & Bs).
  apply parseTime_spec in H as [(?&?&?&?)|(Hnz & _ & k & Ht & Hle & Hmin & Hp)].
  - left. auto.
  - right. rewrite Eh, Em, Es, timeOfDay_small in Ht, Hmin by lia.
    split; [exact Hnz|]. split; [exact Hle|]. exists k. auto.
Qed.

Lemma zero_nanosecond : - Time.Second < 0 < Time.Second.
Proof. unfold Time.Second. lia. Qed.

Lemma lineTimeOfDay_fix (p : parser) (line : list ascii) :
  index0 line = Ret "B"%char ->
  lineTimeOfDay p line
  = (decimal (columns 2 3 line) * 3600 + decimal (columns 4 5 line) * 60
     + decimal (columns 6 7 line)) * 1000000000 + fixNanosecond p line.
Proof.
  unfold lineTimeOfDay. destruct line as [|b line]; [discriminate|].
  now intros [= ->].
Qed.

Lemma lineTimeOfDay_other (p : parser) (line : list ascii) (b : ascii) :
  index0 line = Ret b -> b <> "B"%char ->
  lineTimeOfDay p line
  = (decimal (columns 2 3 line) * 3600 + decimal (columns 4 5 line) * 60
     + decimal (columns 6 7 line)) * 1000000000 + 0.
Proof.
  unfold lineTimeOfDay. destruct line as [|b' line]; [discriminate|].
  intros [= ->] Hb.
  destruct b as [[] [] [] [] [] [] [] []]; try reflexivity. now destruct Hb.
Qed.

Lemma parseBRecord_timeOfDay (p : parser) (line : list ascii) r err p' :
  tablesInv p -> index0 line = Ret "B"%char ->
  parseBRecord p line = Ret (Some r, err, p') ->
  timeStepAt p p' (lineTimeOfDay p line) (BRecord.Time r).
Proof.
  intros Hinv Hb. rewrite (lineTimeOfDay_fix _ _ Hb).
  unfold parseBRecord.
  destruct (Rx.find Grammar.bRecordRx line) as [m|] eqn:Hm; [|discriminate].
  apply bRecordRx_timeColumns in Hm.
  intros H. inv_bind H. apply specialAddition_tds in Hbind; [|exact Hinv]. subst z.
  inv_bind H.
  apply (parseTime_timeStepAt _ line) in Hbind;
    [|exact Hm|now apply fixNanosecond_small].
  do 6 inv_bind H. injection H as <- _ <-. exact Hbind.
Qed.

Lemma parseERecord_timeOfDay (p : parser) (line : list ascii) record err p' t :
  index0 line = Ret "E"%char ->
  parseERecord p line = Ret (record, err, p') ->
  recordTime record = Some t ->
  timeStepAt p p' (lineTimeOfDay p line) t.
Proof.
  intros Hb. rewrite (lineTimeOfDay_other _ _ _ Hb) by discriminate.
  unfold parseERecord.
  destruct (Rx.find Grammar.eRecordRx line) as [m|] eqn:Hm.
  - apply eRecordRx_timeColumns in Hm. intros H. inv_bind H.
    apply (parseTime_timeStepAt _ line) in Hbind; [|exact Hm|exact zero_nanosecond].
    injection H as <- _ <-. now intros [= <-].
  - destruct (Rx.find Grammar.eRecordWithoutTLCRx line) as [m|] eqn:Hm'.
    + apply eRecordWithoutTLCRx_timeColumns in Hm'. intros H. inv_bind H.
      apply (parseTime_timeStepAt _ line) in Hbind;
        [|exact Hm'|exact zero_nanosecond].
      injection H as <- _ <-. now intros [= <-].
    + intros [= <- _ _]. discriminate.
Qed.

Lemma parseFRecord_timeOfDay (p : parser) (line : list ascii) r err p' :
  index0 line = Ret "F"%char ->
  parseFRecord p line = Ret (Some r, err, p') ->
  timeStepAt p p' (lineTimeOfDay p line) (FRecord.Time r).
Proof.
  intros Hb. rewrite (lineTimeOfDay_other _ _ _ Hb) by discriminate.
  unfold parseFRecord.
  destruct (Rx.find Grammar.fRecordRx line) as [m|] eqn:Hm; [|discriminate].
  apply fRecordRx_timeColumns in Hm. intros H. inv_bind H.
  apply (parseTime_timeStepAt _ line) in Hbind; [|exact Hm|exact zero_nanosecond].
  inv_bind H. injection H as <- _ <-. exact Hbind.
Qed.

Lemma parseKRecord_timeOfDay (p : parser) (line : list ascii) r err p' :
  index0 line = Ret "K"%char ->
  parseKRecord p line = Ret (Some r, err, p') ->
  timeStepAt p p' (lineTimeOfDay p line) (KRecord.Time r).
Proof.
  intros Hb. rewrite (lineTimeOfDay_other _ _ _ Hb) by discriminate.
  unfold parseKRecord.
  destruct (Rx.find Grammar.knRecordRx line) as [m|] eqn:Hm; [|discriminate].
  apply knRecordRx_timeColumns in Hm. intros H. inv_bind H.
  apply (parseTime_timeStepAt _ line) in Hbind; [|exact Hm|exact zero_nanosecond].
  inv_bind H. injection H as <- _ <-. exact Hbind.
Qed.

Lemma parseNRecord_timeOfDay (p : parser) (line : list ascii) r err p' :
  index0 line = Ret "N"%char ->
  parseNRecord p line = Ret (Some r, err, p') ->
  timeStepAt p p' (lineTimeOfDay p line) (NRecord.Time r).
Proof.
  intros Hb. rewrite (lineTimeOfDay_other _ _ _ Hb) by discriminate.
  unfold parseNRecord.
  destruct (Rx.find Grammar.knRecordRx line) as [m|] eqn:Hm; [|discriminate].
  apply knRecordRx_timeColumns in Hm. intros H. inv_bind H.
  apply (parseTime_timeStepAt _ line) in Hbind; [|exact Hm|exact zero_nanosecond].
  inv_bind H. injection H as <- _ <-. exact Hbind.
Qed.

Lemma dispatch_timeOfDay (p : parser) (line : list ascii) record err p' t :
  tablesInv p ->
  dispatch p line = Ret (record, err, p') ->
  recordTime record = Some t ->
  timeStepAt p p' (lineTimeOfDay p line) t.
Proof.
  intros Hinv H. apply dispatch_cases in H.
  destruct H as
    [ r err _ _ | r err p' Hb H | record err _ H | r err _ _ | record err p' Hb H
    | r err p' Hb H | r err _ _ | record err _ H | r err _ _ | r err _ _
    | r err p' Hb H | record err _ H | r err _ _ | r err p' Hb H | b _ _ ];
    try (destruct r; discriminate); try discriminate.
  - destruct r as [r|]; [|discriminate]. intros [= <-].
    eapply parseBRecord_timeOfDay; eassumption.
  - apply parseCRecord_shape in H as [->|[[r ->]|[r ->]]];
      [discriminate|destruct r; discriminate..].
  - intros Ht. eapply parseERecord_timeOfDay; eassumption.
  - destruct r as [r|]; [|discriminate]. intros [= <-].
    eapply parseFRecord_timeOfDay; eassumption.
  - apply parseHRecord_shape in H as (-> & _). discriminate.
  - destruct r as [r|]; [|discriminate]. intros [= <-].
    eapply parseKRecord_timeOfDay; eassumption.
  - apply parseLRecord_shape in H as [->|[[r ->]|[r ->]]];
      [discriminate|destruct r; discriminate..].
  - destruct r as [r|]; [|discriminate]. intros [= <-].
    eapply parseNRecord_timeOfDay; eassumption.
Qed.

(** C1. In every state the loop of [parseLines] reaches, the timestamps
    of the time-bearing records (fix, event, satellite, periodic) are in
    non-decreasing order along the record list, none of them is later
    than the watermark, and the document of the parse is made of that
    state.  Whatever line comes next, a time-bearing record gets the
    first of the candidates date + time of day, date + 1 day + time of
    day, ... that is not earlier than the watermark, and that candidate
    becomes the watermark; the time of day is the one the line states:
    (hour * 3600 + minute * 60 + second) * 10^9 nanoseconds for the
    two-digit hour, minute and second of columns 2 to 7, plus, for a
    fix, the nanoseconds of its TDS columns.  Before any date header the
    timestamp is the zero time.  Any other record, a date header among
    them, leaves the watermark as it is, a date header overwriting the
    date only. *)
Theorem timestamps_never_decrease (flags : list bool) (lines : list string)
    (st : loopState) :
  reached flags lines st ->
  ParseLines lines (optionsOf flags) = Ret (documentOf st) /\
  StronglySorted Z.le (timestamps (Records (documentOf st))) /\
  Forall (fun t => t <= prevTime (st_parser st))
    (timestamps (Records (documentOf st))) /\
  forall (l : string) (st' : loopState) (record : Record),
    parseLine (len lines) l st = Ret st' ->
    st_records st' = st_records st ++ [record] ->
    match recordTime record with
    | Some t =>
        timeStepAt (st_parser st) (st_parser st')
          (lineTimeOfDay (st_parser st) (bytes l)) t
    | None =>
        prevTime (st_parser st') = prevTime (st_parser st) /\
        forall r, record = ptrHFDTERecord (Some r) ->
                  date (st_parser st') = HFDTERecord.Date r
    end.
Proof.
  intros Hr. pose proof (reached_timeInv _ _ _ Hr) as (_ & _ & _ & _ & Hall & Hs).
  pose proof (reached_tablesInv _ _ _ Hr) as Hinv.
  split; [apply ParseLines_reached; eauto|].
  split; [exact Hs|]. split; [exact Hall|].
  intros l st' record Hl Hrec.
  apply parseLine_inv in Hl
    as [(_ & ->)|(_ & record' & err & p1 & err' & Hdis & _ & Hup)].
  { exfalso. apply (f_equal length) in Hrec. rewrite length_app in Hrec.
    cbn in Hrec. lia. }
  pose proof (updateState_records _ _ _ Hup) as (Hrec' & _ & Hprev & Hdate).
  cbn [st_records st_parser] in *.
  rewrite Hrec' in Hrec. apply app_inj_tail in Hrec as [_ ->].
  destruct (recordTime record) as [t|] eqn:Hrt.
  - pose proof (dispatch_timeOfDay _ _ _ _ _ _ Hinv Hdis Hrt) as Ht.
    apply (updateState_timed _ _ _ _ Hrt) in Hup. cbn in Hup. now rewrite Hup.
  - pose proof (dispatch_time _ _ _ _ _ Hdis) as Ht. rewrite Hrt in Ht.
    subst p1. split; [exact Hprev|]. intros r ->. exact Hdate.
Qed.

Lemma timestamps_never_decrease_witness :
  reached [] rolloverLines rolloverState /\
  StronglySorted Z.le (timestamps (Records (documentOf rolloverState))).
Proof.
  assert (H : reached [] rolloverLines rolloverState) by (vm_compute; reflexivity).
  split; [exact H|].
  exact (proj1 (proj2 (timestamps_never_decrease [] rolloverLines rolloverState H))).
Defined.

(** ** The columns of a fix *)

Lemma specialAddition_spec (a : option RecordAddition) (line : list ascii)
    (errs : list error) (base : Z) (apply : Z -> Z) v errs' :
  (forall x, a = Some x -> wellFormedAddition x) ->
  specialAddition a line errs base apply = Ret (v, errs') ->
  v = match a with
      | Some x =>
          match decodeOf x line with
          | inl n => apply n
          | inr _ => base
          end
      | None => base
      end.
Proof.
  intros Hwf. unfold specialAddition. destruct a as [x|]; [|now intros [= <- _]].
  rewrite intValue_wf by auto. cbn [obind].
  destruct (decodeOf x line); now intros [= <- _].
Qed.

(** X16. A fix is read from fixed columns.  Whenever a B line yields a
    record, the line has at least 35 columns; the degrees of the
    latitude are the decimal number in columns 8 to 9, its minutes (in
    thousandths) the one in columns 10 to 14, and it is negated when
    column 15 is S; for the longitude these are columns 16 to 18, 19 to
    23 and a W in column 24; the validity is column 25 and the two
    altitudes are the numbers in columns 26 to 30 and 31 to 35.  With a
    LAD (LOD) addition installed whose columns decode to v, the minutes
    become multiplier * minutes + v; the divisor is the scaled one in
    either case, also when the addition does not decode. *)
Theorem fix_record_columns (flags : list bool) (lines : list string)
    (st : loopState) (line : list ascii) (r : BRecord.t) err p' :
  reached flags lines st ->
  parseBRecord (st_parser st) line = Ret (Some r, err, p') ->
  let p := st_parser st in
  let minutes (a : option RecordAddition) (mul base : Z) :=
    match a with
    | Some x =>
        match decodeOf x line with
        | inl v => Int64.add (Int64.mul mul base) v
        | inr _ => base
        end
    | None => base
    end in
  35 <= len line /\
  BRecord.Lat r
  = mkCoord (decimal (columns 8 9 line))
      (minutes (ladBRecordAddition p) (latMinMul p) (decimal (columns 10 14 line)))
      (latMinDiv p) (bool_decide (columns 15 15 line = ["S"%char])) /\
  BRecord.Lon r
  = mkCoord (decimal (columns 16 18 line))
      (minutes (lodBRecordAddition p) (lonMinMul p) (decimal (columns 19 23 line)))
      (lonMinDiv p) (bool_decide (columns 24 24 line = ["W"%char])) /\
  [BRecord.Validity r] = columns 25 25 line /\
  BRecord.AltBarometric r = atoi_ (columns 26 30 line) /\
  BRecord.AltWGS84 r = atoi_ (columns 31 35 line) /\
  0 <= decimal (columns 8 9 line) < 100 /\
  0 <= decimal (columns 10 14 line) < 100000 /\
  0 <= decimal (columns 16 18 line) < 1000 /\
  0 <= decimal (columns 19 23 line) < 100000.
Proof.
  intros Hr H p minutes.
  pose proof (reached_tablesInv _ _ _ Hr) as Hinv. fold p in Hinv, H.
  unfold parseBRecord in H.
  destruct (Rx.find Grammar.bRecordRx line) as [m|] eqn:Hm; [|discriminate].
  apply bRecordRx_columns in Hm
    as (Hlen & E4 & E5 & E6 & E7 & E8 & E9 & E10 & E11 & E12
        & (D1 & L1) & (D2 & L2) & (D3 & L3) & (D4 & L4)
        & ns & ew & validity & S1 & S2 & S3).
  inv_bind H. inv_bind H.
  match goal with
  | Hb : parseTime _ _ _ _ _ _ = Ret (_, _, ?q) |- _ =>
      rename q into p0; rename Hb into Ht
  end.
  assert (Hinv' : tablesInv p0)
    by (eapply timeStep_tables; [eapply parseTime_timeStep|]; eassumption).
  assert (Hp0 : ladBRecordAddition p0 = ladBRecordAddition p /\
                latMinMul p0 = latMinMul p /\ latMinDiv p0 = latMinDiv p /\
                lodBRecordAddition p0 = lodBRecordAddition p /\
                lonMinMul p0 = lonMinMul p /\ lonMinDiv p0 = lonMinDiv p).
  { apply parseTime_timeStep in Ht
      as [(_ & _ & ->)|(_ & _ & d & k & _ & _ & ->)]; cbn; auto 10. }
  destruct Hp0 as (P1 & P2 & P3 & P4 & P5 & P6).
  pose proof (tablesInv_wf p0 Hinv') as (_ & _ & _ & _ & Hwlad & Hwlod).
  rewrite P1, P2, P3, P4, P5, P6 in H. rewrite P1 in Hwlad. rewrite P4 in Hwlod.
  rewrite E4, E5, E6, E7, E8, E9, E10, E11, E12 in H.
  inv_bind H.
  match goal with
  | Hb : specialAddition (ladBRecordAddition p) _ _ _ _ = Ret _ |- _ =>
      apply specialAddition_spec in Hb; [|exact Hwlad]; rename Hb into Hlat
  end.
  do 2 inv_bind H.
  match goal with
  | Hb : specialAddition (lodBRecordAddition p) _ _ _ _ = Ret _ |- _ =>
      apply specialAddition_spec in Hb; [|exact Hwlod]; rename Hb into Hlon
  end.
  do 3 inv_bind H. injection H as <- _ _.
  cbn [BRecord.Lat BRecord.Lon BRecord.Validity BRecord.AltBarometric
       BRecord.AltWGS84].
  rewrite S1 in *. rewrite S2 in *. rewrite S3 in *.
  repeat match goal with
    | Hb : index0 [_] = Ret _ |- _ => injection Hb as <-
    end.
  assert (Hnil : forall l : list ascii, 0 < len l -> l <> [])
    by (intros [|? ?] Hl; [unfold len in Hl; cbn in Hl; lia|discriminate]).
  rewrite !atoi_digits_value in * by (auto; try apply Hnil; lia).
  pose proof (decimal_bound _ D1) as B1. rewrite L1 in B1.
  pose proof (decimal_bound _ D2) as B2. rewrite L2 in B2.
  pose proof (decimal_bound _ D3) as B3. rewrite L3 in B3.
  pose proof (decimal_bound _ D4) as B4. rewrite L4 in B4.
  subst minutes. cbv beta. rewrite <- Hlat, <- Hlon.
  split_and!; try reflexivity; try lia.
  - f_equal. apply bool_decide_ext. split; [now intros ->|now intros [= ->]].
  - f_equal. apply bool_decide_ext. split; [now intros ->|now intros [= ->]].
Qed.

Lemma fix_record_columns_witness :
  reached [] tdsLines tdsState /\
  (exists r err p',
     parseBRecord (st_parser tdsState) tdsFixLine = Ret (Some r, err, p')) /\
  35 <= len tdsFixLine.
Proof.
  assert (H : reached [] tdsLines tdsState) by (vm_compute; reflexivity).
  assert (Hp : parseBRecord (st_parser tdsState) tdsFixLine = tdsFix)
    by (vm_compute; reflexivity).
  unfold tdsFix in Hp.
  split; [exact H|]. split; [eauto|].
  exact (proj1 (fix_record_columns _ _ _ _ _ _ _ H Hp)).
Defined.

(** ** The exit code of validate-igc *)

Lemma main_step_spec (worstStatus status : Z) :
  1 <= worstStatus <= 2 ->
  main_step worstStatus status
  = if bool_decide (status = civlovs.StatusUnknown) then 2 else worstStatus.
Proof.
  intros Hw.
  unfold main_step, civlovs.StatusValid, civlovs.StatusInvalid,
    civlovs.StatusUnknown.
  case_bool_decide as Hs.
  - subst status. cbn. destruct (Z.ltb_spec worstStatus 2); lia.
  - destruct (Z.eqb_spec status 1); [reflexivity|].
    destruct (Z.eqb_spec status 2).
    + destruct (Z.ltb_spec worstStatus 1); [lia|reflexivity].
    + destruct (Z.eqb_spec status 0); [contradiction|reflexivity].
Qed.

Lemma main_loop_spec (statuses : list civlovs.Status) (worstStatus : Z) :
  1 <= worstStatus <= 2 ->
  foldl main_step worstStatus statuses
  = if bool_decide (civlovs.StatusUnknown ∈ statuses) then 2 else worstStatus.
Proof.
  revert worstStatus. induction statuses as [|status statuses IH];
    intros worstStatus Hw; cbn [foldl].
  - rewrite bool_decide_eq_false_2; [reflexivity|]. apply not_elem_of_nil.
  - rewrite main_step_spec by exact Hw.
    destruct (decide (status = civlovs.StatusUnknown)) as [->|Hs].
    + rewrite bool_decide_eq_true_2 by reflexivity. rewrite IH by lia.
      rewrite (bool_decide_eq_true_2 (_ ∈ _ :: _)) by (apply elem_of_cons; now left).
      now case_bool_decide.
    + rewrite bool_decide_eq_false_2 by exact Hs. rewrite IH by lia.
      apply (f_equal (fun b : bool => if b then 2 else worstStatus)).
      apply bool_decide_ext. rewrite elem_of_cons. intuition congruence.
Qed.

(** X19. validate-igc exits with 2 when the status of some file is
    unknown (it could not be opened, or the server could not be asked)
    and with 1 otherwise: never with 0, also when every file is valid
    or when none is named, and an invalid file does not change the exit
    code, since the worst status starts as [StatusValid], which is 1,
    and an invalid file raises it to 1 at most. *)
Theorem validate_exit_code (statuses : list civlovs.Status) :
  main statuses
  = (if bool_decide (civlovs.StatusUnknown ∈ statuses) then 2 else 1) /\
  main statuses <> 0 /\
  main (filter (fun status => status <> civlovs.StatusInvalid) statuses)
  = main statuses.
Proof.
  assert (H : forall l, main l
              = if bool_decide (civlovs.StatusUnknown ∈ l) then 2 else 1).
  { intros l. unfold main. now rewrite main_loop_spec by (unfold civlovs.StatusValid; lia). }
  split; [apply H|]. split.
  - rewrite H. case_bool_decide; lia.
  - rewrite !H. apply (f_equal (fun b : bool => if b then 2 else 1)).
    apply bool_decide_ext. rewrite list_elem_of_filter.
    unfold civlovs.StatusUnknown, civlovs.StatusInvalid. intuition lia.
Qed.
